(** * tree_editer: the tree engine of the outline editor

    A shallow embedding of the TypeScript sources
      - utils/treeParser.ts: [getIndentDepth], [parseTextToTree],
        [serializeTreeToText], [flattenTree], [findNodeById] and the walks
        [getNextNode], [getPrevNode], [getNextSibling], [getPrevSibling]
        with their variants by index and on the node map;
      - the component [BrowserView] (in components/TreeNode.tsx): the undo
        history, the mutators, drag and drop, the visible rows, the
        expansion controls, the keyboard and the text area of a row;
      - the component [TreeEditor]: [toggleNode];
      - utils/localStorage.ts: [extractFileName];
      - components/FontSizeControl.tsx;
    and the properties of the specification, proved or refuted on it,
    followed by further properties of these functions. *)

From stdpp Require Import gmap list sets strings pretty.
From Stdlib Require Import ZArith NArith.

#[local] Set Warnings "-register-all,-clear-no-such-hyp".
#[local] Open Scope nat_scope.

(** ** JavaScript strings

    A JavaScript string is a sequence of UTF-16 code units; a code unit is
    modelled as an [N].  All the characters the sources inspect (tab, line
    feed, the white space of [String.prototype.trim]) are single code units. *)

Abbreviation jstring := (list N).

Definition TAB : N := 9.
Definition LF : N := 10.

(** Code units of a Rocq string literal, for readable examples. *)
Definition str (s : string) : jstring :=
  Ascii.N_of_ascii <$> String.list_ascii_of_string s.

(** [WhiteSpace] and [LineTerminator] of ECMAScript, the characters that
    [trim] removes. *)
Definition isWhiteSpace (c : N) : bool :=
  (bool_decide (c ∈ [9; 10; 11; 12; 13; 32; 160; 5760; 8232; 8233; 8239;
                      8287; 12288; 65279]%N)
   || ((8192 <=? c) && (c <=? 8202)))%N.

Fixpoint trimStart (s : jstring) : jstring :=
  match s with
  | [] => []
  | c :: s' => if isWhiteSpace c then trimStart s' else s
  end.

Definition trimEnd (s : jstring) : jstring := reverse (trimStart (reverse s)).

(** [s.trim()] *)
Definition trim (s : jstring) : jstring := trimEnd (trimStart s).

(** [text.split('\n')]: never empty; the empty text gives one empty line. *)
Fixpoint split_lines (s : jstring) : list jstring :=
  match s with
  | [] => [[]]
  | c :: s' =>
      if decide (c = LF) then [] :: split_lines s'
      else match split_lines s' with
           | [] => [[c]]
           | l :: ls => (c :: l) :: ls
           end
  end.

(** [lines.join('\n')] *)
Fixpoint join_lines (ls : list jstring) : jstring :=
  match ls with
  | [] => []
  | [l] => l
  | l :: ls' => l ++ LF :: join_lines ls'
  end.

(** ['\t'.repeat(n)] *)
Definition tabs (n : nat) : jstring := replicate n TAB.

(** [line.replace(/^\t+/, '')]: the leading run of tabs is removed. *)
Fixpoint stripLeadingTabs (line : jstring) : jstring :=
  match line with
  | [] => []
  | c :: line' => if decide (c = TAB) then stripLeadingTabs line' else line
  end.

(** ** utils/treeParser.ts: [getIndentDepth] *)

Fixpoint getIndentDepth (line : jstring) : nat :=
  match line with
  | [] => 0
  | c :: line' => if decide (c = TAB) then S (getIndentDepth line') else 0
  end.

(** ** types/index.ts: [TreeNode]

    [parent] is a back-reference to another node object.  The sources read
    through it only the parent's [id], [depth] and [parent]; none of these
    fields is ever assigned after the object is created, so the reference is
    modelled by the values of these three fields. *)

Inductive ParentRef : Type := mkParentRef {
  p_id : jstring;
  p_depth : nat;
  p_parent : option ParentRef
}.

Inductive TreeNode : Type := mkNode {
  id : jstring;
  text : jstring;
  depth : nat;
  children : list TreeNode;
  isExpanded : bool;
  parent : option ParentRef
}.

(** The value a [parent] field holds when it points to [node]. *)
Definition refTo (node : TreeNode) : ParentRef :=
  mkParentRef (id node) (depth node) (parent node).

Definition withChildren (node : TreeNode) (cs : list TreeNode) : TreeNode :=
  mkNode (id node) (text node) (depth node) cs (isExpanded node) (parent node).

(** Pre-order list of the nodes of a forest, at every level. *)
Fixpoint nodesOf (node : TreeNode) : list TreeNode :=
  node :: flat_map nodesOf (children node).

Definition allNodes (nodes : list TreeNode) : list TreeNode :=
  flat_map nodesOf nodes.

Definition idsOf (node : TreeNode) : list jstring := id <$> nodesOf node.
Definition allIds (nodes : list TreeNode) : list jstring := id <$> allNodes nodes.

Fixpoint sizeOf (node : TreeNode) : nat :=
  S (foldr (fun c acc => sizeOf c + acc) 0 (children node)).

Definition sizeAll (nodes : list TreeNode) : nat :=
  foldr (fun c acc => sizeOf c + acc) 0 nodes.

(** ** utils/treeParser.ts: [parseTextToTree]

    The parser builds node objects and keeps references to them in two
    arrays at once: [stack] (the currently open ancestors) and either [nodes]
    or the [children] array of the parent.  [parent.children.push(node)]
    mutates an object that is reachable from both, so the objects live in a
    store: a reference is an index into [heap], allocation appends. *)

Record Obj : Type := mkObj {
  o_id : jstring;
  o_text : jstring;
  o_depth : nat;
  o_children : list nat;
  o_isExpanded : bool;
  o_parent : option ParentRef
}.

(** The value a [parent] field holds when it points to the object [o]. *)
Definition refToObj (o : Obj) : ParentRef :=
  mkParentRef (o_id o) (o_depth o) (o_parent o).

Definition pushChild (ref : nat) (o : Obj) : Obj :=
  mkObj (o_id o) (o_text o) (o_depth o) (o_children o ++ [ref])
        (o_isExpanded o) (o_parent o).

Record ParseState : Type := mkParseState {
  heap : list Obj;
  nodes_arr : list nat;   (* const nodes: TreeNode[] *)
  stack : list nat        (* const stack: TreeNode[]; the head is stack[stack.length - 1] *)
}.

(** [while (stack.length > 0 && stack[stack.length - 1].depth >= depth) stack.pop()] *)
Fixpoint popDeeper (h : list Obj) (depth : nat) (stack : list nat) : list nat :=
  match stack with
  | [] => []
  | top :: rest =>
      match h !! top with
      | Some o => if decide (depth ≤ o_depth o) then popDeeper h depth rest else stack
      | None => stack
      end
  end.

(** [`node-${Date.now()}-${index}`] *)
Definition parsedId (now : N) (index : nat) : jstring :=
  str "node-" ++ str (pretty now) ++ str "-" ++ str (pretty index).

(** The body of [lines.forEach((line, index) => ...)]; [now] is the value
    [Date.now()] returns in this iteration. *)
Definition parseLine (now : N) (st : ParseState) (index : nat) (line : jstring)
  : ParseState :=
  let depth := getIndentDepth line in
  let text := trim (stripLeadingTabs line) in
  let ref := length (heap st) in
  let stack' := popDeeper (heap st) depth (stack st) in
  match stack' with
  | p :: _ =>
      let parent := refToObj <$> heap st !! p in
      let node := mkObj (parsedId now index) text depth [] true parent in
      mkParseState (alter (pushChild ref) p (heap st ++ [node]))
                   (nodes_arr st)
                   (ref :: stack')
  | [] =>
      let node := mkObj (parsedId now index) text depth [] true None in
      mkParseState (heap st ++ [node]) (nodes_arr st ++ [ref]) (ref :: stack')
  end.

Fixpoint parseLines (clock : nat → N) (st : ParseState) (index : nat)
    (lines : list jstring) : ParseState :=
  match lines with
  | [] => st
  | line :: lines' =>
      parseLines clock (parseLine (clock index) st index line) (S index) lines'
  end.

(** The tree an object reference denotes once parsing is over.  [fuel] bounds
    the nesting; the number of objects is always enough. *)
Fixpoint reify (fuel : nat) (h : list Obj) (ref : nat) : list TreeNode :=
  match fuel with
  | 0 => []
  | S fuel' =>
      match h !! ref with
      | Some o => [mkNode (o_id o) (o_text o) (o_depth o)
                          (o_children o ≫= reify fuel' h)
                          (o_isExpanded o) (o_parent o)]
      | None => []
      end
  end.

(** [text.split('\n').filter((line) => line.trim() !== '')] *)
Definition retainedLines (text : jstring) : list jstring :=
  filter (fun line => trim line ≠ []) (split_lines text).

Definition parseTextToTree (clock : nat → N) (text : jstring) : list TreeNode :=
  let st := parseLines clock (mkParseState [] [] []) 0 (retainedLines text) in
  nodes_arr st ≫= reify (length (heap st)) (heap st).

(** ** utils/treeParser.ts: [serializeTreeToText] *)

(** [traverse]; the accumulator is the array [lines]. *)
Fixpoint serializeTraverse (lines : list jstring) (node : TreeNode)
  : list jstring :=
  foldl serializeTraverse (lines ++ [tabs (depth node) ++ text node])
        (children node).

Definition serializeTreeToText (nodes : list TreeNode) : jstring :=
  join_lines (foldl serializeTraverse [] nodes).

(** ** utils/treeParser.ts: [flattenTree] *)

(** [traverse]; the accumulator is the array [result]. *)
Fixpoint flattenTraverse (result : list TreeNode) (node : TreeNode)
  : list TreeNode :=
  let result' := result ++ [node] in
  if isExpanded node then foldl flattenTraverse result' (children node)
  else result'.

Definition flattenTree (nodes : list TreeNode) : list TreeNode :=
  foldl flattenTraverse [] nodes.

(** ** [BrowserView]: state of the component

    [nodes] is the property the parent component passes down; the callback
    [onUpdateNodes] replaces it.  The other fields are the [useState] cells
    of the component. *)

Inductive DropPosition : Type := before | after | child.

#[global] Instance DropPosition_eq_dec : EqDecision DropPosition.
Proof. solve_decision. Defined.

Record DropTarget : Type := mkDropTarget {
  nodeId : jstring;
  position : DropPosition
}.

Record BrowserView : Type := mkBrowserView {
  nodes : list TreeNode;
  focusedIndex : Z;
  editingId : option jstring;
  expandedIds : gset jstring;
  history : list (list TreeNode);
  historyIndex : nat;
  draggingId : option jstring;
  dropTarget : option DropTarget
}.

(** The state the component is mounted with:
    [useState<TreeNode[][]>([nodes])], [useState(0)], and the ids of the
    nodes whose [isExpanded] is set. *)
Definition mount (nodes : list TreeNode) : BrowserView :=
  mkBrowserView nodes 0 None
    (list_to_set (id <$> filter (fun n => isExpanded n = true) (allNodes nodes)))
    [nodes] 0 None None.

Definition onUpdateNodes (updatedNodes : list TreeNode) (st : BrowserView)
  : BrowserView :=
  mkBrowserView updatedNodes (focusedIndex st) (editingId st) (expandedIds st)
    (history st) (historyIndex st) (draggingId st) (dropTarget st).

Definition setFocusedIndex (i : Z) (st : BrowserView) : BrowserView :=
  mkBrowserView (nodes st) i (editingId st) (expandedIds st)
    (history st) (historyIndex st) (draggingId st) (dropTarget st).

Definition setEditingId (e : option jstring) (st : BrowserView) : BrowserView :=
  mkBrowserView (nodes st) (focusedIndex st) e (expandedIds st)
    (history st) (historyIndex st) (draggingId st) (dropTarget st).

Definition setExpandedIds (s : gset jstring) (st : BrowserView) : BrowserView :=
  mkBrowserView (nodes st) (focusedIndex st) (editingId st) s
    (history st) (historyIndex st) (draggingId st) (dropTarget st).

Definition setHistory (h : list (list TreeNode)) (i : nat) (st : BrowserView)
  : BrowserView :=
  mkBrowserView (nodes st) (focusedIndex st) (editingId st) (expandedIds st)
    h i (draggingId st) (dropTarget st).

Definition setDraggingId (d : option jstring) (st : BrowserView) : BrowserView :=
  mkBrowserView (nodes st) (focusedIndex st) (editingId st) (expandedIds st)
    (history st) (historyIndex st) d (dropTarget st).

Definition setDropTarget (d : option DropTarget) (st : BrowserView) : BrowserView :=
  mkBrowserView (nodes st) (focusedIndex st) (editingId st) (expandedIds st)
    (history st) (historyIndex st) (draggingId st) d.

(** ** [flatNodes]: the visible rows *)

Record FlatNode : Type := mkFlatNode {
  f_id : jstring;
  f_text : jstring;
  f_depth : nat;
  f_hasChildren : bool;
  f_isExpanded : bool;
  f_index : nat
}.

(** [traverse]; the accumulator is the array [result] with the counter
    [index]. *)
Fixpoint traverse (expanded : gset jstring) (acc : list FlatNode * nat)
    (node : TreeNode) : list FlatNode * nat :=
  let isExpanded := bool_decide (id node ∈ expanded) in
  let acc' :=
    (acc.1 ++ [mkFlatNode (id node) (text node) (depth node)
                          (bool_decide (0 < length (children node)))
                          isExpanded acc.2],
     S acc.2) in
  if isExpanded then foldl (traverse expanded) acc' (children node) else acc'.

Definition flatNodesOf (expanded : gset jstring) (nodes : list TreeNode)
  : list FlatNode :=
  (foldl (traverse expanded) ([], 0) nodes).1.

Definition flatNodes (st : BrowserView) : list FlatNode :=
  flatNodesOf (expandedIds st) (nodes st).

(** ** [nodeMap]: [Map<string, TreeNode>] filled in pre-order *)

Fixpoint build (map : gmap jstring TreeNode) (node : TreeNode)
  : gmap jstring TreeNode :=
  foldl build (<[id node := node]> map) (children node).

Definition nodeMapOf (nodes : list TreeNode) : gmap jstring TreeNode :=
  foldl build ∅ nodes.

Definition nodeMap (st : BrowserView) : gmap jstring TreeNode :=
  nodeMapOf (nodes st).

(** ** [handleToggle] *)

Definition handleToggle (i : jstring) (st : BrowserView) : BrowserView :=
  setExpandedIds (if bool_decide (i ∈ expandedIds st)
                  then expandedIds st ∖ {[i]}
                  else expandedIds st ∪ {[i]}) st.

(** ** History: [addToHistory], [handleUndo], [handleRedo] *)

Definition addToHistory (newNodes : list TreeNode) (st : BrowserView)
  : BrowserView :=
  let newHistory := take (historyIndex st + 1) (history st) ++ [newNodes] in
  if decide (50 < length newHistory)
  then setHistory (drop 1 newHistory) (historyIndex st) st
  else setHistory newHistory (length newHistory - 1) st.

(** [onUpdateNodes(history[newIndex])]: reading past the end of the array
    gives [undefined], on which [serializeTreeToText] (called by the parent's
    [handleUpdateNodes]) throws; [None] is that exception. *)
Definition restoreSnapshot (newIndex : nat) (st : BrowserView)
  : option BrowserView :=
  snapshot ← history st !! newIndex;
  Some (onUpdateNodes snapshot (setHistory (history st) newIndex st)).

Definition handleUndo (st : BrowserView) : option BrowserView :=
  if decide (0 < historyIndex st)
  then restoreSnapshot (historyIndex st - 1) st
  else Some st.

Definition handleRedo (st : BrowserView) : option BrowserView :=
  if decide (Z.of_nat (historyIndex st) < Z.of_nat (length (history st)) - 1)%Z
  then restoreSnapshot (historyIndex st + 1) st
  else Some st.

(** ** Array helpers *)

(** [arr.findIndex(p)], with [-1] when no element satisfies [p]. *)
Fixpoint findIndexFrom {A} (p : A → bool) (i : Z) (arr : list A) : Z :=
  match arr with
  | [] => (-1)%Z
  | x :: arr' => if p x then i else findIndexFrom p (i + 1)%Z arr'
  end.

Definition findIndex {A} (p : A → bool) (arr : list A) : Z :=
  findIndexFrom p 0%Z arr.

(** [arr.splice(start, 0, item)] on a copy of [arr]: a negative [start]
    counts from the end, and the position is clamped to the array. *)
Definition spliceIn {A} (start : Z) (item : A) (arr : list A) : list A :=
  let len := Z.of_nat (length arr) in
  let pos := if decide (start < 0)%Z then Z.max (len + start) 0
             else Z.min start len in
  take (Z.to_nat pos) arr ++ item :: drop (Z.to_nat pos) arr.

Definition hasId (i : jstring) (node : TreeNode) : bool :=
  bool_decide (id node = i).

(** ** [removeNode] (the same closure in [handleDelete], [handleUpdateText]
    and [handleDrop]):
    [nodeList.filter(node => node.id !== nodeId)
             .map(node => ({...node, children: removeNode(node.children || [], nodeId)}))] *)

Fixpoint removeNodeIn (nodeId : jstring) (node : TreeNode) : TreeNode :=
  withChildren node
    ((fix removeNode (nodeList : list TreeNode) : list TreeNode :=
        match nodeList with
        | [] => []
        | n :: rest =>
            if hasId nodeId n then removeNode rest
            else removeNodeIn nodeId n :: removeNode rest
        end) (children node)).

Definition removeNode (nodeList : list TreeNode) (nodeId : jstring)
  : list TreeNode :=
  (fun node => removeNodeIn nodeId node)
    <$> filter (fun node => id node ≠ nodeId) nodeList.

(** ** [handleDelete] *)

Definition handleDelete (i : jstring) (st : BrowserView) : BrowserView :=
  let updatedNodes := removeNode (nodes st) i in
  let st1 := onUpdateNodes updatedNodes (addToHistory updatedNodes st) in
  let newIndex := Z.min (focusedIndex st) (Z.of_nat (length (flatNodes st)) - 2) in
  setFocusedIndex (Z.max 0 newIndex) st1.

(** ** [handleAddSibling]; [now] is the value of [Date.now()] *)

Definition freshId (now : N) : jstring := str "node-" ++ str (pretty now).

Fixpoint addAfter (parentId anchorId : jstring) (newNode : TreeNode)
    (node : TreeNode) : TreeNode :=
  if hasId parentId node then
    let targetIndex := findIndex (hasId anchorId) (children node) in
    withChildren node (spliceIn (targetIndex + 1) newNode (children node))
  else withChildren node (addAfter parentId anchorId newNode <$> children node).

Definition handleAddSibling (now : N) (i : jstring) (st : BrowserView)
  : BrowserView :=
  match nodeMap st !! i with
  | None => st
  | Some targetNode =>
      let newNode :=
        mkNode (freshId now) [] (depth targetNode) [] true (parent targetNode) in
      let st1 :=
        match parent targetNode with
        | Some targetParent =>
            let updatedNodes :=
              addAfter (p_id targetParent) i newNode <$> nodes st in
            onUpdateNodes updatedNodes (addToHistory updatedNodes st)
        | None =>
            let targetIndex := findIndex (hasId i) (nodes st) in
            let newNodes := spliceIn (targetIndex + 1) newNode (nodes st) in
            onUpdateNodes newNodes (addToHistory newNodes st)
        end in
      setEditingId (Some (id newNode)) st1
  end.

(** ** [handleUpdateText]

    The callback deferred with [setTimeout] only moves the focus and is not
    part of the synchronous step. *)

Fixpoint updateText (i newText : jstring) (node : TreeNode) : TreeNode :=
  if hasId i node
  then mkNode (id node) newText (depth node) (children node)
              (isExpanded node) (parent node)
  else withChildren node (updateText i newText <$> children node).

Definition handleUpdateText (i newText : jstring) (st : BrowserView)
  : BrowserView :=
  if decide (trim newText = []) then
    let updatedNodes := removeNode (nodes st) i in
    setEditingId None (onUpdateNodes updatedNodes (addToHistory updatedNodes st))
  else
    let updatedNodes := updateText i newText <$> nodes st in
    setEditingId None (onUpdateNodes updatedNodes (addToHistory updatedNodes st)).

(** ** [handleAddChild]

    The callback deferred with [setTimeout] only sets [editingId]. *)

Fixpoint addChild (now : N) (i : jstring) (node : TreeNode) : TreeNode :=
  if hasId i node then
    let newNode :=
      mkNode (freshId now) [] (depth node + 1) [] true (Some (refTo node)) in
    mkNode (id node) (text node) (depth node) (children node ++ [newNode])
           true (parent node)
  else withChildren node (addChild now i <$> children node).

Definition handleAddChild (now : N) (i : jstring) (st : BrowserView)
  : BrowserView :=
  let updatedNodes := addChild now i <$> nodes st in
  let st1 := onUpdateNodes updatedNodes (addToHistory updatedNodes st) in
  setExpandedIds (expandedIds st1 ∪ {[i]}) st1.

(** ** Drag and drop *)

(** [!draggingId]: [null] and the empty string are falsy. *)
Definition falsy (s : option jstring) : bool :=
  match s with
  | None | Some [] => true
  | Some (_ :: _) => false
  end.

Definition handleDragStart (nodeId : jstring) (st : BrowserView) : BrowserView :=
  setDraggingId (Some nodeId) st.

(** [isDescendant(parent, childId)] *)
Fixpoint isDescendant (parent : TreeNode) (childId : jstring) : bool :=
  if hasId childId parent then true
  else existsb (fun child => isDescendant child childId) (children parent).

(** [handleDragOver]; [pos] is the position the handler computes from the
    pointer offset inside the row (upper 30%: before, lower 30%: after,
    else child), a floating-point computation that stays outside the
    model. *)
Definition handleDragOver (targetNodeId : jstring) (pos : DropPosition)
    (st : BrowserView) : BrowserView :=
  if falsy (draggingId st) || bool_decide (draggingId st = Some targetNodeId)
  then setDropTarget None st
  else
    match draggingId st ≫= (fun d => nodeMap st !! d),
          nodeMap st !! targetNodeId with
    | Some dragNode, Some targetNode =>
        if isDescendant dragNode targetNodeId then setDropTarget None st
        else setDropTarget (Some (mkDropTarget targetNodeId pos)) st
    | _, _ => st
    end.

Definition handleDragEnd (st : BrowserView) : BrowserView :=
  setDropTarget None (setDraggingId None st).

(** [updateNodeDepth] *)
Fixpoint updateNodeDepth (node : TreeNode) (newDepth : nat)
    (newParent : option ParentRef) : TreeNode :=
  let updated := mkParentRef (id node) newDepth newParent in
  mkNode (id node) (text node) newDepth
    ((fun child => updateNodeDepth child (newDepth + 1) (Some updated))
       <$> children node)
    (isExpanded node) newParent.

(** [insertNode] *)
Fixpoint insertNodeIn (targetId : jstring) (newNode : TreeNode)
    (position : DropPosition) (node : TreeNode) : TreeNode :=
  if hasId targetId node && bool_decide (position = child) then
    let nodeWithUpdatedDepth :=
      updateNodeDepth newNode (depth node + 1) (Some (refTo node)) in
    mkNode (id node) (text node) (depth node)
           (children node ++ [nodeWithUpdatedDepth]) true (parent node)
  else if bool_decide (0 < length (children node)) then
    let childIndex := findIndex (hasId targetId) (children node) in
    if bool_decide (childIndex ≠ (-1)%Z)
       && (bool_decide (position = before) || bool_decide (position = after))
    then
      let insertIndex :=
        if bool_decide (position = before) then childIndex
        else (childIndex + 1)%Z in
      match children node !! Z.to_nat childIndex with
      | Some target =>
          let nodeWithUpdatedDepth :=
            updateNodeDepth newNode (depth target) (Some (refTo node)) in
          withChildren node
            (spliceIn insertIndex nodeWithUpdatedDepth (children node))
      | None => node (* not reached: [childIndex] is an index of [children] *)
      end
    else
      withChildren node
        (insertNodeIn targetId newNode position <$> children node)
  else node.

Definition insertNode (nodeList : list TreeNode) (targetId : jstring)
    (newNode : TreeNode) (position : DropPosition) : list TreeNode :=
  insertNodeIn targetId newNode position <$> nodeList.

(** The tree [handleDrop] computes ([newNodes]); [None] when it computes
    none, the target having left the root array with the source. *)
Definition dropNodes (nodes : list TreeNode) (sourceId : jstring)
    (sourceNode : TreeNode) (target : DropTarget) : option (list TreeNode) :=
  let rootIndex := findIndex (hasId (nodeId target)) nodes in
  if bool_decide (rootIndex ≠ (-1)%Z)
     && (bool_decide (position target = before)
         || bool_decide (position target = after))
  then
    let nodesWithoutSource := removeNode nodes sourceId in
    let targetIndex := findIndex (hasId (nodeId target)) nodesWithoutSource in
    if bool_decide (targetIndex ≠ (-1)%Z) then
      let insertIndex :=
        if bool_decide (position target = before) then targetIndex
        else (targetIndex + 1)%Z in
      let nodeWithUpdatedDepth := updateNodeDepth sourceNode 0 None in
      Some (spliceIn insertIndex nodeWithUpdatedDepth nodesWithoutSource)
    else None
  else
    let nodesWithoutSource := removeNode nodes sourceId in
    Some (insertNode nodesWithoutSource (nodeId target) sourceNode
                     (position target)).

Definition dropMove (sourceId : jstring) (sourceNode : TreeNode)
    (target : DropTarget) (st : BrowserView) : BrowserView :=
  match dropNodes (nodes st) sourceId sourceNode target with
  | Some newNodes => onUpdateNodes newNodes (addToHistory newNodes st)
  | None => st
  end.

(** [handleDrop] *)
Definition handleDrop (st : BrowserView) : BrowserView :=
  match draggingId st, dropTarget st with
  | Some sourceId, Some target =>
      if falsy (draggingId st) then handleDragEnd st
      else
        match nodeMap st !! sourceId, nodeMap st !! nodeId target with
        | Some sourceNode, Some targetNode =>
            let st1 := dropMove sourceId sourceNode target st in
            let st2 :=
              if bool_decide (position target = child)
              then setExpandedIds (expandedIds st1 ∪ {[nodeId target]}) st1
              else st1 in
            handleDragEnd st2
        | _, _ => handleDragEnd st
        end
  | _, _ => handleDragEnd st
  end.

(** ** [TreeEditor]: [toggleNode] *)

Fixpoint toggleInNode (i : jstring) (node : TreeNode) : TreeNode :=
  if hasId i node
  then mkNode (id node) (text node) (depth node) (children node)
              (negb (isExpanded node)) (parent node)
  else if bool_decide (0 < length (children node))
  then withChildren node (toggleInNode i <$> children node)
  else node.

Definition toggleInTree (i : jstring) (nodes : list TreeNode) : list TreeNode :=
  toggleInNode i <$> nodes.

(** ** The history as the specification names its operations *)

(** Every mutator ends with [addToHistory(x); onUpdateNodes(x)]. *)
Definition push (newNodes : list TreeNode) (st : BrowserView) : BrowserView :=
  onUpdateNodes newNodes (addToHistory newNodes st).

Inductive HistoryOp : Type :=
  | Push (newNodes : list TreeNode)
  | Undo
  | Redo.

Definition historyStep (op : HistoryOp) (st : BrowserView) : option BrowserView :=
  match op with
  | Push newNodes => Some (push newNodes st)
  | Undo => handleUndo st
  | Redo => handleRedo st
  end.

Fixpoint runHistory (ops : list HistoryOp) (st : BrowserView)
  : option BrowserView :=
  match ops with
  | [] => Some st
  | op :: ops' => st' ← historyStep op st; runHistory ops' st'
  end.

Fixpoint undoTimes (k : nat) (st : BrowserView) : option BrowserView :=
  match k with
  | 0 => Some st
  | S k' => st' ← handleUndo st; undoTimes k' st'
  end.

Definition pushAll (ps : list (list TreeNode)) (st : BrowserView) : BrowserView :=
  foldl (fun s newNodes => push newNodes s) st ps.

(** The cursor points into the history, the history is within its
    capacity, and the entry under the cursor is the tree on display. *)
Definition historyOk (st : BrowserView) : Prop :=
  historyIndex st < length (history st)
  ∧ length (history st) ≤ 50
  ∧ history st !! historyIndex st = Some (nodes st).

(** ** Observations on trees used in the statements *)

(** What a node shows of itself: its id, its text and its depth. *)
Definition entry (node : TreeNode) : jstring * jstring * nat :=
  (id node, text node, depth node).

(** The tree with every text blanked: ids, depths, expansion flags, parent
    references, and the nesting and order of the nodes. *)
Fixpoint skeleton (node : TreeNode) : TreeNode :=
  mkNode (id node) [] (depth node) (skeleton <$> children node)
         (isExpanded node) (parent node).

(** The walk the specification describes: pre-order, depth first, the
    children of a node being visited exactly when the node's id is in the
    expanded set. *)
Fixpoint visible (expanded : gset jstring) (node : TreeNode) : list TreeNode :=
  node :: (if bool_decide (id node ∈ expanded)
           then flat_map (visible expanded) (children node) else []).

Definition visibleAll (expanded : gset jstring) (nodes : list TreeNode)
  : list TreeNode :=
  flat_map (visible expanded) nodes.

(** The row shown for a node at position [index]. *)
Definition rowOf (expanded : gset jstring) (index : nat) (node : TreeNode)
  : FlatNode :=
  mkFlatNode (id node) (text node) (depth node)
             (bool_decide (0 < length (children node)))
             (bool_decide (id node ∈ expanded)) index.

(** A drag gesture from the idle state: the drag starts on [sourceId], the
    pointer is over the row of [targetId] in the zone [pos], the button is
    released. *)
Definition move (sourceId targetId : jstring) (pos : DropPosition)
    (st : BrowserView) : BrowserView :=
  handleDrop (handleDragOver targetId pos (handleDragStart sourceId st)).

(** The same with the pointer passing over any number of rows before the
    button is released. *)
Definition hoverAll (sourceId : jstring)
    (hovers : list (jstring * DropPosition)) (st : BrowserView) : BrowserView :=
  foldl (fun x hover => handleDragOver hover.1 hover.2 x)
        (handleDragStart sourceId st) hovers.

Definition gesture (sourceId : jstring)
    (hovers : list (jstring * DropPosition)) (st : BrowserView) : BrowserView :=
  handleDrop (hoverAll sourceId hovers st).

(** While [sourceId] is dragged over the tree of [st], the pending drop
    target, if any, has passed the checks of [handleDragOver]. *)
Definition dragging (sourceId : jstring) (st x : BrowserView) : Prop :=
  ∃ target,
    x = setDropTarget target (setDraggingId (Some sourceId) st)
    ∧ ∀ dt, target = Some dt →
        sourceId ≠ [] ∧ sourceId ≠ nodeId dt
        ∧ ∃ src tgt, nodeMap st !! sourceId = Some src
                     ∧ nodeMap st !! nodeId dt = Some tgt
                     ∧ isDescendant src (nodeId dt) = false.

(** Some node has its own id among its proper descendants. *)
Definition selfAncestor (nodes : list TreeNode) : Prop :=
  ∃ n, n ∈ allNodes nodes ∧ id n ∈ allIds (children n).

(** The level of every node of a subtree below the subtree's root, in
    pre-order; it is read off the nesting, not off the [depth] fields. *)
Fixpoint levelsOf (node : TreeNode) : list nat :=
  0 :: (S <$> flat_map levelsOf (children node)).

(** Where [insertNode] can put the dragged node: as a child of any node
    ([child]), or next to any node that is somebody's child ([before],
    [after]); next to a root it is [handleDrop] itself that inserts. *)
Definition sites (pos : DropPosition) (nodes : list TreeNode) : list jstring :=
  if decide (pos = child) then allIds nodes
  else flat_map (fun n => allIds (children n)) nodes.

(** The depth and the text of a node, the two things a line of the text
    form carries. *)
Definition depthText (n : TreeNode) : nat * jstring := (depth n, text n).

(** ** Texts of the round trip *)

(** What [serializeTreeToText] writes for the node of a line. *)
Definition normalLine (line : jstring) : jstring :=
  tabs (getIndentDepth line) ++ trim (stripLeadingTabs line).

(** A line without line feed that is not blank and whose text, after the
    leading tabs, has no white space at its edges. *)
Definition cleanLine (line : jstring) : Prop :=
  (LF ∉ line) ∧ trim line ≠ []
  ∧ trim (stripLeadingTabs line) = stripLeadingTabs line.

#[global] Instance cleanLine_dec line : Decision (cleanLine line).
Proof. unfold cleanLine. apply _. Defined.

(** ** The parser's store, seen from the tree it holds

    The proof that the store of [parseTextToTree] holds a tree follows the
    parser with a zipper: [done] are the finished roots, [frames] the open
    nodes, innermost first; the [children] of a frame are its finished
    children.  The objects of the store are the nodes of the zipper's tree,
    numbered in pre-order. *)

Definition objOf (n : TreeNode) (kids : list nat) : Obj :=
  mkObj (id n) (text n) (depth n) kids (isExpanded n) (parent n).

(** The references of the trees of a forest whose first object is [b]. *)
Fixpoint refsFrom (b : nat) (l : list TreeNode) : list nat :=
  match l with
  | [] => []
  | n :: l' => b :: refsFrom (b + sizeOf n) l'
  end.

(** The objects of a tree whose root is the object [b]. *)
Fixpoint cellsNode (b : nat) (n : TreeNode) : list Obj :=
  objOf n (refsFrom (S b) (children n))
  :: (fix cellsForest (b : nat) (l : list TreeNode) : list Obj :=
        match l with
        | [] => []
        | c :: l' => cellsNode b c ++ cellsForest (b + sizeOf c) l'
        end) (S b) (children n).

Fixpoint cellsForest (b : nat) (l : list TreeNode) : list Obj :=
  match l with
  | [] => []
  | c :: l' => cellsNode b c ++ cellsForest (b + sizeOf c) l'
  end.

(** Closing the frames around the finished trees [above]. *)
Fixpoint plug (frames : list TreeNode) (above : list TreeNode)
  : list TreeNode :=
  match frames with
  | [] => above
  | f :: below => plug below [withChildren f (children f ++ above)]
  end.

Definition forestOf (done frames : list TreeNode) : list TreeNode :=
  done ++ plug frames [].

(** The number of objects below and in the frames: the reference of the
    next object, were the innermost frame to get a child now. *)
Fixpoint nextRef (done frames : list TreeNode) : nat :=
  match frames with
  | [] => sizeAll done
  | f :: below => nextRef done below + 1 + sizeAll (children f)
  end.

Fixpoint stackRefs (done frames : list TreeNode) : list nat :=
  match frames with
  | [] => []
  | f :: below => nextRef done below :: stackRefs done below
  end.

(** The objects in front of the tree that is plugged into [below]. *)
Fixpoint cellsBelow (done below : list TreeNode) : list Obj :=
  match below with
  | [] => cellsForest 0 done
  | g :: rest =>
      let r := nextRef done rest in
      cellsBelow done rest
      ++ objOf g (refsFrom (S r) (children g) ++ [r + 1 + sizeAll (children g)])
      :: cellsForest (S r) (children g)
  end.

(** The zipper after the [while] loop of the parser. *)
Fixpoint popFrames (d : nat) (done above frames : list TreeNode)
  : list TreeNode * list TreeNode :=
  match frames with
  | [] => (done ++ above, [])
  | f :: below =>
      let f' := withChildren f (children f ++ above) in
      if decide (d ≤ depth f) then popFrames d done [f'] below
      else (done, f' :: below)
  end.

(** The zipper after one line. *)
Definition zipLine (now : N) (z : list TreeNode * list TreeNode)
    (index : nat) (line : jstring) : list TreeNode * list TreeNode :=
  let z1 := popFrames (getIndentDepth line) z.1 [] z.2 in
  let parent := match z1.2 with
                | f :: _ => Some (refTo f)
                | [] => None
                end in
  (z1.1,
   mkNode (parsedId now index) (trim (stripLeadingTabs line))
          (getIndentDepth line) [] true parent :: z1.2).

Fixpoint zipLines (clock : nat → N) (z : list TreeNode * list TreeNode)
    (index : nat) (lines : list jstring) : list TreeNode * list TreeNode :=
  match lines with
  | [] => z
  | line :: lines' =>
      zipLines clock (zipLine (clock index) z index line) (S index) lines'
  end.

(** The store holds the tree of the zipper. *)
Definition holds (st : ParseState) (z : list TreeNode * list TreeNode) : Prop :=
  heap st = cellsForest 0 (forestOf z.1 z.2)
  ∧ nodes_arr st = refsFrom 0 (forestOf z.1 z.2)
  ∧ stack st = stackRefs z.1 z.2.

(** ** Depths in a parsed tree *)

(** Definition of the specification: every root has depth 0 and every child
    is one deeper than its parent. *)
Definition depthConsistent (nodes : list TreeNode) : Prop :=
  (∀ r, r ∈ nodes → depth r = 0)
  ∧ (∀ p c, p ∈ allNodes nodes → c ∈ children p → depth c = depth p + 1).

(** No line is indented by more than [limit] tabs, and none by more than
    one tab more than the line before it. *)
Fixpoint indentedWithin (limit : nat) (lines : list jstring) : Prop :=
  match lines with
  | [] => True
  | line :: rest =>
      getIndentDepth line ≤ limit
      ∧ indentedWithin (S (getIndentDepth line)) rest
  end.

(** The first line is not indented and the indentation grows by one tab at
    most from a line to the next. *)
Definition wellIndented (lines : list jstring) : Prop := indentedWithin 0 lines.

(** A subtree all of whose nodes are at their level, counted from [d]. *)
Inductive Levelled : nat → TreeNode → Prop :=
  | Levelled_node d n :
      depth n = d → Forall (Levelled (S d)) (children n) → Levelled d n.

(** The open nodes are at the levels 0, 1, 2, ... from the outermost on. *)
Fixpoint framesOk (frames : list TreeNode) : Prop :=
  match frames with
  | [] => True
  | f :: below =>
      depth f = length below
      ∧ Forall (Levelled (S (length below))) (children f)
      ∧ framesOk below
  end.

(** ** Example data *)

Definition leafNode (name : string) : TreeNode :=
  mkNode (str name) (str name) 0 [] true None.

(** The states pushed by 51 edits. *)
Definition fiftyOnePushes : list (list TreeNode) :=
  (fun i => [mkNode (str (pretty i)) (str (pretty i)) 0 [] true None]) <$> seq 1 51.

(** An id that no node has. *)
Definition ghost : jstring := str "ghost".

Definition oneLeaf : BrowserView := mount [leafNode "a"].

(** A text whose first line is indented by one tab. *)
Definition indentedFirstLine : jstring := [TAB; 65%N].

(** A text whose second line is indented by two tabs at once. *)
Definition jumpingText : jstring := join_lines [str "A"; TAB :: TAB :: str "B"].

(** The text of the specification's example: A with the children B and C,
    then D. *)
Definition sampleLines : list jstring :=
  [str "A"; TAB :: str "B"; TAB :: str "C"; str "D"].

Definition sample : jstring := join_lines sampleLines.

Definition sampleNodes : list TreeNode :=
  Eval vm_compute in parseTextToTree (fun _ => 0%N) sample.

Definition sampleView : BrowserView := mount sampleNodes.

(** Its nodes A, B and D. *)
Definition nodeA : TreeNode :=
  Eval vm_compute in default (leafNode "") (allNodes sampleNodes !! 0).

Definition nodeB : TreeNode :=
  Eval vm_compute in default (leafNode "") (allNodes sampleNodes !! 1).

Definition nodeD : TreeNode :=
  Eval vm_compute in default (leafNode "") (allNodes sampleNodes !! 3).

(** ** utils/treeParser.ts: [findNodeById] *)

Fixpoint findNodeIn (i : jstring) (node : TreeNode) : option TreeNode :=
  if hasId i node then Some node
  else
    (fix findNodeById (nodes : list TreeNode) : option TreeNode :=
       match nodes with
       | [] => None
       | n :: rest =>
           match findNodeIn i n with
           | Some found => Some found
           | None => findNodeById rest
           end
       end) (children node).

Fixpoint findNodeById (nodes : list TreeNode) (i : jstring) : option TreeNode :=
  match nodes with
  | [] => None
  | node :: rest =>
      match findNodeIn i node with
      | Some found => Some found
      | None => findNodeById rest i
      end
  end.

(** ** utils/treeParser.ts: the neighbours of a node in display order

    An index is the result of [findIndex] or a loop counter, an integer;
    [-1] stands for a node that is not in the array. *)

Definition getNextNodeByIndex (flatNodes : list TreeNode) (currentIndex : Z)
  : option TreeNode :=
  if decide (currentIndex < 0 ∨ currentIndex >= Z.of_nat (length flatNodes) - 1)%Z
  then None
  else flatNodes !! Z.to_nat (currentIndex + 1).

Definition getNextNodeOptimized (flatNodes : list TreeNode)
    (currentId : jstring) : option TreeNode :=
  getNextNodeByIndex flatNodes (findIndex (hasId currentId) flatNodes).

Definition getNextNode (nodes : list TreeNode) (currentId : jstring)
  : option TreeNode :=
  getNextNodeOptimized (flattenTree nodes) currentId.

Definition getPrevNodeByIndex (flatNodes : list TreeNode) (currentIndex : Z)
  : option TreeNode :=
  if decide (currentIndex <= 0 ∨ currentIndex >= Z.of_nat (length flatNodes))%Z
  then None
  else flatNodes !! Z.to_nat (currentIndex - 1).

Definition getPrevNodeOptimized (flatNodes : list TreeNode)
    (currentId : jstring) : option TreeNode :=
  getPrevNodeByIndex flatNodes (findIndex (hasId currentId) flatNodes).

Definition getPrevNode (nodes : list TreeNode) (currentId : jstring)
  : option TreeNode :=
  getPrevNodeOptimized (flattenTree nodes) currentId.

(** [for (let i = from; i < arr.length; i++) if (p(arr[i])) return i]; [rest]
    is the part of the array from [i] on. *)
Fixpoint scanDown {A} (p : A → bool) (i : nat) (rest : list A) : option nat :=
  match rest with
  | [] => None
  | x :: rest' => if p x then Some i else scanDown p (S i) rest'
  end.

(** [for (let i = below - 1; i >= 0; i--) if (p(arr[i])) return i]; every
    caller has [below ≤ arr.length]. *)
Fixpoint scanUp {A} (p : A → bool) (arr : list A) (below : nat) : option nat :=
  match below with
  | 0 => None
  | S i =>
      match arr !! i with
      | Some x => if p x then Some i else scanUp p arr i
      | None => None (* not reached: [i] is an index of [arr] *)
      end
  end.

Definition atDepth (targetDepth : nat) (node : TreeNode) : bool :=
  bool_decide (depth node = targetDepth).

Definition getNextSiblingByIndex (flatNodes : list TreeNode) (currentIndex : Z)
    (targetDepth : nat) : option TreeNode :=
  if decide (currentIndex < 0 ∨ currentIndex >= Z.of_nat (length flatNodes))%Z
  then None
  else
    i ← scanDown (atDepth targetDepth) (Z.to_nat (currentIndex + 1))
                 (drop (Z.to_nat (currentIndex + 1)) flatNodes);
    flatNodes !! i.

Definition getNextSiblingOptimized (flatNodes : list TreeNode)
    (nodeMap : gmap jstring TreeNode) (currentId : jstring) : option TreeNode :=
  currentNode ← nodeMap !! currentId;
  getNextSiblingByIndex flatNodes (findIndex (hasId currentId) flatNodes)
                        (depth currentNode).

Definition getNextSibling (nodes : list TreeNode) (currentId : jstring)
  : option TreeNode :=
  currentNode ← findNodeById nodes currentId;
  let flatNodes := flattenTree nodes in
  let currentIndex := findIndex (hasId currentId) flatNodes in
  i ← scanDown (atDepth (depth currentNode)) (Z.to_nat (currentIndex + 1))
               (drop (Z.to_nat (currentIndex + 1)) flatNodes);
  flatNodes !! i.

Definition getPrevSiblingByIndex (flatNodes : list TreeNode) (currentIndex : Z)
    (targetDepth : nat) : option TreeNode :=
  if decide (currentIndex < 0 ∨ currentIndex >= Z.of_nat (length flatNodes))%Z
  then None
  else
    i ← scanUp (atDepth targetDepth) flatNodes (Z.to_nat currentIndex);
    flatNodes !! i.

Definition getPrevSiblingOptimized (flatNodes : list TreeNode)
    (nodeMap : gmap jstring TreeNode) (currentId : jstring) : option TreeNode :=
  currentNode ← nodeMap !! currentId;
  getPrevSiblingByIndex flatNodes (findIndex (hasId currentId) flatNodes)
                        (depth currentNode).

Definition getPrevSibling (nodes : list TreeNode) (currentId : jstring)
  : option TreeNode :=
  currentNode ← findNodeById nodes currentId;
  let flatNodes := flattenTree nodes in
  let currentIndex := findIndex (hasId currentId) flatNodes in
  i ← scanUp (atDepth (depth currentNode)) flatNodes (Z.to_nat currentIndex);
  flatNodes !! i.

(** ** Parent references and outlines of trees *)

(** Every root is without parent and the [parent] field of every child
    designates the node it is a child of. *)
Definition parentsOk (nodes : list TreeNode) : Prop :=
  (∀ r, r ∈ nodes → parent r = None)
  ∧ (∀ p c, p ∈ allNodes nodes → c ∈ children p → parent c = Some (refTo p)).

(** A subtree whose root has the parent field [q] and whose nodes all refer
    to their parents. *)
Inductive Parented : option ParentRef → TreeNode → Prop :=
  | Parented_node q n :
      parent n = q → Forall (Parented (Some (refTo n))) (children n) →
      Parented q n.

(** The parent field of a node created under the open nodes [frames]. *)
Definition topRef (frames : list TreeNode) : option ParentRef :=
  match frames with
  | f :: _ => Some (refTo f)
  | [] => None
  end.

Fixpoint framesParented (frames : list TreeNode) : Prop :=
  match frames with
  | [] => True
  | f :: below =>
      parent f = topRef below
      ∧ Forall (Parented (Some (refTo f))) (children f)
      ∧ framesParented below
  end.

(** What the text form keeps of a tree: the nesting and the order of the
    nodes with, at each node, its depth and its text. *)
Fixpoint outline (node : TreeNode) : TreeNode :=
  mkNode [] (text node) (depth node) (outline <$> children node) true None.

(** A text that a line of the text form carries unchanged: not blank, no
    line feed, no white space at its edges. *)
Definition cleanText (t : jstring) : Prop :=
  (LF ∉ t) ∧ t ≠ [] ∧ trim t = t.

#[global] Instance cleanText_dec t : Decision (cleanText t).
Proof. unfold cleanText. apply _. Defined.

(** The id, and the expansion flag, of a node. *)
Definition idFlag (n : TreeNode) : jstring * bool := (id n, isExpanded n).

(** The characters of a printed number are the digits. *)
Definition digit (a : Ascii.ascii) : Prop :=
  (48 ≤ Ascii.N_of_ascii a ≤ 57)%N.

(** A run of white space. *)
Definition blank (ws : jstring) : Prop :=
  Forall (fun c => isWhiteSpace c = true) ws.

(** ** [BrowserView]: expanding and collapsing at once *)

(** [collect] of [handleExpandAll]; the accumulator is the set [allIds]. *)
Fixpoint collectParents (acc : gset jstring) (node : TreeNode) : gset jstring :=
  if bool_decide (0 < length (children node))
  then foldl collectParents (acc ∪ {[id node]}) (children node)
  else acc.

Definition handleExpandAll (st : BrowserView) : BrowserView :=
  setExpandedIds (foldl collectParents ∅ (nodes st)) st.

Definition handleCollapseAll (st : BrowserView) : BrowserView :=
  setExpandedIds ∅ st.

(** [flatNodes.filter((n) => n.depth === depth && n.hasChildren)] *)
Definition nodesAtDepth (d : nat) (st : BrowserView) : list FlatNode :=
  filter (fun n => f_depth n = d ∧ f_hasChildren n = true) (flatNodes st).

(** [handleToggleDepth] *)
Definition handleToggleDepth (d : nat) (st : BrowserView) : BrowserView :=
  if decide (length (nodesAtDepth d st) = 0) then st
  else
    let allExpanded :=
      forallb (fun n => bool_decide (f_id n ∈ expandedIds st))
              (nodesAtDepth d st) in
    setExpandedIds
      (foldl (fun newSet node =>
                if allExpanded then newSet ∖ {[f_id node]}
                else newSet ∪ {[f_id node]})
             (expandedIds st) (nodesAtDepth d st))
      st.

(** ** [BrowserView]: the depth buttons of the toolbar *)

(** [depthCounts]: a [Map<number, number>] from a depth to the number of
    rows at it. *)
Definition depthCounts (st : BrowserView) : gmap nat nat :=
  foldl (fun counts node =>
           <[f_depth node := default 0 (counts !! f_depth node) + 1]> counts)
        ∅ (flatNodes st).

(** [Math.max(0, ...Array.from(depthCounts.keys()))] *)
Definition maxDepth (st : BrowserView) : nat :=
  max_list (0 :: (map_to_list (depthCounts st)).*1).

(** What the toolbar shows for a depth: the depth, the number of expanded
    rows among the rows with children at it, their number, and whether the
    chevron points down. *)
Record DepthButton : Type := mkDepthButton {
  b_depth : nat;
  b_expandedCount : nat;
  b_total : nat;
  b_allExpanded : bool
}.

(** The buttons rendered by
    [Array.from({ length: maxDepth + 1 }, (_, depth) => ...)]; a depth
    without rows renders [null]. *)
Definition depthButtons (st : BrowserView) : list DepthButton :=
  omap (fun d =>
          let count := default 0 (depthCounts st !! d) in
          if decide (count = 0) then None
          else
            let rows := nodesAtDepth d st in
            let expandedCount :=
              length (filter (fun n => f_isExpanded n = true) rows) in
            Some (mkDepthButton d expandedCount (length rows)
                    (bool_decide (0 < length rows)
                     && bool_decide (expandedCount = length rows))))
       (seq 0 (maxDepth st + 1)).

(** ** [handleAddParentSibling]; [now] is the value of [Date.now()] *)

Definition handleAddParentSibling (now : N) (i : jstring) (st : BrowserView)
  : BrowserView :=
  match nodeMap st !! i with
  | None => st
  | Some targetNode =>
      match parent targetNode with
      | None => st
      | Some parentNode =>
          let newNode :=
            mkNode (freshId now) [] (p_depth parentNode) [] true
                   (p_parent parentNode) in
          let st1 :=
            match p_parent parentNode with
            | Some grandParent =>
                let updatedNodes :=
                  addAfter (p_id grandParent) (p_id parentNode) newNode
                    <$> nodes st in
                onUpdateNodes updatedNodes (addToHistory updatedNodes st)
            | None =>
                let parentIndex :=
                  findIndex (hasId (p_id parentNode)) (nodes st) in
                let newNodes :=
                  spliceIn (parentIndex + 1) newNode (nodes st) in
                onUpdateNodes newNodes (addToHistory newNodes st)
            end in
          setEditingId (Some (id newNode)) st1
      end
  end.

(** ** The invariants of the tree *)

(** The ids are distinct, the depths are consistent and the parent
    references designate the parents. *)
Definition wellFormed (nodes : list TreeNode) : Prop :=
  NoDup (allIds nodes) ∧ depthConsistent nodes ∧ parentsOk nodes.

(** The pattern of the closures [updateNode]: the node with the id is
    replaced by [f], the search does not go below it. *)
Fixpoint updateAt (i : jstring) (f : TreeNode → TreeNode) (node : TreeNode)
  : TreeNode :=
  if hasId i node then f node
  else withChildren node (updateAt i f <$> children node).

(** The id and the text of a node. *)
Definition idText (n : TreeNode) : jstring * jstring := (id n, text n).

(** The arrays of siblings of a forest: the array of the roots and the
    [children] array of every node. *)
Definition siblingArrays (nodes : list TreeNode) : list (list TreeNode) :=
  nodes :: (children <$> allNodes nodes).

(** The array [s1 ++ s2] with [moved] put right before, or right after,
    [target], which stands between [s1] and [s2]. *)
Definition placeBeside (pos : DropPosition) (s1 : list TreeNode)
    (moved target : TreeNode) (s2 : list TreeNode) : list TreeNode :=
  if bool_decide (pos = before) then s1 ++ moved :: target :: s2
  else s1 ++ target :: moved :: s2.

(** ** [BrowserView]: keyboard navigation

    The keys the listeners tell apart; [K_z] and [K_y] are the values ['z']
    and ['y'] of [e.key], [K_other] any other value. *)

Inductive Key : Type :=
  | K_ArrowUp | K_ArrowDown | K_ArrowLeft | K_ArrowRight
  | K_Space | K_Enter | K_Tab | K_F2 | K_Delete | K_Escape
  | K_z | K_y | K_other.

#[global] Instance Key_eq_dec : EqDecision Key.
Proof. solve_decision. Defined.

Record KeyboardEvent : Type := mkKeyboardEvent {
  e_key : Key;
  e_ctrlKey : bool;
  e_metaKey : bool;
  e_shiftKey : bool
}.

(** [flatNodes[focusedIndex]], [undefined] outside the array. *)
Definition currentRow (st : BrowserView) : option FlatNode :=
  if decide (0 ≤ focusedIndex st)%Z
  then flatNodes st !! Z.to_nat (focusedIndex st)
  else None.

Definition sameDepth (currentNode row : FlatNode) : bool :=
  bool_decide (f_depth row = f_depth currentNode).

(** The listener of [keydown]; [now] is the value of [Date.now()].  Scrolling
    the focused row into view acts on the page only. *)
Definition handleKeyDown (now : N) (e : KeyboardEvent) (st : BrowserView)
  : option BrowserView :=
  let ctrlOrMeta := e_ctrlKey e || e_metaKey e in
  if ctrlOrMeta && bool_decide (e_key e = K_z) && negb (e_shiftKey e)
  then handleUndo st
  else if ctrlOrMeta
          && (bool_decide (e_key e = K_y)
              || (bool_decide (e_key e = K_z) && e_shiftKey e))
  then handleRedo st
  else if negb (falsy (editingId st)) then Some st
  else
    match currentRow st with
    | None => Some st
    | Some currentNode =>
        let focused := Z.to_nat (focusedIndex st) in
        Some
          match e_key e with
          | K_ArrowUp =>
              if ctrlOrMeta then
                match scanUp (sameDepth currentNode) (flatNodes st) focused with
                | Some i => setFocusedIndex (Z.of_nat i) st
                | None => st
                end
              else setFocusedIndex (Z.max 0 (focusedIndex st - 1)) st
          | K_ArrowDown =>
              if ctrlOrMeta then
                match scanDown (sameDepth currentNode) (S focused)
                               (drop (S focused) (flatNodes st)) with
                | Some i => setFocusedIndex (Z.of_nat i) st
                | None => st
                end
              else
                setFocusedIndex
                  (Z.min (Z.of_nat (length (flatNodes st)) - 1)
                         (focusedIndex st + 1)) st
          | K_ArrowLeft =>
              if f_isExpanded currentNode && f_hasChildren currentNode
              then handleToggle (f_id currentNode) st
              else
                match nodeMap st !! f_id currentNode ≫= parent with
                | Some parentNode =>
                    let parentIndex :=
                      findIndex
                        (fun n => bool_decide (f_id n = p_id parentNode))
                        (flatNodes st) in
                    if decide (parentIndex ≠ (-1)%Z)
                    then setFocusedIndex parentIndex st
                    else st
                | None => st
                end
          | K_ArrowRight =>
              if f_hasChildren currentNode then
                if negb (f_isExpanded currentNode)
                then handleToggle (f_id currentNode) st
                else
                  let nextIndex := (focusedIndex st + 1)%Z in
                  if decide (nextIndex < Z.of_nat (length (flatNodes st)))%Z
                  then setFocusedIndex nextIndex st
                  else st
              else st
          | K_Space =>
              if f_hasChildren currentNode
              then handleToggle (f_id currentNode) st
              else st
          | K_Enter => handleAddSibling now (f_id currentNode) st
          | K_Tab =>
              if e_shiftKey e
              then handleAddParentSibling now (f_id currentNode) st
              else handleAddChild now (f_id currentNode) st
          | K_F2 => setEditingId (Some (f_id currentNode)) st
          | K_Delete => handleDelete (f_id currentNode) st
          | K_Escape | K_z | K_y | K_other => st
          end
    end.

(** The keys that move the focus or fold the tree. *)
Definition navigationKey (k : Key) : bool :=
  match k with
  | K_ArrowUp | K_ArrowDown | K_ArrowLeft | K_ArrowRight | K_Space => true
  | _ => false
  end.

(** ** [BrowserView]: the keys of the text area of the row being edited

    [rowId] is the id of the row, [value] the content of the text area.  The
    callback that Tab defers with [setTimeout] moves the focus and sets
    [editingId]; it is not part of the synchronous step. *)
Definition textareaKeyDown (now : N) (e : KeyboardEvent)
    (rowId value : jstring) (st : BrowserView) : BrowserView :=
  if bool_decide (e_key e = K_Enter) && negb (e_shiftKey e)
  then handleUpdateText rowId value st
  else if bool_decide (e_key e = K_Escape) then setEditingId None st
  else if bool_decide (e_key e = K_Tab) then
    if decide (trim value = []) then handleUpdateText rowId value st
    else
      let nodesWithUpdatedText := updateText rowId value <$> nodes st in
      let finalNodes := addChild now rowId <$> nodesWithUpdatedText in
      let st1 := onUpdateNodes finalNodes (addToHistory finalNodes st) in
      setExpandedIds (expandedIds st1 ∪ {[rowId]}) st1
  else st.

(** ** utils/localStorage.ts: [extractFileName] *)

(** ['新規ファイル'] *)
Definition defaultFileName : jstring :=
  [26032; 35215; 12501; 12449; 12452; 12523]%N.

(** The lines are those of [parseTextToTree]:
    [text.split('\n').filter((line) => line.trim() !== '')]. *)
Definition extractFileName (text : jstring) : jstring :=
  match retainedLines text with
  | [] => defaultFileName
  | line :: _ =>
      let firstLine := trim (stripLeadingTabs line) in
      if decide (firstLine = []) then defaultFileName else firstLine
  end.

(** ** components/FontSizeControl.tsx *)

Definition initialFontSize : Z := 16.

Definition handleIncrease (fontSize : Z) : Z :=
  if decide (fontSize < 24)%Z then (fontSize + 1)%Z else fontSize.

Definition handleDecrease (fontSize : Z) : Z :=
  if decide (fontSize > 8)%Z then (fontSize - 1)%Z else fontSize.

Inductive FontClick : Type := Increase | Decrease.

Definition fontClick (c : FontClick) (fontSize : Z) : Z :=
  match c with
  | Increase => handleIncrease fontSize
  | Decrease => handleDecrease fontSize
  end.

Definition fontClicks (cs : list FontClick) (fontSize : Z) : Z :=
  foldl (fun size c => fontClick c size) fontSize cs.

(** ** Example data for the keyboard *)

Definition plainKey (k : Key) : KeyboardEvent :=
  mkKeyboardEvent k false false false.

(** The example's view with the focus on the row of B. *)
Definition sampleViewAtB : BrowserView := setFocusedIndex 1 sampleView.

(** The rows of A and B in the example's view. *)
Definition rowA : FlatNode :=
  Eval vm_compute in rowOf (expandedIds sampleView) 0 nodeA.

Definition rowB : FlatNode :=
  Eval vm_compute in rowOf (expandedIds sampleView) 1 nodeB.

(** ** Example data: a tree with a collapsed node

    A with the child B, then C with the child D; A is collapsed, so B is
    hidden and the visible nodes are A, C and D. *)

Definition familiesText : jstring :=
  join_lines [str "A"; TAB :: str "B"; str "C"; TAB :: str "D"].

Definition foldedFamilies : list TreeNode :=
  Eval vm_compute in
    toggleInTree (id nodeA) (parseTextToTree (fun _ => 0%N) familiesText).

(** Its nodes B, hidden, and D, visible at the depth of B. *)
Definition hiddenB : TreeNode :=
  Eval vm_compute in default (leafNode "") (allNodes foldedFamilies !! 1).

Definition visibleD : TreeNode :=
  Eval vm_compute in default (leafNode "") (allNodes foldedFamilies !! 3).

(** * Proofs *)

(** ** Lists *)

Section Lists.

Context {A : Type} (P : A → Prop) `{!∀ x, Decision (P x)}.

Lemma filter_none (l : list A) : Forall (fun x => ¬ P x) l → filter P l = [].
Proof.
  induction 1 as [|x l Hx _ IH]; [done|].
  by rewrite filter_cons, decide_False.
Qed.

Lemma filter_all (l : list A) : Forall P l → filter P l = l.
Proof.
  induction 1 as [|x l Hx _ IH]; [done|].
  by rewrite filter_cons, decide_True, IH.
Qed.

Lemma filter_fmap_pre {B : Type} (f : B → A) (l : list B) :
  filter P (f <$> l) = f <$> filter (fun y => P (f y)) l.
Proof.
  induction l as [|y l IH]; [done|].
  rewrite fmap_cons, !filter_cons. destruct (decide (P (f y))); by rewrite IH.
Qed.

End Lists.

(** ** Strings *)

Section Strings.

Implicit Types (l s body : jstring) (ls : list jstring).

Lemma trimStart_strip l : trimStart (stripLeadingTabs l) = trimStart l.
Proof.
  induction l as [|c l IH]; [done|]. simpl.
  destruct (decide (c = TAB)) as [->|Hc]; [|done].
  by rewrite IH.
Qed.

Lemma trim_strip l : trim (stripLeadingTabs l) = trim l.
Proof. unfold trim. by rewrite trimStart_strip. Qed.

Lemma tabs_strip l : tabs (getIndentDepth l) ++ stripLeadingTabs l = l.
Proof.
  unfold tabs. induction l as [|c l IH]; [done|]. simpl.
  destruct (decide (c = TAB)) as [->|Hc]; [|done].
  simpl. by rewrite IH.
Qed.

Lemma normalLine_clean l : cleanLine l → normalLine l = l.
Proof. intros (_ & _ & Htrim). unfold normalLine. by rewrite Htrim, tabs_strip. Qed.

Lemma split_lines_nonempty s : split_lines s ≠ [].
Proof.
  destruct s as [|c s]; [done|]. simpl.
  destruct (decide (c = LF)); [done|]. by destruct (split_lines s).
Qed.

Lemma split_lines_noLF l : LF ∉ l → split_lines l = [l].
Proof.
  induction l as [|c l IH]; [done|].
  rewrite not_elem_of_cons. intros [Hc Hl]. cbn [split_lines].
  rewrite decide_False by done. by rewrite IH.
Qed.

Lemma split_lines_app l s :
  LF ∉ l → split_lines (l ++ LF :: s) = l :: split_lines s.
Proof.
  induction l as [|c l IH]; intros Hl; cbn [split_lines app].
  - by rewrite decide_True.
  - apply not_elem_of_cons in Hl as [Hc Hl].
    rewrite decide_False by done. by rewrite IH.
Qed.

Lemma split_lines_snoc s : split_lines (s ++ [LF]) = split_lines s ++ [[]].
Proof.
  induction s as [|c s IH]; [done|]. simpl.
  destruct (decide (c = LF)); rewrite IH; [done|].
  pose proof (split_lines_nonempty s). by destruct (split_lines s).
Qed.

Lemma split_join ls :
  ls ≠ [] → Forall (fun l => LF ∉ l) ls → split_lines (join_lines ls) = ls.
Proof.
  intros Hne Hall. induction Hall as [|l ls Hl Hls IH]; [done|].
  destruct ls as [|l2 ls].
  - simpl. by apply split_lines_noLF.
  - change (join_lines (l :: l2 :: ls)) with (l ++ LF :: join_lines (l2 :: ls)).
    rewrite split_lines_app by done. by rewrite IH.
Qed.

Lemma join_split s : join_lines (split_lines s) = s.
Proof.
  induction s as [|c s IH]; [done|]. cbn [split_lines].
  pose proof (split_lines_nonempty s) as Hne.
  destruct (split_lines s) as [|l ls]; [done|].
  destruct (decide (c = LF)) as [->|Hc].
  - by rewrite <- IH.
  - rewrite <- IH. by destruct ls.
Qed.

Lemma retainedLines_join ls :
  Forall cleanLine ls → retainedLines (join_lines ls) = ls.
Proof.
  intros Hall. unfold retainedLines.
  destruct (decide (ls = [])) as [->|Hne]; [done|].
  rewrite split_join; [|done|].
  - apply filter_all. eapply Forall_impl; [done|]. by intros l (_ & ? & _).
  - eapply Forall_impl; [done|]. by intros l (? & _).
Qed.

Lemma retainedLines_snoc s : retainedLines (s ++ [LF]) = retainedLines s.
Proof.
  unfold retainedLines. rewrite split_lines_snoc, filter_app.
  by rewrite app_nil_r.
Qed.

End Strings.

(** ** Forests *)

Section Forests.

Implicit Types (n node target : TreeNode) (l cs : list TreeNode) (i : jstring).

(** Induction over a tree with the hypothesis on every child. *)
Lemma TreeNode_forall_ind (P : TreeNode → Prop) :
  (∀ i t d cs e p, Forall P cs → P (mkNode i t d cs e p)) → ∀ n, P n.
Proof.
  intros step. fix IH 1. intros [i t d cs e p]. apply step.
  induction cs as [|c cs IHcs]; constructor; [apply IH | exact IHcs].
Qed.

(** Induction over a forest: the first tree's children and the remaining
    trees are smaller forests. *)
Lemma forest_ind (P : list TreeNode → Prop) :
  P [] → (∀ n l, P (children n) → P l → P (n :: l)) → ∀ l, P l.
Proof.
  intros Hnil Hcons.
  assert (∀ n, ∀ l, P l → P (n :: l)) as Hnode.
  { induction n as [a t d cs e p IH] using TreeNode_forall_ind.
    intros l Hl. apply Hcons; [|done]. simpl.
    induction IH as [|c cs Hc _ IHcs]; [done|]. by apply Hc. }
  induction l as [|n l IH]; [done|]. by apply Hnode.
Qed.

Lemma allNodes_cons n l :
  allNodes (n :: l) = n :: allNodes (children n) ++ allNodes l.
Proof. by destruct n. Qed.

Lemma allNodes_app l1 l2 : allNodes (l1 ++ l2) = allNodes l1 ++ allNodes l2.
Proof. unfold allNodes. apply flat_map_app. Qed.

Lemma allIds_cons n l :
  allIds (n :: l) = id n :: allIds (children n) ++ allIds l.
Proof. unfold allIds. by rewrite allNodes_cons, fmap_cons, fmap_app. Qed.

Lemma allIds_app l1 l2 : allIds (l1 ++ l2) = allIds l1 ++ allIds l2.
Proof. unfold allIds. by rewrite allNodes_app, fmap_app. Qed.

Lemma nodesOf_allNodes n : nodesOf n = n :: allNodes (children n).
Proof. by destruct n. Qed.

Lemma idsOf_allIds n : idsOf n = id n :: allIds (children n).
Proof. unfold idsOf. by rewrite nodesOf_allNodes. Qed.

Lemma allIds_cons_idsOf n l : allIds (n :: l) = idsOf n ++ allIds l.
Proof. by rewrite allIds_cons, idsOf_allIds. Qed.

Lemma allIds_singleton n : allIds [n] = idsOf n.
Proof. by rewrite allIds_cons, idsOf_allIds, app_nil_r. Qed.

Lemma hasId_true i n : hasId i n = true ↔ id n = i.
Proof. unfold hasId. apply bool_decide_eq_true. Qed.

Lemma hasId_false i n : hasId i n = false ↔ id n ≠ i.
Proof. unfold hasId. apply bool_decide_eq_false. Qed.

Lemma withChildren_same n : withChildren n (children n) = n.
Proof. by destruct n. Qed.

(** The closure [removeNode] is the recursive function it names. *)
Lemma removeNodeIn_eq i n :
  removeNodeIn i n = withChildren n (removeNode (children n) i).
Proof.
  destruct n as [a t d cs e p]. simpl. unfold withChildren. simpl. f_equal.
  unfold removeNode. induction cs as [|c cs IH]; [done|].
  rewrite filter_cons. unfold hasId at 1.
  destruct (decide (id c = i)) as [Heq|Hne].
  - rewrite bool_decide_eq_true_2 by done. rewrite decide_False by tauto. done.
  - rewrite bool_decide_eq_false_2 by done. rewrite decide_True by done.
    rewrite fmap_cons. by f_equal.
Qed.

Lemma removeNode_cons i n l :
  removeNode (n :: l) i =
    if decide (id n = i) then removeNode l i
    else withChildren n (removeNode (children n) i) :: removeNode l i.
Proof.
  unfold removeNode at 1. rewrite filter_cons.
  destruct (decide (id n = i)) as [Heq|Hne].
  - by rewrite decide_False by tauto.
  - rewrite decide_True by done. by rewrite fmap_cons, removeNodeIn_eq.
Qed.

Lemma removeNode_absent i l : i ∉ allIds l → removeNode l i = l.
Proof.
  induction l as [|n l IHc IHl] using forest_ind; [done|].
  rewrite allIds_cons, removeNode_cons. intros Hnot.
  rewrite not_elem_of_cons, not_elem_of_app in Hnot.
  destruct Hnot as (Hne & Hc & Hl).
  rewrite decide_False by done.
  by rewrite IHc, IHl, withChildren_same.
Qed.

Lemma updateText_eq i newText n :
  updateText i newText n =
    if hasId i n
    then mkNode (id n) newText (depth n) (children n) (isExpanded n) (parent n)
    else withChildren n (updateText i newText <$> children n).
Proof. by destruct n. Qed.

Lemma updateText_absent i newText l :
  i ∉ allIds l → updateText i newText <$> l = l.
Proof.
  induction l as [|n l IHc IHl] using forest_ind; [done|].
  rewrite allIds_cons, fmap_cons. intros Hnot.
  rewrite not_elem_of_cons, not_elem_of_app in Hnot.
  destruct Hnot as (Hne & Hc & Hl).
  rewrite updateText_eq. rewrite (proj2 (hasId_false i n)) by done.
  by rewrite IHc, IHl, withChildren_same.
Qed.

Lemma addChild_eq now i n :
  addChild now i n =
    if hasId i n
    then mkNode (id n) (text n) (depth n)
           (children n ++ [mkNode (freshId now) [] (depth n + 1) [] true
                                  (Some (refTo n))])
           true (parent n)
    else withChildren n (addChild now i <$> children n).
Proof. by destruct n. Qed.

Lemma addChild_absent now i l :
  i ∉ allIds l → addChild now i <$> l = l.
Proof.
  induction l as [|n l IHc IHl] using forest_ind; [done|].
  rewrite allIds_cons, fmap_cons. intros Hnot.
  rewrite not_elem_of_cons, not_elem_of_app in Hnot.
  destruct Hnot as (Hne & Hc & Hl).
  rewrite addChild_eq. rewrite (proj2 (hasId_false i n)) by done.
  by rewrite IHc, IHl, withChildren_same.
Qed.

(** [nodeMap.get(i)] is the last node with id [i] in pre-order. *)
Lemma build_lookup (m : gmap jstring TreeNode) l i :
  foldl build m l !! i =
    match last (filter (fun n => id n = i) (allNodes l)) with
    | Some n => Some n
    | None => m !! i
    end.
Proof.
  revert m. induction l as [|n l IHc IHl] using forest_ind; intros m; [done|].
  rewrite allNodes_cons. simpl foldl.
  replace (build m n) with (foldl build (<[id n := n]> m) (children n))
    by by destruct n.
  rewrite IHl, filter_cons, filter_app.
  destruct (last (filter _ (allNodes l))) as [x|] eqn:Hl.
  - destruct (decide (id n = i)); rewrite ?app_comm_cons, last_app, Hl; done.
  - rewrite IHc.
    destruct (decide (id n = i)) as [Heq|Hne].
    + rewrite app_comm_cons, last_app, Hl, last_cons.
      destruct (last (filter _ (allNodes (children n)))); [done|].
      by rewrite Heq, lookup_insert_eq.
    + rewrite last_app, Hl.
      destruct (last (filter _ (allNodes (children n)))); [done|].
      by rewrite lookup_insert_ne.
Qed.

Lemma nodeMapOf_lookup l i :
  nodeMapOf l !! i = last (filter (fun n => id n = i) (allNodes l)).
Proof.
  unfold nodeMapOf. rewrite build_lookup, lookup_empty.
  by destruct (last _).
Qed.

Lemma nodeMapOf_absent l i : i ∉ allIds l → nodeMapOf l !! i = None.
Proof.
  intros Hnot. rewrite nodeMapOf_lookup.
  replace (filter _ (allNodes l)) with (@nil TreeNode); [done|].
  symmetry. apply filter_none, Forall_forall. intros n Hn Heq.
  apply Hnot. unfold allIds. rewrite <- Heq. by apply list_elem_of_fmap_2.
Qed.

Lemma nodeMapOf_elem l i : i ∈ allIds l → is_Some (nodeMapOf l !! i).
Proof.
  intros (n & -> & Hn)%list_elem_of_fmap_1. rewrite nodeMapOf_lookup.
  assert (n ∈ filter (fun x => id x = id n) (allNodes l)) as Hin
    by by apply list_elem_of_filter.
  destruct (filter _ (allNodes l)) as [|x xs] using rev_ind;
    [by apply elem_of_nil in Hin|].
  rewrite last_snoc. by eexists.
Qed.

Lemma filter_id_NoDup l n :
  NoDup (id <$> l) → n ∈ l → filter (fun x => id x = id n) l = [n].
Proof.
  induction l as [|x l IH]; intros Hnd Hin; [by apply elem_of_nil in Hin|].
  rewrite fmap_cons in Hnd. apply NoDup_cons in Hnd as [Hx Hnd].
  rewrite filter_cons. apply elem_of_cons in Hin as [->|Hin].
  - rewrite decide_True by done. f_equal.
    apply filter_none, Forall_forall. intros y Hy Heq.
    apply Hx. rewrite <- Heq. by apply list_elem_of_fmap_2.
  - rewrite decide_False; [by apply IH|].
    intros Heq. apply Hx. rewrite Heq. by apply list_elem_of_fmap_2.
Qed.

Lemma nodeMapOf_present l n :
  NoDup (allIds l) → n ∈ allNodes l → nodeMapOf l !! id n = Some n.
Proof.
  intros Hnd Hin. by rewrite nodeMapOf_lookup, filter_id_NoDup.
Qed.

Lemma allNodes_subtree l target x :
  target ∈ allNodes l → x ∈ nodesOf target → x ∈ allNodes l.
Proof.
  induction l as [|n l IHc IHl] using forest_ind;
    [by intros ?%elem_of_nil|].
  rewrite !allNodes_cons, !elem_of_cons, !elem_of_app.
  intros [->|[Hin|Hin]] Hx.
  - rewrite nodesOf_allNodes, elem_of_cons in Hx. tauto.
  - right; left. by apply IHc.
  - right; right. by apply IHl.
Qed.

Lemma allIds_subtree l target i :
  target ∈ allNodes l → i ∈ idsOf target → i ∈ allIds l.
Proof.
  intros Hin (x & -> & Hx)%list_elem_of_fmap_1.
  apply list_elem_of_fmap_2. by eapply allNodes_subtree.
Qed.

Lemma elem_allIds l n : n ∈ allNodes l → id n ∈ allIds l.
Proof. apply list_elem_of_fmap_2. Qed.

Lemma id_in_idsOf n : id n ∈ idsOf n.
Proof. rewrite idsOf_allIds. apply elem_of_cons. by left. Qed.

Lemma NoDup_allIds_cons n l :
  NoDup (allIds (n :: l)) →
  (id n ∉ allIds (children n)) ∧ (id n ∉ allIds l)
  ∧ NoDup (allIds (children n)) ∧ NoDup (allIds l)
  ∧ (∀ i, i ∈ allIds (children n) → i ∉ allIds l).
Proof.
  rewrite allIds_cons, NoDup_cons, NoDup_app, not_elem_of_app. tauto.
Qed.

Lemma entry_withChildren n cs : entry (withChildren n cs) = entry n.
Proof. done. Qed.

(** Deleting by id removes the subtree of the node with that id and keeps
    every other node, in order. *)
Lemma removeNode_entries l target :
  NoDup (allIds l) → target ∈ allNodes l →
  entry <$> allNodes (removeNode l (id target)) =
  entry <$> filter (fun n => id n ∉ idsOf target) (allNodes l).
Proof.
  induction l as [|n l IHc IHl] using forest_ind;
    [by intros _ ?%elem_of_nil|].
  intros Hnd Hin.
  destruct (NoDup_allIds_cons _ _ Hnd) as (Hnc & Hnl & Hndc & Hndl & Hdisj).
  rewrite allNodes_cons, removeNode_cons, filter_cons, filter_app.
  rewrite allNodes_cons, elem_of_cons, elem_of_app in Hin.
  destruct Hin as [->|[Hin|Hin]].
  - rewrite decide_True by done.
    rewrite decide_False by (intros Hn; apply Hn, id_in_idsOf).
    rewrite removeNode_absent by done.
    rewrite (filter_none _ (allNodes (children n))), (filter_all _ (allNodes l));
      [done| |].
    + apply Forall_forall. intros x Hx Hi. rewrite idsOf_allIds in Hi.
      apply elem_of_cons in Hi as [Hi|Hi].
      * apply Hnl. rewrite <- Hi. by apply elem_allIds.
      * eapply Hdisj; [done|]. by apply elem_allIds.
    + apply Forall_forall. intros x Hx Hn. apply Hn.
      rewrite idsOf_allIds. apply elem_of_cons. right. by apply elem_allIds.
  - assert (∀ i, i ∈ idsOf target → i ∈ allIds (children n)) as Hsub.
    { intros i. by apply allIds_subtree. }
    assert (id n ≠ id target) as Hne.
    { intros Heq. apply Hnc. rewrite Heq. apply Hsub, id_in_idsOf. }
    rewrite decide_False by done.
    rewrite decide_True by (intros Hi; by apply Hnc, Hsub).
    rewrite allNodes_cons. simpl (children (withChildren _ _)).
    rewrite !fmap_cons, !fmap_app, IHc by done.
    rewrite (removeNode_absent _ l)
      by (intros Hi; eapply Hdisj; [apply Hsub, id_in_idsOf|done]).
    rewrite (filter_all _ (allNodes l)); [done|].
    apply Forall_forall. intros x Hx Hi. eapply Hdisj; [by apply Hsub|].
    by apply elem_allIds.
  - assert (∀ i, i ∈ idsOf target → i ∈ allIds l) as Hsub.
    { intros i. by apply allIds_subtree. }
    assert (id n ≠ id target) as Hne.
    { intros Heq. apply Hnl. rewrite Heq. apply Hsub, id_in_idsOf. }
    rewrite decide_False by done.
    rewrite decide_True by (intros Hi; by apply Hnl, Hsub).
    rewrite allNodes_cons. simpl (children (withChildren _ _)).
    rewrite !fmap_cons, !fmap_app, IHl by done.
    rewrite (removeNode_absent _ (children n))
      by (intros Hi; eapply Hdisj; [done|apply Hsub, id_in_idsOf]).
    rewrite (filter_all _ (allNodes (children n))); [done|].
    apply Forall_forall. intros x Hx Hi. eapply Hdisj; [|by apply Hsub].
    by apply elem_allIds.
Qed.

Lemma skeleton_eq n :
  skeleton n = mkNode (id n) [] (depth n) (skeleton <$> children n)
                      (isExpanded n) (parent n).
Proof. by destruct n. Qed.

Lemma updateText_skeleton i newText l :
  skeleton <$> (updateText i newText <$> l) = skeleton <$> l.
Proof.
  induction l as [|n l IHc IHl] using forest_ind; [done|].
  rewrite !fmap_cons, IHl. f_equal.
  rewrite updateText_eq. destruct (hasId i n); [by destruct n|].
  rewrite (skeleton_eq (withChildren _ _)), (skeleton_eq n). simpl.
  by rewrite IHc.
Qed.

Lemma updateText_texts i newText l :
  NoDup (allIds l) →
  text <$> allNodes (updateText i newText <$> l) =
  (fun n => if decide (id n = i) then newText else text n) <$> allNodes l.
Proof.
  induction l as [|n l IHc IHl] using forest_ind; [done|].
  intros Hnd.
  destruct (NoDup_allIds_cons _ _ Hnd) as (Hnc & Hnl & Hndc & Hndl & Hdisj).
  rewrite fmap_cons, !allNodes_cons, !fmap_cons, !fmap_app, IHl by done.
  rewrite updateText_eq. unfold hasId.
  destruct (decide (id n = i)) as [Heq|Hne].
  - rewrite bool_decide_eq_true_2 by done. simpl. f_equal. f_equal.
    apply list_fmap_ext. intros k x Hx. rewrite decide_False; [done|].
    intros Hi. apply Hnc. rewrite Heq, <- Hi.
    apply elem_allIds. by eapply list_elem_of_lookup_2.
  - rewrite bool_decide_eq_false_2 by done. simpl. by rewrite IHc.
Qed.

End Forests.

(** ** History *)

Section History.

Implicit Types (st : BrowserView) (t : list TreeNode).

Lemma mount_historyOk t : historyOk (mount t).
Proof. repeat split; simpl; lia. Qed.

Lemma push_history t st :
  historyIndex st < length (history st) → length (history st) ≤ 50 →
  let all := take (historyIndex st + 1) (history st) ++ [t] in
  history (push t st) = drop (length all - 50) all
  ∧ historyIndex (push t st) = length (history (push t st)) - 1
  ∧ nodes (push t st) = t.
Proof.
  intros Hi Hn all. unfold push, addToHistory. fold all.
  assert (length all = historyIndex st + 2) as Hall.
  { unfold all. rewrite length_app, length_take. simpl. lia. }
  destruct (decide (50 < length all)) as [Hov|Hov]; simpl.
  - assert (length all - 50 = 1) as -> by lia.
    repeat split. rewrite length_drop. lia.
  - assert (length all - 50 = 0) as -> by lia. by rewrite drop_0.
Qed.

Lemma push_historyOk t st : historyOk st → historyOk (push t st).
Proof.
  intros (Hi & Hn & _).
  destruct (push_history t st Hi Hn) as (Hh & Hx & Ht).
  set (all := take (historyIndex st + 1) (history st) ++ [t]) in *.
  assert (length all = historyIndex st + 2) as Hall.
  { unfold all. rewrite length_app, length_take. simpl. lia. }
  assert (length (history (push t st)) = length all - (length all - 50)) as Hlen.
  { by rewrite Hh, length_drop. }
  repeat split; try lia.
  rewrite Ht, Hx, Hlen, Hh, lookup_drop.
  replace (length all - 50 + _) with (length (take (historyIndex st + 1) (history st)) + 0)
    by (rewrite length_take; lia).
  unfold all. by rewrite lookup_app_r, Nat.add_comm, Nat.add_sub by lia.
Qed.

Lemma undo_historyOk st :
  historyOk st →
  ∃ st', handleUndo st = Some st' ∧ historyOk st'
         ∧ history st' = history st
         ∧ historyIndex st' = historyIndex st - 1.
Proof.
  intros (Hi & Hn & Hcur). unfold handleUndo, restoreSnapshot.
  destruct (decide (0 < historyIndex st)) as [Hpos|Hz].
  - destruct (lookup_lt_is_Some_2 (history st) (historyIndex st - 1)) as [s Hs];
      [lia|].
    rewrite Hs. simpl. eexists. split; [done|].
    repeat split; simpl; try done; lia.
  - exists st. repeat split; try done; lia.
Qed.

Lemma redo_historyOk st :
  historyOk st →
  ∃ st', handleRedo st = Some st' ∧ historyOk st'
         ∧ history st' = history st
         ∧ historyIndex st' =
             if decide (historyIndex st + 1 < length (history st))
             then historyIndex st + 1 else historyIndex st.
Proof.
  intros (Hi & Hn & Hcur). unfold handleRedo, restoreSnapshot.
  destruct (decide (_ < _)%Z) as [Hlt|Hge].
  - destruct (lookup_lt_is_Some_2 (history st) (historyIndex st + 1)) as [s Hs];
      [lia|].
    rewrite Hs. simpl. eexists. split; [done|].
    rewrite decide_True by lia.
    repeat split; simpl; try done; lia.
  - exists st. rewrite decide_False by lia. repeat split; try done; lia.
Qed.

Lemma historyStep_historyOk op st :
  historyOk st → ∃ st', historyStep op st = Some st' ∧ historyOk st'.
Proof.
  intros Hok. destruct op as [t| |]; simpl.
  - eauto using push_historyOk.
  - destruct (undo_historyOk st Hok) as (st' & ? & ? & _). eauto.
  - destruct (redo_historyOk st Hok) as (st' & ? & ? & _). eauto.
Qed.

Lemma runHistory_historyOk ops st :
  historyOk st → ∃ st', runHistory ops st = Some st' ∧ historyOk st'.
Proof.
  revert st. induction ops as [|op ops IH]; intros st Hok; simpl.
  - eauto.
  - destruct (historyStep_historyOk op st Hok) as (st1 & -> & Hok1). simpl.
    by apply IH.
Qed.

Lemma undoTimes_historyOk k st :
  historyOk st →
  ∃ st', undoTimes k st = Some st' ∧ historyOk st'
         ∧ history st' = history st
         ∧ historyIndex st' = historyIndex st - k.
Proof.
  revert st. induction k as [|k IH]; intros st Hok; simpl.
  - exists st. split; [done|]. split; [done|]. split; [done|lia].
  - destruct (undo_historyOk st Hok) as (st1 & -> & Hok1 & Hh1 & Hi1). simpl.
    destruct (IH st1 Hok1) as (st2 & -> & Hok2 & Hh2 & Hi2).
    exists st2. split; [done|]. split; [done|]. split; [congruence|lia].
Qed.

Lemma pushAll_history ps st :
  historyOk st → historyIndex st = length (history st) - 1 →
  historyOk (pushAll ps st)
  ∧ historyIndex (pushAll ps st) = length (history (pushAll ps st)) - 1
  ∧ history (pushAll ps st) =
      drop (length (history st) + length ps - 50) (history st ++ ps).
Proof.
  revert st. induction ps as [|t ps IH]; intros st Hok Hend; simpl.
  - split; [done|]. split; [done|]. destruct Hok as (Hi & Hn & Hcur).
    rewrite app_nil_r.
    replace (length (history st) + 0 - 50) with 0 by lia. by rewrite drop_0.
  - pose proof (push_historyOk t st Hok) as Hok1.
    destruct Hok as (Hi & Hn & Hcur).
    destruct (push_history t st Hi Hn) as (Hh & Hx & _).
    destruct (IH (push t st) Hok1 Hx) as (Hok2 & Hx2 & Hh2).
    split; [done|]. split; [done|].
    rewrite Hh2, Hh.
    replace (historyIndex st + 1) with (length (history st)) by lia.
    rewrite firstn_all, length_drop, length_app. simpl.
    set (k := length (history st) + 1 - 50).
    rewrite <- (drop_app_le _ ps) by (rewrite length_app; simpl; lia).
    rewrite drop_drop, <- (assoc_L (++)). simpl.
    f_equal. lia.
Qed.

End History.

(** C10.  Starting from the history the component is mounted with, every
    sequence of push, undo and redo runs through, keeps the history non-empty
    and keeps the cursor between 0 and [length - 1]; undo at cursor 0 and
    redo at the last entry change nothing at all. *)
Theorem history_cursor_in_bounds (t : list TreeNode) (ops : list HistoryOp) :
  ∃ st, runHistory ops (mount t) = Some st
        ∧ history st ≠ []
        ∧ (0 ≤ Z.of_nat (historyIndex st)
             ≤ Z.of_nat (length (history st)) - 1)%Z
        ∧ (historyIndex st = 0 → handleUndo st = Some st)
        ∧ (historyIndex st = length (history st) - 1 → handleRedo st = Some st).
Proof.
  destruct (runHistory_historyOk ops (mount t) (mount_historyOk t))
    as (st & Hrun & Hi & Hn & Hcur).
  exists st. split; [done|]. split; [|split; [lia|split]].
  - intros Hnil. rewrite Hnil in Hi. simpl in Hi. lia.
  - intros Hz. unfold handleUndo. rewrite decide_False by lia. done.
  - intros Hlast. unfold handleRedo. rewrite decide_False by lia. done.
Qed.

Lemma history_cursor_in_bounds_witness :
  ∃ st, runHistory [Push [leafNode "b"]; Undo; Undo; Redo; Redo]
                   (mount [leafNode "a"]) = Some st
        ∧ history st ≠ []
        ∧ (0 ≤ Z.of_nat (historyIndex st)
             ≤ Z.of_nat (length (history st)) - 1)%Z
        ∧ (historyIndex st = 0 → handleUndo st = Some st)
        ∧ (historyIndex st = length (history st) - 1 → handleRedo st = Some st).
Proof. apply history_cursor_in_bounds. Defined.

(** C7.  In a state whose cursor is positive and points at the snapshot of
    the tree on display (as it does in every state reached from the mounted
    one by edits, undos and redos, see [runHistory_historyOk]), undo followed
    by redo gives back the very same state: the same tree, node for node and
    field for field, and the same cursor. *)
Theorem undo_then_redo (st : BrowserView) :
  history st !! historyIndex st = Some (nodes st) → 0 < historyIndex st →
  handleUndo st ≫= handleRedo = Some st.
Proof.
  intros Hcur Hpos. unfold handleUndo, restoreSnapshot.
  pose proof (lookup_lt_Some _ _ _ Hcur) as Hi.
  rewrite decide_True by done.
  destruct (lookup_lt_is_Some_2 (history st) (historyIndex st - 1)) as [s Hs];
    [lia|].
  rewrite Hs. simpl. unfold handleRedo, restoreSnapshot. simpl.
  rewrite decide_True by lia.
  replace (historyIndex st - 1 + 1) with (historyIndex st) by lia.
  rewrite Hcur. simpl. by destruct st.
Qed.

Lemma undo_then_redo_witness :
  0 < historyIndex (push [leafNode "b"] (mount [leafNode "a"]))
  ∧ handleUndo (push [leafNode "b"] (mount [leafNode "a"])) ≫= handleRedo
    = Some (push [leafNode "b"] (mount [leafNode "a"])).
Proof.
  assert (0 < historyIndex (push [leafNode "b"] (mount [leafNode "a"]))) as Hpos.
  { vm_compute. lia. }
  split; [exact Hpos|].
  apply undo_then_redo; [reflexivity|exact Hpos].
Defined.

(** C6.  The history never holds more than 50 snapshots; a push that would
    exceed the capacity drops the oldest entry and leaves the cursor on the
    newest one, so the last 50 states are kept; after 51 pushes, undoing as
    often as one likes ends on the second state pushed, the first one (and
    the initial tree) being gone. *)
Theorem history_capacity :
  (∀ t0 ops st, runHistory ops (mount t0) = Some st → length (history st) ≤ 50)
  ∧ (∀ st t, historyOk st →
       50 < length (take (historyIndex st + 1) (history st) ++ [t]) →
       history (push t st) = drop 1 (history st) ++ [t]
       ∧ historyIndex (push t st) = 49
       ∧ length (history (push t st)) = 50)
  ∧ (∀ t0 ps k, length ps = 51 → 49 ≤ k →
       ∃ st, undoTimes k (pushAll ps (mount t0)) = Some st
             ∧ historyIndex st = 0
             ∧ length (history st) = 50
             ∧ history st !! 0 = ps !! 1
             ∧ ps !! 1 = Some (nodes st)).
Proof.
  split; [|split].
  - intros t0 ops st Hrun.
    destruct (runHistory_historyOk ops (mount t0) (mount_historyOk t0))
      as (st' & Hrun' & _ & Hn & _).
    congruence.
  - intros st t (Hi & Hn & Hcur) Hov.
    rewrite length_app, length_take in Hov. simpl in Hov.
    assert (historyIndex st = 49) as H49 by lia.
    assert (length (history st) = 50) as H50 by lia.
    unfold push, addToHistory. rewrite decide_True
      by (rewrite length_app, length_take; simpl; lia).
    simpl. rewrite H49.
    replace (49 + 1) with (length (history st)) by lia.
    rewrite firstn_all, drop_app_le by lia.
    rewrite length_app, length_drop. simpl. repeat split; lia.
  - intros t0 ps k Hps Hk.
    destruct (pushAll_history ps (mount t0) (mount_historyOk t0) eq_refl)
      as (Hok & Hx & Hh).
    simpl in Hh. rewrite Hps in Hh. simpl in Hh.
    destruct (undoTimes_historyOk k _ Hok) as (st & Hun & Hok' & Hh' & Hi').
    assert (length (history (pushAll ps (mount t0))) = 50) as Hlen.
    { rewrite Hh. destruct ps as [|p ps]; [done|]. simpl.
      rewrite length_drop. simpl in Hps. lia. }
    exists st. split; [done|].
    assert (historyIndex st = 0) as Hz by lia.
    assert (history st !! 0 = ps !! 1) as H0.
    { rewrite Hh', Hh. destruct ps as [|p ps]; [done|]. simpl.
      by rewrite lookup_drop. }
    repeat split; [done|congruence|done|].
    destruct Hok' as (_ & _ & Hcur). rewrite Hz in Hcur. congruence.
Qed.

Lemma history_capacity_witness :
  length fiftyOnePushes = 51 ∧ 49 ≤ 60
  ∧ ∃ st, undoTimes 60 (pushAll fiftyOnePushes (mount [])) = Some st
          ∧ historyIndex st = 0
          ∧ length (history st) = 50
          ∧ history st !! 0 = fiftyOnePushes !! 1
          ∧ fiftyOnePushes !! 1 = Some (nodes st).
Proof.
  split; [reflexivity|]. split; [lia|].
  apply (proj2 (proj2 history_capacity) [] fiftyOnePushes 60); [reflexivity|lia].
Defined.

(** ** Mutators *)

(** C5, as stated, fails: deleting, adding a child to, or setting the text
    of an id that is not in the tree leaves the tree as it is but appends a
    snapshot to the undo history. *)
Lemma absent_id_pushes_snapshot :
  (ghost ∉ allIds (nodes oneLeaf))
  ∧ history oneLeaf = [[leafNode "a"]]
  ∧ history (handleDelete ghost oneLeaf) = [[leafNode "a"]; [leafNode "a"]]
  ∧ history (handleAddChild 7 ghost oneLeaf) = [[leafNode "a"]; [leafNode "a"]]
  ∧ history (handleUpdateText ghost (str "x") oneLeaf)
    = [[leafNode "a"]; [leafNode "a"]]
  ∧ history (handleDelete ghost oneLeaf) ≠ history oneLeaf.
Proof.
  split; [apply (bool_decide_unpack _); by vm_compute|].
  repeat (split; [by vm_compute|]). by vm_compute.
Qed.

(** C5, amended.  With an id that is not in the tree, every one of the four
    mutators leaves the tree exactly as it is.  Insert-sibling changes
    nothing at all, so no snapshot is pushed; delete, insert-child and
    set-text push one snapshot, a copy of the unchanged tree. *)
Theorem absent_id_keeps_tree (st : BrowserView) (i newText : jstring) (now : N) :
  i ∉ allIds (nodes st) →
  handleAddSibling now i st = st
  ∧ (nodes (handleAddChild now i st) = nodes st
     ∧ history (handleAddChild now i st) = history (push (nodes st) st)
     ∧ historyIndex (handleAddChild now i st) = historyIndex (push (nodes st) st))
  ∧ (nodes (handleDelete i st) = nodes st
     ∧ history (handleDelete i st) = history (push (nodes st) st)
     ∧ historyIndex (handleDelete i st) = historyIndex (push (nodes st) st))
  ∧ (nodes (handleUpdateText i newText st) = nodes st
     ∧ history (handleUpdateText i newText st) = history (push (nodes st) st)
     ∧ historyIndex (handleUpdateText i newText st)
       = historyIndex (push (nodes st) st)).
Proof.
  intros Hnot. split; [|split; [|split]].
  - unfold handleAddSibling, nodeMap. by rewrite nodeMapOf_absent.
  - unfold handleAddChild. by rewrite addChild_absent.
  - unfold handleDelete. by rewrite removeNode_absent.
  - unfold handleUpdateText.
    destruct (decide (trim newText = [])).
    + by rewrite removeNode_absent.
    + by rewrite updateText_absent.
Qed.

Lemma absent_id_keeps_tree_witness :
  handleAddSibling 7 ghost oneLeaf = oneLeaf
  ∧ nodes (handleDelete ghost oneLeaf) = nodes oneLeaf.
Proof.
  assert (ghost ∉ allIds (nodes oneLeaf)) as Hnot.
  { apply (bool_decide_unpack _). by vm_compute. }
  destruct (absent_id_keeps_tree oneLeaf ghost (str "x") 7 Hnot)
    as (Hsib & _ & (Hdel & _) & _).
  exact (conj Hsib Hdel).
Defined.

(** C8.  In a tree whose ids are distinct, for an id that is in the tree:
    a text that is empty once trimmed deletes the node with its subtree and
    keeps every other node (id, text, depth) in order; any other text is
    stored, untrimmed, in that node, every other text stays, and nothing
    but texts changes (ids, depths, flags, nesting and order). *)
Theorem setText_deletes_or_replaces (st : BrowserView) (i newText : jstring) :
  NoDup (allIds (nodes st)) → i ∈ allIds (nodes st) →
  (trim newText = [] →
     ∃ target, target ∈ allNodes (nodes st) ∧ id target = i
       ∧ entry <$> allNodes (nodes (handleUpdateText i newText st))
         = entry <$> filter (fun n => id n ∉ idsOf target) (allNodes (nodes st)))
  ∧ (trim newText ≠ [] →
     skeleton <$> nodes (handleUpdateText i newText st) = skeleton <$> nodes st
     ∧ text <$> allNodes (nodes (handleUpdateText i newText st))
       = (fun n => if decide (id n = i) then newText else text n)
           <$> allNodes (nodes st)).
Proof.
  intros Hnd Hin. unfold handleUpdateText. split; intros Htrim.
  - rewrite decide_True by done. simpl.
    apply list_elem_of_fmap_1 in Hin as (target & -> & Hin).
    exists target. split; [done|]. split; [done|].
    by apply removeNode_entries.
  - rewrite decide_False by done. simpl.
    split; [apply updateText_skeleton|by apply updateText_texts].
Qed.

Lemma sampleView_NoDup : NoDup (allIds (nodes sampleView)).
Proof. apply (bool_decide_unpack _). vm_compute. exact I. Qed.

Lemma setText_deletes_or_replaces_witness :
  (trim (str " ") = [] →
     ∃ target, target ∈ allNodes (nodes sampleView) ∧ id target = id nodeA
       ∧ entry <$> allNodes (nodes (handleUpdateText (id nodeA) (str " ") sampleView))
         = entry <$> filter (fun n => id n ∉ idsOf target)
                            (allNodes (nodes sampleView)))
  ∧ (trim (str "B5") ≠ [] →
     skeleton <$> nodes (handleUpdateText (id nodeB) (str "B5") sampleView)
       = skeleton <$> nodes sampleView
     ∧ text <$> allNodes (nodes (handleUpdateText (id nodeB) (str "B5") sampleView))
       = (fun n => if decide (id n = id nodeB) then str "B5" else text n)
           <$> allNodes (nodes sampleView)).
Proof.
  split.
  - apply (setText_deletes_or_replaces sampleView (id nodeA) (str " "));
      [apply sampleView_NoDup|].
    apply (bool_decide_unpack _). vm_compute. exact I.
  - apply (setText_deletes_or_replaces sampleView (id nodeB) (str "B5"));
      [apply sampleView_NoDup|].
    apply (bool_decide_unpack _). vm_compute. exact I.
Defined.

(** The example of the specification: a child added to [A] and named [B5]
    is serialized after [C]. *)
Example insert_child_then_name_it :
  serializeTreeToText
    (nodes (handleUpdateText (freshId 7) (str "B5")
              (handleAddChild 7 (id nodeA) sampleView)))
  = join_lines [str "A"; TAB :: str "B"; TAB :: str "C"; TAB :: str "B5"; str "D"].
Proof. by vm_compute. Qed.

(** ** Flattening *)

Section Flatten.

Implicit Types (n target : TreeNode) (l : list TreeNode) (E : gset jstring)
  (x i : jstring).

Lemma visibleAll_cons E n l :
  visibleAll E (n :: l) =
    n :: (if bool_decide (id n ∈ E) then visibleAll E (children n) else [])
      ++ visibleAll E l.
Proof. by destruct n. Qed.

Lemma traverse_eq E acc n :
  traverse E acc n =
    let acc' := (acc.1 ++ [rowOf E acc.2 n], S acc.2) in
    if bool_decide (id n ∈ E) then foldl (traverse E) acc' (children n) else acc'.
Proof. by destruct n. Qed.

(** [flatNodes] is the specification's walk, each row carrying its index. *)
Lemma traverse_visible E l (rows : list FlatNode) (k : nat) :
  foldl (traverse E) (rows, k) l =
    (rows ++ imap (fun j n => rowOf E (k + j) n) (visibleAll E l),
     k + length (visibleAll E l)).
Proof.
  revert rows k. induction l as [|n l IHc IHl] using forest_ind; intros rows k.
  - simpl. by rewrite app_nil_r, Nat.add_0_r.
  - simpl foldl. rewrite traverse_eq, visibleAll_cons. simpl.
    destruct (bool_decide (id n ∈ E)).
    + rewrite IHc, IHl. rewrite imap_app, !length_app, Nat.add_0_r.
      rewrite <- !(assoc_L (++)). simpl. f_equal; [|lia].
      f_equal. f_equal. f_equal.
      * apply imap_ext. intros j y _. simpl. f_equal. lia.
      * apply imap_ext. intros j y _. simpl. f_equal. lia.
    + rewrite IHl. simpl. rewrite Nat.add_0_r, <- (assoc_L (++)). simpl.
      f_equal; [|lia]. f_equal. f_equal.
      apply imap_ext. intros j y _. simpl. f_equal. lia.
Qed.

Lemma flatNodesOf_visible E l :
  flatNodesOf E l = imap (rowOf E) (visibleAll E l).
Proof. unfold flatNodesOf. by rewrite traverse_visible. Qed.

Lemma flatNodesOf_ids E l : f_id <$> flatNodesOf E l = id <$> visibleAll E l.
Proof.
  rewrite flatNodesOf_visible, fmap_imap, <- imap_const.
  by apply imap_ext.
Qed.

Lemma visibleAll_sub E l n : n ∈ visibleAll E l → n ∈ allNodes l.
Proof.
  induction l as [|m l IHc IHl] using forest_ind; [done|].
  rewrite visibleAll_cons, allNodes_cons, !elem_of_cons, !elem_of_app.
  destruct (bool_decide (id m ∈ E)).
  - intros [?|[?|?]]; auto.
  - intros [?|[?%elem_of_nil|?]]; auto; done.
Qed.

(** Collapsing an id that does not occur changes nothing. *)
Lemma visibleAll_collapse_absent E l x :
  x ∉ allIds l → visibleAll (E ∖ {[x]}) l = visibleAll E l.
Proof.
  induction l as [|n l IHc IHl] using forest_ind; [done|].
  rewrite allIds_cons, not_elem_of_cons, not_elem_of_app.
  intros (Hne & Hc & Hl). rewrite !visibleAll_cons, IHl by done.
  assert (bool_decide (id n ∈ E ∖ {[x]}) = bool_decide (id n ∈ E)) as ->.
  { apply bool_decide_ext. set_solver. }
  by rewrite IHc.
Qed.

Lemma visibleAll_collapse E l target :
  NoDup (allIds l) → target ∈ allNodes l →
  visibleAll (E ∖ {[id target]}) l =
  filter (fun n => id n ∉ allIds (children target)) (visibleAll E l).
Proof.
  induction l as [|n l IHc IHl] using forest_ind;
    [by intros _ ?%elem_of_nil|].
  intros Hnd Hin.
  destruct (NoDup_allIds_cons _ _ Hnd) as (Hnc & Hnl & Hndc & Hndl & Hdisj).
  rewrite !visibleAll_cons, filter_cons, filter_app.
  rewrite allNodes_cons, elem_of_cons, elem_of_app in Hin.
  destruct Hin as [->|[Hin|Hin]].
  - rewrite decide_True by done.
    rewrite (bool_decide_eq_false_2 (id n ∈ E ∖ {[id n]})) by set_solver.
    rewrite visibleAll_collapse_absent by done. simpl. f_equal.
    rewrite (filter_all _ (visibleAll E l)).
    + destruct (bool_decide (id n ∈ E)); [|done].
      rewrite filter_none; [done|].
      apply Forall_forall. intros y Hy Hi.
      by apply Hi, elem_allIds, (visibleAll_sub E).
    + apply Forall_forall. intros y Hy Hi.
      eapply Hdisj; [done|]. by apply elem_allIds, (visibleAll_sub E).
  - assert (∀ i, i ∈ idsOf target → i ∈ allIds (children n)) as Hsub.
    { intros i. by apply allIds_subtree. }
    assert (∀ i, i ∈ allIds (children target) → i ∈ allIds (children n)) as Hsub'.
    { intros i Hi. apply Hsub. rewrite idsOf_allIds. apply elem_of_cons. tauto. }
    assert (id n ≠ id target) as Hne.
    { intros Heq. apply Hnc. rewrite Heq. apply Hsub, id_in_idsOf. }
    rewrite decide_True by (intros Hi; by apply Hnc, Hsub').
    assert (bool_decide (id n ∈ E ∖ {[id target]}) = bool_decide (id n ∈ E)) as ->.
    { apply bool_decide_ext. set_solver. }
    rewrite (visibleAll_collapse_absent _ l)
      by (intros Hi; eapply Hdisj; [apply Hsub, id_in_idsOf|done]).
    rewrite (filter_all _ (visibleAll E l)).
    + f_equal. f_equal. destruct (bool_decide (id n ∈ E)); [by apply IHc|done].
    + apply Forall_forall. intros y Hy Hi.
      eapply Hdisj; [by apply Hsub'|]. by apply elem_allIds, (visibleAll_sub E).
  - assert (∀ i, i ∈ idsOf target → i ∈ allIds l) as Hsub.
    { intros i. by apply allIds_subtree. }
    assert (∀ i, i ∈ allIds (children target) → i ∈ allIds l) as Hsub'.
    { intros i Hi. apply Hsub. rewrite idsOf_allIds. apply elem_of_cons. tauto. }
    assert (id n ≠ id target) as Hne.
    { intros Heq. apply Hnl. rewrite Heq. apply Hsub, id_in_idsOf. }
    rewrite decide_True by (intros Hi; by apply Hnl, Hsub').
    assert (bool_decide (id n ∈ E ∖ {[id target]}) = bool_decide (id n ∈ E)) as ->.
    { apply bool_decide_ext. set_solver. }
    rewrite IHl by done. f_equal. f_equal.
    destruct (bool_decide (id n ∈ E)); [|done].
    rewrite visibleAll_collapse_absent
      by (intros Hi; eapply Hdisj; [done|apply Hsub, id_in_idsOf]).
    symmetry. apply filter_all.
    apply Forall_forall. intros y Hy Hi.
    eapply Hdisj; [|by apply Hsub'].
    by apply elem_allIds, (visibleAll_sub E).
Qed.

Lemma handleToggle_twice x (st : BrowserView) :
  handleToggle x (handleToggle x st) = st.
Proof.
  destruct st as [ns fi ei E h hi di dt]. unfold handleToggle. simpl.
  unfold setExpandedIds. simpl. f_equal.
  destruct (bool_decide (x ∈ E)) eqn:HE.
  - apply bool_decide_eq_true in HE.
    rewrite bool_decide_eq_false_2 by set_solver.
    apply set_eq. intros y. destruct (decide (y = x)); set_solver.
  - apply bool_decide_eq_false in HE.
    rewrite bool_decide_eq_true_2 by set_solver.
    set_solver.
Qed.

(** The same for [flattenTree], which reads the flag on the node, and
    [toggleNode] of the parent component, which flips it. *)

Lemma flattenTraverse_eq result n :
  flattenTraverse result n
  = if isExpanded n then foldl flattenTraverse (result ++ [n]) (children n)
    else result ++ [n].
Proof. by destruct n. Qed.

Lemma flattenTraverse_app l :
  ∀ result, foldl flattenTraverse result l = result ++ flattenTree l.
Proof.
  unfold flattenTree.
  induction l as [|n l IHc IHl] using forest_ind; intros result.
  - simpl. by rewrite app_nil_r.
  - simpl foldl. rewrite IHl, (IHl (flattenTraverse [] n)).
    rewrite !flattenTraverse_eq. destruct (isExpanded n).
    + rewrite IHc, (IHc ([] ++ [n])). by rewrite <- !(assoc_L (++)).
    + by rewrite <- !(assoc_L (++)).
Qed.

Lemma flattenTree_cons n l :
  flattenTree (n :: l) =
    n :: (if isExpanded n then flattenTree (children n) else [])
      ++ flattenTree l.
Proof.
  unfold flattenTree at 1. simpl foldl.
  rewrite flattenTraverse_app, flattenTraverse_eq.
  destruct (isExpanded n); [|done]. by rewrite flattenTraverse_app.
Qed.

Lemma flattenTree_sub l n : n ∈ flattenTree l → n ∈ allNodes l.
Proof.
  induction l as [|m l IHc IHl] using forest_ind; [done|].
  rewrite flattenTree_cons, allNodes_cons, !elem_of_cons, !elem_of_app.
  destruct (isExpanded m).
  - intros [?|[?|?]]; auto.
  - intros [?|[?%elem_of_nil|?]]; auto; done.
Qed.







End Flatten.


Lemma nodeA_in_sample : nodeA ∈ allNodes (nodes sampleView).
Proof. vm_compute. apply list_elem_of_here. Qed.

Lemma nodeD_in_sample : nodeD ∈ allNodes (nodes sampleView).
Proof. vm_compute. do 3 apply list_elem_of_further. apply list_elem_of_here. Qed.


(** ** Drag and drop *)

Section Drag.

Implicit Types (n src tgt new : TreeNode) (l cs : list TreeNode)
  (s t i : jstring) (pos : DropPosition).

Lemma updateNodeDepth_eq n d p :
  updateNodeDepth n d p =
    mkNode (id n) (text n) d
      ((fun c => updateNodeDepth c (d + 1) (Some (mkParentRef (id n) d p)))
         <$> children n)
      (isExpanded n) p.
Proof. by destruct n. Qed.

Lemma levelsOf_eq n :
  levelsOf n = 0 :: (S <$> flat_map levelsOf (children n)).
Proof. by destruct n. Qed.

Lemma updateNodeDepth_forest l :
  ∀ d q,
    id <$> allNodes ((fun c => updateNodeDepth c d q) <$> l) = allIds l
    ∧ text <$> allNodes ((fun c => updateNodeDepth c d q) <$> l)
      = text <$> allNodes l
    ∧ depth <$> allNodes ((fun c => updateNodeDepth c d q) <$> l)
      = (fun k => d + k) <$> flat_map levelsOf l.
Proof.
  induction l as [|n l IHc IHl] using forest_ind; intros d q; [done|].
  destruct (IHl d q) as (H1 & H2 & H3).
  destruct (IHc (d + 1) (Some (mkParentRef (id n) d q))) as (H4 & H5 & H6).
  rewrite fmap_cons, allIds_cons, !allNodes_cons, updateNodeDepth_eq.
  cbn [id text depth children]. rewrite !fmap_cons, !fmap_app.
  rewrite H1, H2, H3, H4, H5, H6.
  cbn [id text depth flat_map]. rewrite levelsOf_eq, fmap_app, fmap_cons.
  rewrite Nat.add_0_r, <- !list_fmap_compose.
  split; [done|]. split; [done|]. simpl. f_equal. f_equal.
  apply list_fmap_ext. intros ? k _. simpl. lia.
Qed.

Lemma updateNodeDepth_nodes n d p :
  id <$> nodesOf (updateNodeDepth n d p) = idsOf n
  ∧ text <$> nodesOf (updateNodeDepth n d p) = text <$> nodesOf n
  ∧ depth <$> nodesOf (updateNodeDepth n d p)
    = (fun k => d + k) <$> levelsOf n.
Proof.
  destruct (updateNodeDepth_forest [n] d p) as (H1 & H2 & H3).
  rewrite allIds_singleton in H1.
  unfold allNodes in *. simpl in *. by rewrite !app_nil_r in *.
Qed.

Lemma updateNodeDepth_ids n d p : idsOf (updateNodeDepth n d p) = idsOf n.
Proof. apply updateNodeDepth_nodes. Qed.

Lemma allIds_spliceIn (k : Z) new l :
  allIds (spliceIn k new l) ≡ₚ idsOf new ++ allIds l.
Proof.
  unfold spliceIn. set (pos := Z.to_nat _).
  rewrite <- (take_drop pos l) at 3.
  rewrite !allIds_app, (allIds_cons_idsOf new (drop pos l)).
  rewrite (assoc_L (++) (allIds _) (idsOf new)).
  rewrite (comm (++) (allIds (take pos l)) (idsOf new)).
  by rewrite <- (assoc_L (++)).
Qed.

Lemma sites_cons pos n l :
  sites pos (n :: l) =
    (if decide (pos = child) then idsOf n else allIds (children n))
      ++ sites pos l.
Proof.
  unfold sites. destruct (decide (pos = child)); [|done].
  by rewrite allIds_cons, idsOf_allIds, <- app_comm_cons.
Qed.

Lemma sites_sub pos l i : i ∈ sites pos l → i ∈ allIds l.
Proof.
  unfold sites. destruct (decide (pos = child)) as [_|_]; [done|].
  induction l as [|n l IH]; [done|]. simpl.
  rewrite allIds_cons, elem_of_app, elem_of_cons, elem_of_app. tauto.
Qed.

Lemma findIndexFrom_spec {A} (p : A → bool) (arr : list A) (k : Z) :
  (findIndexFrom p k arr = (-1)%Z ∧ Forall (fun x => p x = false) arr)
  ∨ (∃ j x, findIndexFrom p k arr = (k + Z.of_nat j)%Z
            ∧ arr !! j = Some x ∧ p x = true).
Proof.
  revert k. induction arr as [|x arr IH]; intros k; simpl.
  - left. by split.
  - destruct (p x) eqn:Hp.
    + right. exists 0, x. repeat split; [lia|done].
    + destruct (IH (k + 1)%Z) as [[-> Hall]|(j & y & -> & Hy & Hpy)].
      * left. split; [done|]. by constructor.
      * right. exists (S j), y. repeat split; [lia|done..].
Qed.

Lemma findIndex_spec {A} (p : A → bool) (arr : list A) :
  (findIndex p arr = (-1)%Z ∧ Forall (fun x => p x = false) arr)
  ∨ (∃ j x, findIndex p arr = Z.of_nat j ∧ arr !! j = Some x ∧ p x = true).
Proof.
  destruct (findIndexFrom_spec p arr 0) as [?|(j & x & H & ?)]; [by left|].
  right. exists j, x. split; [|done]. unfold findIndex. rewrite H. lia.
Qed.

Lemma insertNodeIn_eq t new pos n :
  insertNodeIn t new pos n =
    if hasId t n && bool_decide (pos = child) then
      mkNode (id n) (text n) (depth n)
        (children n ++ [updateNodeDepth new (depth n + 1) (Some (refTo n))])
        true (parent n)
    else if bool_decide (0 < length (children n)) then
      let childIndex := findIndex (hasId t) (children n) in
      if bool_decide (childIndex ≠ (-1)%Z)
         && (bool_decide (pos = before) || bool_decide (pos = after))
      then
        match children n !! Z.to_nat childIndex with
        | Some target =>
            withChildren n
              (spliceIn (if bool_decide (pos = before) then childIndex
                         else (childIndex + 1)%Z)
                 (updateNodeDepth new (depth target) (Some (refTo n)))
                 (children n))
        | None => n
        end
      else withChildren n (insertNode (children n) t new pos)
    else n.
Proof. by destruct n. Qed.

Lemma not_top_sites pos cs t :
  pos ≠ child → Forall (fun x => hasId t x = false) cs →
  t ∈ allIds cs ↔ t ∈ sites pos cs.
Proof.
  intros Hpos Hall. unfold sites. rewrite decide_False by done.
  induction Hall as [|c cs Hc _ IH]; [done|].
  rewrite allIds_cons. simpl. rewrite elem_of_cons, !elem_of_app, IH.
  apply hasId_false in Hc. naive_solver.
Qed.

Lemma allIds_withChildren n cs : allIds [withChildren n cs] = id n :: allIds cs.
Proof. by rewrite allIds_cons, app_nil_r. Qed.

(** [insertNode] puts the new subtree into the forest once if the target is
    one of its insertion sites, and leaves the forest alone otherwise. *)
Lemma insertNode_ids t new pos l :
  NoDup (allIds l) →
  allIds (insertNode l t new pos)
  ≡ₚ (if decide (t ∈ sites pos l) then idsOf new else []) ++ allIds l.
Proof.
  induction l as [|n l IHc IHl] using forest_ind; intros Hnd.
  { unfold sites. by destruct (decide (pos = child)). }
  destruct (NoDup_allIds_cons _ _ Hnd) as (Hnc & Hnl & Hndc & Hndl & Hdisj).
  specialize (IHc Hndc). specialize (IHl Hndl).
  set (site := if decide (pos = child) then idsOf n else allIds (children n)).
  assert (∀ i, i ∈ site → i ∈ idsOf n) as Hsite.
  { intros i. unfold site. destruct (decide (pos = child)); [done|].
    rewrite idsOf_allIds, elem_of_cons. tauto. }
  assert (allIds [insertNodeIn t new pos n]
          ≡ₚ (if decide (t ∈ site) then idsOf new else []) ++ idsOf n) as Hn.
  { rewrite insertNodeIn_eq.
    destruct (hasId t n && bool_decide (pos = child)) eqn:Hhere.
    - apply andb_true_iff in Hhere as [Hid%hasId_true Hpos%bool_decide_eq_true].
      rewrite decide_True
        by (unfold site; rewrite decide_True by done; rewrite <- Hid;
            apply id_in_idsOf).
      rewrite allIds_cons, app_nil_r. cbn [id children].
      rewrite allIds_app, allIds_singleton, updateNodeDepth_ids.
      rewrite (idsOf_allIds n), app_comm_cons. apply Permutation_app_comm.
    - assert (pos = child → id n ≠ t) as Hne.
      { intros Hpos. apply andb_false_iff in Hhere as [H|H].
        - by apply hasId_false.
        - by apply bool_decide_eq_false in H. }
      assert (pos = child →
              (t ∈ site ↔ t ∈ sites pos (children n))) as Hchild.
      { intros Hpos. unfold site, sites. rewrite !decide_True by done.
        rewrite idsOf_allIds, elem_of_cons. specialize (Hne Hpos).
        naive_solver. }
      destruct (bool_decide (0 < length (children n))) eqn:Hlen.
      + cbv zeta.
        destruct (findIndex_spec (hasId t) (children n))
          as [[-> Hall]|(j & x & -> & Hx & Hpx)].
        * rewrite bool_decide_eq_false_2 by (intros H; by apply H).
          cbn [andb].
          rewrite allIds_withChildren, IHc, (idsOf_allIds n).
          rewrite <- Permutation_middle.
          erewrite decide_ext; [done|]. symmetry.
          destruct (decide (pos = child)) as [Hpos|Hpos] eqn:Hd;
            [by apply Hchild|].
          unfold site. by apply not_top_sites.
        * rewrite Nat2Z.id, Hx. apply hasId_true in Hpx.
          assert (t ∈ allIds (children n)) as Htin.
          { rewrite <- Hpx. apply elem_allIds.
            eapply (allNodes_subtree _ x);
              [|rewrite nodesOf_allNodes; apply elem_of_cons; by left].
            unfold allNodes. apply list_elem_of_In, in_flat_map.
            exists x. split; [by eapply list_elem_of_In, list_elem_of_lookup_2|].
            rewrite nodesOf_allNodes. by left. }
          rewrite bool_decide_eq_true_2 by lia. cbn [andb].
          destruct (bool_decide (pos = before) || bool_decide (pos = after))
            eqn:Hba.
          -- assert (pos ≠ child) as Hpos.
             { intros ->. by rewrite !bool_decide_eq_false_2 in Hba. }
             rewrite allIds_withChildren, allIds_spliceIn, updateNodeDepth_ids.
             rewrite (idsOf_allIds n), <- Permutation_middle.
             unfold site. rewrite (decide_False (P:=pos = child)) by done.
             by rewrite decide_True.
          -- assert (pos = child) as Hpos.
             { destruct pos; [by rewrite bool_decide_eq_true_2 in Hba|
                 by rewrite (bool_decide_eq_true_2 (after = after)), orb_true_r in Hba|
                 done]. }
             rewrite allIds_withChildren, IHc, (idsOf_allIds n).
             rewrite <- Permutation_middle.
             erewrite decide_ext; [done|]. symmetry. by apply Hchild.
      + apply bool_decide_eq_false in Hlen.
        assert (children n = []) as Hnil.
        { destruct (children n); [done|]. simpl in Hlen. lia. }
        rewrite allIds_singleton, decide_False; [done|].
        unfold site. rewrite idsOf_allIds, Hnil.
        destruct (decide (pos = child)) as [Hpos|Hpos].
        * rewrite elem_of_cons. intros [H|H]; [by apply (Hne Hpos)|].
          by apply elem_of_nil in H.
        * apply not_elem_of_nil. }
  unfold insertNode in *. rewrite fmap_cons, allIds_cons_idsOf.
  rewrite <- allIds_singleton, Hn, IHl, sites_cons. fold site.
  rewrite allIds_cons_idsOf.
  assert (t ∈ site → t ∉ sites pos l) as Hexcl.
  { intros Hs Hl%sites_sub. apply Hsite in Hs.
    rewrite idsOf_allIds, elem_of_cons in Hs. destruct Hs as [->|Hs].
    - by apply Hnl.
    - by eapply Hdisj. }
  destruct (decide (t ∈ site)) as [Hs|Hs].
  - rewrite (decide_False (P:=t ∈ sites pos l)) by by apply Hexcl.
    rewrite (decide_True (P:=t ∈ site ++ sites pos l))
      by (apply elem_of_app; by left).
    simpl. by rewrite <- !(assoc_L (++)).
  - destruct (decide (t ∈ sites pos l)) as [Hl|Hl].
    + rewrite (decide_True (P:=t ∈ site ++ sites pos l))
        by (apply elem_of_app; by right).
      simpl. rewrite !(assoc_L (++)). f_equiv. apply Permutation_app_comm.
    + rewrite (decide_False (P:=t ∈ site ++ sites pos l)); [done|].
      rewrite elem_of_app. tauto.
Qed.

Lemma isDescendant_spec n t : isDescendant n t = true ↔ t ∈ idsOf n.
Proof.
  induction n as [a tx d cs e p IH] using TreeNode_forall_ind.
  rewrite idsOf_allIds, elem_of_cons. simpl. unfold hasId. simpl.
  destruct (decide (a = t)) as [->|Hne].
  - rewrite bool_decide_eq_true_2 by done. tauto.
  - rewrite bool_decide_eq_false_2 by done.
    rewrite existsb_exists. split.
    + intros (c & Hc%list_elem_of_In & Hd). right.
      rewrite Forall_forall in IH. apply IH in Hd; [|done].
      eapply allIds_subtree; [|done].
      unfold allNodes. apply list_elem_of_In, in_flat_map.
      exists c. split; [by apply list_elem_of_In|].
      rewrite nodesOf_allNodes. by left.
    + intros [?|Hin]; [done|].
      apply list_elem_of_fmap_1 in Hin as (x & -> & Hx).
      apply list_elem_of_In, in_flat_map in Hx as (c & Hc & Hx).
      exists c. split; [done|].
      rewrite Forall_forall in IH. apply IH; [by apply list_elem_of_In|].
      by apply list_elem_of_fmap_2, list_elem_of_In.
Qed.

Lemma same_id_same_node l a b :
  NoDup (allIds l) → a ∈ allNodes l → b ∈ allNodes l → id a = id b → a = b.
Proof.
  intros Hnd Ha Hb Heq.
  assert (b ∈ filter (fun x => id x = id a) (allNodes l)) as Hin.
  { by apply list_elem_of_filter. }
  rewrite filter_id_NoDup in Hin by done.
  by apply list_elem_of_singleton in Hin.
Qed.

Lemma NoDup_idsOf l n : NoDup (allIds l) → n ∈ allNodes l → NoDup (idsOf n).
Proof.
  induction l as [|m l IHc IHl] using forest_ind;
    [by intros _ ?%elem_of_nil|].
  intros Hnd Hin.
  destruct (NoDup_allIds_cons _ _ Hnd) as (Hnc & Hnl & Hndc & Hndl & Hdisj).
  rewrite allNodes_cons, elem_of_cons, elem_of_app in Hin.
  destruct Hin as [->|[Hin|Hin]]; [|by apply IHc|by apply IHl].
  rewrite idsOf_allIds. by apply NoDup_cons.
Qed.

Lemma NoDup_no_selfAncestor l : NoDup (allIds l) → ¬ selfAncestor l.
Proof.
  intros Hnd (n & Hn & Hself).
  pose proof (NoDup_idsOf l n Hnd Hn) as Hn'.
  rewrite idsOf_allIds in Hn'. by apply NoDup_cons in Hn' as [? _].
Qed.

Lemma removeNode_ids l src :
  NoDup (allIds l) → src ∈ allNodes l →
  allIds (removeNode l (id src)) = filter (fun i => i ∉ idsOf src) (allIds l).
Proof.
  intros Hnd Hin. pose proof (removeNode_entries l src Hnd Hin) as He.
  apply (f_equal (fmap (fun e : jstring * jstring * nat => e.1.1))) in He.
  rewrite <- !list_fmap_compose in He.
  unfold allIds. rewrite filter_fmap_pre. exact He.
Qed.

Lemma NoDup_moved l src :
  NoDup (allIds l) → src ∈ allNodes l →
  NoDup (idsOf src ++ allIds (removeNode l (id src))).
Proof.
  intros Hnd Hin. rewrite removeNode_ids by done.
  apply NoDup_app. split; [by eapply NoDup_idsOf|]. split.
  - intros i Hi [Hnot _]%list_elem_of_filter. done.
  - by apply NoDup_filter.
Qed.

Lemma dropNodes_NoDup l src dt newNodes :
  NoDup (allIds l) → src ∈ allNodes l →
  dropNodes l (id src) src dt = Some newNodes → NoDup (allIds newNodes).
Proof.
  intros Hnd Hin. unfold dropNodes.
  pose proof (NoDup_moved l src Hnd Hin) as Hmoved.
  destruct (_ && _).
  - destruct (bool_decide _); [|done]. intros [= <-].
    by rewrite allIds_spliceIn, updateNodeDepth_ids.
  - intros [= <-]. rewrite insertNode_ids.
    + destruct (decide _); [done|]. simpl. by apply NoDup_app in Hmoved as (_ & _ & ?).
    + by apply NoDup_app in Hmoved as (_ & _ & ?).
Qed.

Lemma nodeMap_Some (st : BrowserView) i n :
  nodeMap st !! i = Some n → n ∈ allNodes (nodes st) ∧ id n = i.
Proof.
  unfold nodeMap. rewrite nodeMapOf_lookup. intros Hlast.
  apply last_Some in Hlast as [pre Hpre].
  assert (n ∈ filter (fun x => id x = i) (allNodes (nodes st))) as Hin.
  { rewrite Hpre. apply elem_of_app. right. by apply list_elem_of_singleton. }
  apply list_elem_of_filter in Hin. tauto.
Qed.

Lemma dragStart_dragging s (st : BrowserView) :
  dropTarget st = None → dragging s st (handleDragStart s st).
Proof.
  intros Hidle. exists None. split; [|done].
  destruct st; simpl in *. by subst.
Qed.

Lemma draggingId_set d target (st : BrowserView) :
  draggingId (setDropTarget target (setDraggingId d st)) = d.
Proof. done. Qed.

Lemma nodeMap_set d target (st : BrowserView) :
  nodeMap (setDropTarget target (setDraggingId d st)) = nodeMap st.
Proof. done. Qed.

Lemma setDropTarget_twice a b (x : BrowserView) :
  setDropTarget a (setDropTarget b x) = setDropTarget a x.
Proof. done. Qed.

Lemma dragOver_dragging s t pos (st x : BrowserView) :
  dragging s st x → dragging s st (handleDragOver t pos x).
Proof.
  intros (target & -> & Hvalid). unfold handleDragOver.
  rewrite draggingId_set, nodeMap_set, !setDropTarget_twice.
  destruct (falsy (Some s) || bool_decide (Some s = Some t)) eqn:Hguard.
  { exists None. by split. }
  apply orb_false_iff in Hguard as [Hs Hst].
  apply bool_decide_eq_false in Hst.
  cbn [mbind option_bind].
  assert (dragging s st (setDropTarget target (setDraggingId (Some s) st)))
    as Hkeep by (exists target; split; [done|exact Hvalid]).
  destruct (nodeMap st !! s) as [src|] eqn:Hsrc; [|exact Hkeep].
  destruct (nodeMap st !! t) as [tgt|] eqn:Htgt; [|exact Hkeep].
  destruct (isDescendant src t) eqn:Hdesc.
  { exists None. by split. }
  exists (Some (mkDropTarget t pos)). split; [done|].
  intros dt [= <-]. simpl. split; [by destruct s|]. split; [congruence|].
  by exists src, tgt.
Qed.

Lemma hoverAll_dragging s hovers (st : BrowserView) :
  dropTarget st = None → dragging s st (hoverAll s hovers st).
Proof.
  intros Hidle. unfold hoverAll.
  induction hovers as [|[t pos] hovers IH] using rev_ind.
  - by apply dragStart_dragging.
  - rewrite foldl_app. simpl. by apply dragOver_dragging.
Qed.

(** What the drop does at the end of a drag: nothing to the tree and the
    history, or the move of a source that is in the tree next to or into a
    target that is in the tree, is not the source and is not below it. *)
Lemma drop_cases s (st x : BrowserView) :
  dragging s st x →
  (nodes (handleDrop x) = nodes st
   ∧ history (handleDrop x) = history st
   ∧ historyIndex (handleDrop x) = historyIndex st)
  ∨ (∃ src dt,
       nodeMap st !! s = Some src ∧ isDescendant src (nodeId dt) = false
       ∧ nodes (handleDrop x) = nodes (dropMove s src dt st)
       ∧ history (handleDrop x) = history (dropMove s src dt st)
       ∧ historyIndex (handleDrop x) = historyIndex (dropMove s src dt st)).
Proof.
  intros (target & -> & Hvalid).
  destruct target as [dt|]; [|by left].
  destruct (Hvalid dt eq_refl) as (Hs & Hne & src & tgt & Hsrc & Htgt & Hdesc).
  right. exists src, dt. split; [done|]. split; [done|].
  unfold handleDrop. simpl. destruct s as [|c s]; [done|]. simpl.
  unfold nodeMap in *. simpl. rewrite Hsrc, Htgt.
  unfold dropMove. simpl.
  destruct (dropNodes (nodes st) (c :: s) src dt) as [newNodes|];
    [|by destruct (bool_decide (position dt = child))].
  unfold addToHistory. simpl.
  destruct (decide _); by destruct (bool_decide (position dt = child)).
Qed.

(** A last hover over the source or over a node of its subtree clears the
    pending target. *)
Lemma dragOver_invalid s t pos (st x : BrowserView) :
  dragging s st x →
  (s = t ∨ ∃ src, nodeMap st !! s = Some src ∧ t ∈ idsOf src) →
  handleDragOver t pos x = setDropTarget None (setDraggingId (Some s) st).
Proof.
  intros (target & -> & _) Hbad. unfold handleDragOver.
  rewrite draggingId_set, nodeMap_set, !setDropTarget_twice.
  destruct (falsy (Some s) || bool_decide (Some s = Some t)) eqn:Hguard;
    [done|].
  apply orb_false_iff in Hguard as [Hs Hst].
  apply bool_decide_eq_false in Hst.
  destruct Hbad as [->|(src & Hsrc & Hin)]; [done|].
  cbn [mbind option_bind]. rewrite Hsrc.
  destruct (nodeMapOf_elem (nodes st) t) as [tgt Htgt].
  { apply nodeMap_Some in Hsrc as [Hsrc _]. by eapply allIds_subtree. }
  unfold nodeMap in *. rewrite Htgt.
  apply isDescendant_spec in Hin. by rewrite Hin.
Qed.

Lemma move_valid s t pos src tgt (st : BrowserView) :
  dropTarget st = None → s ≠ [] → s ≠ t →
  nodeMap st !! s = Some src → nodeMap st !! t = Some tgt →
  isDescendant src t = false →
  nodes (move s t pos st) = nodes (dropMove s src (mkDropTarget t pos) st)
  ∧ expandedIds (move s t pos st)
    = if bool_decide (pos = child) then expandedIds st ∪ {[t]}
      else expandedIds st.
Proof.
  intros Hidle Hs Hst Hsrc Htgt Hdesc.
  destruct st as [ns fi ei E h hi di dt]. simpl in Hidle.
  subst dt. unfold move, handleDragStart, handleDragOver. simpl.
  destruct s as [|c s]; [done|]. simpl.
  rewrite bool_decide_eq_false_2 by congruence.
  unfold nodeMap in *. simpl in *. rewrite Hsrc, Htgt, Hdesc.
  unfold handleDrop, nodeMap. simpl. rewrite Hsrc, Htgt.
  unfold dropMove. simpl.
  destruct (dropNodes ns (c :: s) src (mkDropTarget t pos)) as [newNodes|];
    [|by destruct (bool_decide (pos = child))].
  unfold addToHistory. simpl.
  destruct (decide _); by destruct (bool_decide (pos = child)).
Qed.

Lemma dropMove_nodes s src dt (st : BrowserView) :
  nodes (dropMove s src dt st)
  = default (nodes st) (dropNodes (nodes st) s src dt).
Proof. unfold dropMove. by destruct (dropNodes _ _ _ _). Qed.

(** A node outside the removed subtree survives the removal, with the
    removal applied to its own children. *)
Lemma removeNode_keeps l src n :
  NoDup (allIds l) → src ∈ allNodes l → n ∈ allNodes l → id n ∉ idsOf src →
  withChildren n (removeNode (children n) (id src))
    ∈ allNodes (removeNode l (id src)).
Proof.
  induction l as [|m l IHc IHl] using forest_ind;
    [by intros _ ?%elem_of_nil|].
  intros Hnd Hsrc Hn Hout.
  destruct (NoDup_allIds_cons _ _ Hnd) as (Hnc & Hnl & Hndc & Hndl & Hdisj).
  rewrite removeNode_cons.
  destruct (decide (id m = id src)) as [Heq|Hne].
  - assert (m = src) as ->.
    { apply (same_id_same_node (m :: l)); [done| |done..].
      rewrite allNodes_cons. apply elem_of_cons. by left. }
    rewrite allNodes_cons, app_comm_cons, elem_of_app in Hn.
    destruct Hn as [Hn|Hn].
    + exfalso. apply Hout. rewrite <- nodesOf_allNodes in Hn.
      by apply list_elem_of_fmap_2.
    + rewrite (removeNode_absent _ l) by done.
      replace (removeNode (children n) (id src)) with (children n).
      * by rewrite withChildren_same.
      * symmetry. apply removeNode_absent. intros Hin. apply Hnl.
        eapply allIds_subtree; [done|].
        rewrite idsOf_allIds. apply elem_of_cons. by right.
  - rewrite allNodes_cons. cbn [children withChildren].
    rewrite allNodes_cons, elem_of_cons, elem_of_app in Hn.
    rewrite allNodes_cons, elem_of_cons, elem_of_app in Hsrc.
    destruct Hsrc as [->|Hsrc]; [done|].
    destruct Hn as [->|[Hn|Hn]].
    + apply elem_of_cons. by left.
    + apply elem_of_cons. right. apply elem_of_app. left.
      destruct Hsrc as [Hsrc|Hsrc]; [by apply IHc|].
      rewrite !removeNode_absent; [by rewrite withChildren_same| |].
      * intros Hin. eapply Hdisj; [done|]. by apply elem_allIds.
      * intros Hin. eapply Hdisj; [|by apply elem_allIds].
        eapply allIds_subtree; [done|].
        rewrite idsOf_allIds. apply elem_of_cons. by right.
    + apply elem_of_cons. right. apply elem_of_app. right.
      destruct Hsrc as [Hsrc|Hsrc]; [|by apply IHl].
      rewrite !removeNode_absent; [by rewrite withChildren_same| |].
      * intros Hin. eapply Hdisj; [by apply elem_allIds|done].
      * intros Hin. eapply Hdisj; [by apply elem_allIds|].
        eapply allIds_subtree; [done|].
        rewrite idsOf_allIds. apply elem_of_cons. by right.
Qed.

(** Dropping as a child appends the re-levelled subtree to the children of
    the target and expands the target. *)
Lemma insertNode_child_at l new n :
  NoDup (allIds l) → n ∈ allNodes l →
  mkNode (id n) (text n) (depth n)
    (children n ++ [updateNodeDepth new (depth n + 1) (Some (refTo n))])
    true (parent n)
  ∈ allNodes (insertNode l (id n) new child).
Proof.
  induction l as [|m l IHc IHl] using forest_ind;
    [by intros _ ?%elem_of_nil|].
  intros Hnd Hn.
  destruct (NoDup_allIds_cons _ _ Hnd) as (Hnc & Hnl & Hndc & Hndl & Hdisj).
  unfold insertNode in *. rewrite fmap_cons, allNodes_cons.
  rewrite allNodes_cons, elem_of_cons, elem_of_app in Hn.
  destruct Hn as [->|[Hn|Hn]].
  - apply elem_of_cons. left. rewrite insertNodeIn_eq.
    by rewrite (proj2 (hasId_true (id m) m)), bool_decide_eq_true_2.
  - apply elem_of_cons. right. apply elem_of_app. left.
    rewrite insertNodeIn_eq.
    assert (id m ≠ id n) as Hne.
    { intros Heq. apply Hnc. rewrite Heq. by apply elem_allIds. }
    unfold hasId at 1. rewrite bool_decide_eq_false_2 by done. cbn [andb].
    rewrite bool_decide_eq_true_2.
    + cbv zeta. rewrite !(bool_decide_eq_false_2 (child = _)) by done.
      rewrite andb_false_r. cbn [children withChildren]. by apply IHc.
    + destruct (children m); [by apply elem_of_nil in Hn|simpl; lia].
  - apply elem_of_cons. right. apply elem_of_app. right. by apply IHl.
Qed.

End Drag.

(** C1.  In a tree whose ids are distinct, a drag gesture from the idle
    state, whatever the source, the rows the pointer passes over and the drop
    zones, leaves the ids distinct, so no node has itself among its
    descendants; and when the row under the pointer at the end is the
    source's own or one in the source's subtree, the tree and the history
    are exactly what they were. *)
Theorem move_never_creates_cycle (st : BrowserView) (s : jstring)
    (hovers : list (jstring * DropPosition)) :
  NoDup (allIds (nodes st)) → dropTarget st = None →
  NoDup (allIds (nodes (gesture s hovers st)))
  ∧ ¬ selfAncestor (nodes (gesture s hovers st))
  ∧ ∀ t pos,
      (s = t ∨ ∃ src, src ∈ allNodes (nodes st) ∧ id src = s ∧ t ∈ idsOf src) →
      nodes (gesture s (hovers ++ [(t, pos)]) st) = nodes st
      ∧ history (gesture s (hovers ++ [(t, pos)]) st) = history st
      ∧ historyIndex (gesture s (hovers ++ [(t, pos)]) st) = historyIndex st.
Proof.
  intros Hnd Hidle.
  pose proof (hoverAll_dragging s hovers st Hidle) as Hdrag.
  assert (NoDup (allIds (nodes (gesture s hovers st)))) as Hnd'.
  { unfold gesture.
    destruct (drop_cases s st _ Hdrag)
      as [(Hn & _)|(src & dt & Hsrc & _ & Hn & _)]; rewrite Hn; [done|].
    apply nodeMap_Some in Hsrc as [Hsrc Hid].
    rewrite dropMove_nodes.
    destruct (dropNodes _ _ _ _) as [newNodes|] eqn:Hdrop; [|done].
    simpl. subst s. by eapply dropNodes_NoDup. }
  split; [done|]. split; [by apply NoDup_no_selfAncestor|].
  intros t pos Hbad. unfold gesture, hoverAll. rewrite foldl_app. simpl.
  fold (hoverAll s hovers st).
  rewrite (dragOver_invalid s t pos st); [by destruct st|done|].
  destruct Hbad as [?|(src & Hsrc & Hid & Hin)]; [by left|].
  right. exists src. split; [|done]. subst s.
  by apply nodeMapOf_present.
Qed.

Lemma move_never_creates_cycle_witness :
  NoDup (allIds (nodes (gesture (id nodeD) [(id nodeB, after)] sampleView)))
  ∧ ¬ selfAncestor (nodes (gesture (id nodeD) [(id nodeB, after)] sampleView))
  ∧ nodes (gesture (id nodeA) ([(id nodeD, before)] ++ [(id nodeB, child)])
                   sampleView)
    = nodes sampleView.
Proof.
  destruct (move_never_creates_cycle sampleView (id nodeD) [(id nodeB, after)]
              sampleView_NoDup eq_refl) as (Hnd & Hacyclic & _).
  destruct (move_never_creates_cycle sampleView (id nodeA) [(id nodeD, before)]
              sampleView_NoDup eq_refl) as (_ & _ & Hsame).
  destruct (Hsame (id nodeB) child) as (Hnodes & _).
  { right. exists nodeA. split; [apply nodeA_in_sample|]. split; [reflexivity|].
    apply (bool_decide_unpack _). vm_compute. exact I. }
  exact (conj Hnd (conj Hacyclic Hnodes)).
Defined.

(** C4.  In a tree whose ids are distinct, dragging a node onto the middle of
    a row that is neither its own nor one of its descendants' makes the
    dragged subtree the last child of the target; every node of the subtree
    then has the depth of the target plus one plus its level inside the
    subtree, and the target is expanded, in the tree and in the set of
    expanded ids.  The ids of the new tree are distinct, so the subtree is
    nowhere else: every node of the new tree that has the id of a node of
    the dragged subtree is a node of the re-levelled one. *)
Theorem move_as_child_relevels (st : BrowserView) (src tgt : TreeNode) :
  NoDup (allIds (nodes st)) → dropTarget st = None →
  src ∈ allNodes (nodes st) → tgt ∈ allNodes (nodes st) →
  id src ≠ [] → id tgt ∉ idsOf src →
  ∃ tgt' moved,
    tgt' ∈ allNodes (nodes (move (id src) (id tgt) child st))
    ∧ id tgt' = id tgt ∧ depth tgt' = depth tgt
    ∧ isExpanded tgt' = true
    ∧ id tgt ∈ expandedIds (move (id src) (id tgt) child st)
    ∧ last (children tgt') = Some moved
    ∧ id <$> nodesOf moved = idsOf src
    ∧ text <$> nodesOf moved = text <$> nodesOf src
    ∧ depth <$> nodesOf moved = (fun k => depth tgt + 1 + k) <$> levelsOf src
    ∧ NoDup (allIds (nodes (move (id src) (id tgt) child st)))
    ∧ (∀ x, x ∈ allNodes (nodes (move (id src) (id tgt) child st)) →
            id x ∈ idsOf src → x ∈ nodesOf moved).
Proof.
  intros Hnd Hidle Hsrc Htgt Hs Hout.
  assert (id src ≠ id tgt) as Hne.
  { intros Heq. apply Hout. rewrite <- Heq. apply id_in_idsOf. }
  assert (isDescendant src (id tgt) = false) as Hdesc.
  { apply not_true_is_false. by rewrite isDescendant_spec. }
  destruct (move_valid (id src) (id tgt) child src tgt st) as [Hn HE];
    [done|done|done|by apply nodeMapOf_present..|done|].
  rewrite Hn, HE, dropMove_nodes. unfold dropNodes. simpl.
  rewrite andb_false_r. simpl.
  set (tgt1 := withChildren tgt (removeNode (children tgt) (id src))).
  assert (tgt1 ∈ allNodes (removeNode (nodes st) (id src))) as Htgt1.
  { by apply removeNode_keeps. }
  assert (NoDup (allIds (removeNode (nodes st) (id src)))) as Hnd1.
  { pose proof (NoDup_moved _ src Hnd Hsrc) as Hm.
    by apply NoDup_app in Hm as (_ & _ & ?). }
  pose proof (insertNode_child_at _ src tgt1 Hnd1 Htgt1) as Hat.
  destruct (updateNodeDepth_nodes src (depth tgt1 + 1) (Some (refTo tgt1)))
    as (Hids & Htexts & Hdepths).
  set (result := insertNode (removeNode (nodes st) (id src)) (id tgt) src child)
    in *.
  assert (NoDup (allIds result)) as Hnd2.
  { unfold result. rewrite insertNode_ids by done.
    pose proof (NoDup_moved _ src Hnd Hsrc) as Hm.
    destruct (decide _); [done|]. simpl. by apply NoDup_app in Hm as (_ & _ & ?). }
  set (moved := updateNodeDepth src (depth tgt1 + 1) (Some (refTo tgt1))) in *.
  set (tgt2 := mkNode (id tgt1) (text tgt1) (depth tgt1)
                 (children tgt1 ++ [moved]) true (parent tgt1)) in *.
  assert (∀ y, y ∈ nodesOf moved → y ∈ allNodes result) as Hin.
  { intros y Hy. apply (allNodes_subtree result tgt2); [exact Hat|].
    rewrite nodesOf_allNodes. apply list_elem_of_further.
    cbn [children tgt2]. rewrite allNodes_app. apply elem_of_app. right.
    unfold allNodes. simpl. by rewrite app_nil_r. }
  exists tgt2, moved. split; [exact Hat|]. simpl.
  split; [done|]. split; [done|]. split; [done|].
  split; [set_solver|]. split; [apply last_snoc|].
  split; [done|]. split; [done|]. split; [exact Hdepths|].
  split; [exact Hnd2|].
  intros x Hx Hidx. rewrite <- Hids in Hidx.
  apply list_elem_of_fmap_1 in Hidx as (y & Heq & Hy).
  by rewrite (same_id_same_node result x y Hnd2 Hx (Hin y Hy) Heq).
Qed.

Lemma move_as_child_relevels_witness :
  ∃ tgt' moved,
    tgt' ∈ allNodes (nodes (move (id nodeA) (id nodeD) child sampleView))
    ∧ id tgt' = id nodeD ∧ depth tgt' = depth nodeD
    ∧ isExpanded tgt' = true
    ∧ id nodeD ∈ expandedIds (move (id nodeA) (id nodeD) child sampleView)
    ∧ last (children tgt') = Some moved
    ∧ id <$> nodesOf moved = idsOf nodeA
    ∧ text <$> nodesOf moved = text <$> nodesOf nodeA
    ∧ depth <$> nodesOf moved
      = (fun k => depth nodeD + 1 + k) <$> levelsOf nodeA
    ∧ NoDup (allIds (nodes (move (id nodeA) (id nodeD) child sampleView)))
    ∧ (∀ x, x ∈ allNodes (nodes (move (id nodeA) (id nodeD) child sampleView)) →
            id x ∈ idsOf nodeA → x ∈ nodesOf moved).
Proof.
  apply (move_as_child_relevels sampleView nodeA nodeD sampleView_NoDup eq_refl
           nodeA_in_sample nodeD_in_sample).
  - discriminate.
  - apply (bool_decide_unpack _). vm_compute. exact I.
Defined.

(** The second example of the specification: a root with a child dropped
    before another root keeps its depths. *)
Example drop_root_before_root :
  entry <$> allNodes (nodes (move (id nodeA) (id nodeD) before
                               (move (id nodeD) (id nodeA) before sampleView)))
  = entry <$> allNodes sampleNodes
  ∧ text <$> nodes (move (id nodeD) (id nodeA) before sampleView)
    = [str "D"; str "A"].
Proof. by vm_compute. Qed.

(** ** The parser *)

Section Parser.

Implicit Types (n f g T : TreeNode) (l cs below frames above : list TreeNode)
  (b r d : nat) (h : list Obj).

Lemma sizeOf_eq n : sizeOf n = S (sizeAll (children n)).
Proof. by destruct n. Qed.

Lemma sizeAll_cons n l : sizeAll (n :: l) = sizeOf n + sizeAll l.
Proof. done. Qed.

Lemma sizeAll_app l1 l2 : sizeAll (l1 ++ l2) = sizeAll l1 + sizeAll l2.
Proof.
  induction l1 as [|n l1 IH]; [done|].
  rewrite <- app_comm_cons, !sizeAll_cons, IH. lia.
Qed.

Lemma cellsNode_eq b n :
  cellsNode b n =
    objOf n (refsFrom (S b) (children n)) :: cellsForest (S b) (children n).
Proof. by destruct n. Qed.

Lemma cellsForest_app b l1 l2 :
  cellsForest b (l1 ++ l2) = cellsForest b l1 ++ cellsForest (b + sizeAll l1) l2.
Proof.
  revert b. induction l1 as [|n l1 IH]; intros b.
  - simpl. by rewrite Nat.add_0_r.
  - rewrite <- app_comm_cons. cbn [cellsForest]. rewrite IH, sizeAll_cons.
    rewrite <- (assoc_L (++)). do 3 f_equal. lia.
Qed.

Lemma refsFrom_app b l1 l2 :
  refsFrom b (l1 ++ l2) = refsFrom b l1 ++ refsFrom (b + sizeAll l1) l2.
Proof.
  revert b. induction l1 as [|n l1 IH]; intros b.
  - simpl. by rewrite Nat.add_0_r.
  - rewrite <- app_comm_cons. cbn [refsFrom]. rewrite IH, sizeAll_cons.
    rewrite <- app_comm_cons. do 3 f_equal. lia.
Qed.

Lemma length_cellsForest b l : length (cellsForest b l) = sizeAll l.
Proof.
  revert b. induction l as [|n l IHc IHl] using forest_ind; intros b; [done|].
  cbn [cellsForest]. rewrite length_app, cellsNode_eq, sizeAll_cons, sizeOf_eq.
  simpl. by rewrite IHc, IHl.
Qed.

Lemma length_cellsNode b n : length (cellsNode b n) = sizeOf n.
Proof. by rewrite cellsNode_eq, sizeOf_eq; simpl; rewrite length_cellsForest. Qed.

Lemma plug_singleton below T : ∃ T', plug below [T] = [T'].
Proof.
  revert T. induction below as [|g rest IH]; intros T; simpl; eauto.
Qed.

Lemma withChildren_nil_r n : withChildren n (children n ++ []) = n.
Proof. by rewrite app_nil_r, withChildren_same. Qed.

Lemma sizeAll_plug done frames above :
  sizeAll (done ++ plug frames above) = nextRef done frames + sizeAll above.
Proof.
  revert above. induction frames as [|f below IH]; intros above; simpl.
  - apply sizeAll_app.
  - rewrite IH, sizeAll_cons, sizeOf_eq. simpl.
    rewrite sizeAll_app. lia.
Qed.

Lemma length_cellsBelow done below :
  length (cellsBelow done below) = nextRef done below.
Proof.
  induction below as [|g rest IH]; simpl.
  - apply length_cellsForest.
  - rewrite length_app. simpl. rewrite IH, length_cellsForest. lia.
Qed.

(** The tree plugged into the frames sits at the end of the store. *)
Lemma cells_plug done below T :
  cellsForest 0 (done ++ plug below [T])
  = cellsBelow done below ++ cellsNode (nextRef done below) T.
Proof.
  revert T. induction below as [|g rest IH]; intros T.
  - simpl. rewrite cellsForest_app. simpl. by rewrite app_nil_r.
  - cbn [plug cellsBelow nextRef]. rewrite IH.
    rewrite (cellsNode_eq _ (withChildren _ _)). cbn [children withChildren].
    rewrite refsFrom_app, cellsForest_app. simpl.
    rewrite <- (assoc_L (++)). simpl. rewrite app_nil_r.
    replace (S (nextRef done rest + sizeAll (children g)))
      with (nextRef done rest + 1 + sizeAll (children g)) by lia.
    done.
Qed.

Lemma refs_plug done below T :
  refsFrom 0 (done ++ plug below [T]) = refsFrom 0 done ++ [sizeAll done].
Proof.
  destruct (plug_singleton below T) as [T' ->].
  by rewrite refsFrom_app.
Qed.

Lemma top_cell done below f :
  cellsForest 0 (done ++ plug below [f]) !! nextRef done below
  = Some (objOf f (refsFrom (S (nextRef done below)) (children f))).
Proof.
  rewrite cells_plug, cellsNode_eq.
  rewrite <- (length_cellsBelow done below) at 1.
  by rewrite list_lookup_middle.
Qed.

Lemma pop_forest d done above frames :
  forestOf (popFrames d done above frames).1 (popFrames d done above frames).2
  = done ++ plug frames above.
Proof.
  revert above. induction frames as [|f below IH]; intros above; simpl.
  - unfold forestOf. simpl. by rewrite app_nil_r.
  - destruct (decide (d ≤ depth f)); [by rewrite IH|].
    unfold forestOf. simpl. by rewrite app_nil_r.
Qed.

Lemma pop_stack d done above frames :
  popDeeper (cellsForest 0 (done ++ plug frames above)) d
            (stackRefs done frames)
  = stackRefs (popFrames d done above frames).1
              (popFrames d done above frames).2.
Proof.
  revert above. induction frames as [|f below IH]; intros above;
    [done|].
  cbn [stackRefs popDeeper plug popFrames]. rewrite top_cell. simpl.
  destruct (decide (d ≤ depth f)); [by rewrite <- IH|done].
Qed.

Lemma holds_empty : holds (mkParseState [] [] []) ([], []).
Proof. done. Qed.

(** One iteration of the parser is one step of the zipper. *)
Lemma parseLine_holds now st z index line :
  holds st z → holds (parseLine now st index line) (zipLine now z index line).
Proof.
  destruct z as [done frames]. intros (Hheap & Hroots & Hstack).
  unfold parseLine, zipLine. simpl in *.
  pose proof (pop_forest (getIndentDepth line) done [] frames) as Hforest.
  pose proof (pop_stack (getIndentDepth line) done [] frames) as Hpop.
  unfold forestOf in Hheap, Hroots. rewrite <- Hheap, <- Hstack in Hpop.
  rewrite <- Hforest in Hheap, Hroots. rewrite Hpop. clear Hpop Hforest Hstack.
  destruct (popFrames (getIndentDepth line) done [] frames) as [done1 frames1].
  simpl in *.
  assert (length (heap st) = nextRef done1 frames1) as Hlen.
  { rewrite Hheap, length_cellsForest. unfold forestOf.
    rewrite sizeAll_plug. simpl. lia. }
  destruct frames1 as [|f below]; simpl.
  - unfold holds, forestOf in *. simpl in *.
    rewrite app_nil_r in Hheap, Hroots.
    rewrite cellsForest_app, refsFrom_app, <- Hheap, <- Hroots, Hlen. simpl.
    by rewrite ?Nat.add_0_r, ?app_nil_r.
  - unfold holds, forestOf in *. cbn [plug fst snd stackRefs] in *.
    rewrite withChildren_nil_r in Hheap, Hroots.
    cbn [children withChildren app heap nodes_arr stack].
    assert (heap st !! nextRef done1 below
            = Some (objOf f (refsFrom (S (nextRef done1 below)) (children f))))
      as Hcell by (rewrite Hheap; apply top_cell).
    rewrite Hlen, Hcell. cbn [nextRef]. simpl.
    split; [|split; [by rewrite Hroots, !refs_plug|done]].
    rewrite cells_plug, Hheap, cells_plug, !cellsNode_eq.
    cbn [children withChildren].
    rewrite <- (assoc_L (++)).
    rewrite alter_app_r_alt by (rewrite length_cellsBelow; lia).
    rewrite length_cellsBelow, Nat.sub_diag. simpl.
    rewrite refsFrom_app, cellsForest_app. simpl.
    replace (S (nextRef done1 below + sizeAll (children f)))
      with (nextRef done1 below + 1 + sizeAll (children f)) by lia.
    done.
Qed.

Lemma parseLines_holds clock lines :
  ∀ st z index,
    holds st z →
    holds (parseLines clock st index lines) (zipLines clock z index lines).
Proof.
  induction lines as [|line lines IH]; intros st z index Hz; [done|].
  simpl. by apply IH, parseLine_holds.
Qed.

Lemma sizeOf_le_sizeAll l n : n ∈ l → sizeOf n ≤ sizeAll l.
Proof.
  induction l as [|m l IH]; [by intros ?%elem_of_nil|].
  rewrite elem_of_cons, sizeAll_cons. intros [->|Hin]; [lia|].
  specialize (IH Hin). lia.
Qed.

Lemma reify_S fuel h ref :
  reify (S fuel) h ref =
    match h !! ref with
    | Some o => [mkNode (o_id o) (o_text o) (o_depth o)
                        (o_children o ≫= reify fuel h)
                        (o_isExpanded o) (o_parent o)]
    | None => []
    end.
Proof. done. Qed.

(** Reading the store back gives the tree whose objects it holds. *)
Lemma reify_cells l :
  ∀ b (pre post : list Obj) fuel,
    length pre = b → Forall (fun n => sizeOf n ≤ fuel) l →
    refsFrom b l ≫= reify fuel (pre ++ cellsForest b l ++ post) = l.
Proof.
  induction l as [|n l IHc IHl] using forest_ind;
    intros b pre post fuel Hpre Hfuel; [done|].
  apply Forall_cons in Hfuel as [Hn Hl].
  cbn [refsFrom cellsForest]. rewrite bind_cons.
  rewrite <- (assoc_L (++) (cellsNode b n)).
  rewrite (assoc_L (++) pre (cellsNode b n)).
  rewrite (IHl (b + sizeOf n) (pre ++ cellsNode b n) post fuel);
    [|by rewrite length_app, length_cellsNode, Hpre|done].
  rewrite <- (assoc_L (++) pre), cellsNode_eq.
  destruct fuel as [|fuel]; [rewrite sizeOf_eq in Hn; lia|].
  rewrite reify_S, <- app_comm_cons, list_lookup_middle by done.
  cbn [objOf o_id o_text o_depth o_children o_isExpanded o_parent].
  replace (pre ++ objOf n (refsFrom (S b) (children n))
               :: cellsForest (S b) (children n)
               ++ cellsForest (b + sizeOf n) l ++ post)
    with ((pre ++ [objOf n (refsFrom (S b) (children n))])
          ++ cellsForest (S b) (children n)
          ++ (cellsForest (b + sizeOf n) l ++ post))
    by by rewrite <- (assoc_L (++)).
  rewrite IHc.
  - by destruct n.
  - rewrite length_app. simpl. lia.
  - apply Forall_forall. intros c Hc%sizeOf_le_sizeAll.
    rewrite sizeOf_eq in Hn. lia.
Qed.

(** The parser returns the tree of the zipper run over the same lines. *)
Lemma parse_forest clock text :
  parseTextToTree clock text
  = forestOf (zipLines clock ([], []) 0 (retainedLines text)).1
             (zipLines clock ([], []) 0 (retainedLines text)).2.
Proof.
  unfold parseTextToTree.
  destruct (parseLines_holds clock (retainedLines text) _ _ 0 holds_empty)
    as (Hheap & Hroots & _).
  rewrite Hroots, Hheap, length_cellsForest.
  set (F := forestOf _ _).
  rewrite <- (app_nil_r (cellsForest 0 F)).
  apply (reify_cells F 0 [] []); [done|].
  apply Forall_forall. intros n. apply sizeOf_le_sizeAll.
Qed.

Lemma plug_obs {B} (obs : TreeNode → B) frames above above' (E : list B) :
  (∀ n cs, obs (withChildren n cs) = obs n) →
  obs <$> allNodes above' = (obs <$> allNodes above) ++ E →
  obs <$> allNodes (plug frames above')
  = (obs <$> allNodes (plug frames above)) ++ E.
Proof.
  intros Hobs. revert above above'.
  induction frames as [|f below IH]; intros above above' HE; [done|].
  simpl. apply IH.
  rewrite !allNodes_cons. cbn [children withChildren].
  rewrite !allNodes_app, !fmap_cons, !fmap_app, !Hobs, HE. simpl.
  by rewrite !app_nil_r, <- !(assoc_L (++)).
Qed.

Lemma zipLine_depthText now done frames index line :
  depthText <$> allNodes
    (forestOf (zipLine now (done, frames) index line).1
              (zipLine now (done, frames) index line).2)
  = (depthText <$> allNodes (forestOf done frames))
    ++ [(getIndentDepth line, trim (stripLeadingTabs line))].
Proof.
  unfold zipLine. cbn [fst snd].
  pose proof (pop_forest (getIndentDepth line) done [] frames) as Hpop.
  destruct (popFrames (getIndentDepth line) done [] frames) as [done1 frames1].
  cbn [fst snd] in *. unfold forestOf in *.
  rewrite <- Hpop. cbn [plug children withChildren app].
  rewrite !allNodes_app, !fmap_app, <- (assoc_L (++)). f_equal.
  apply plug_obs; [done|].
  by rewrite allNodes_cons.
Qed.

Lemma zipLines_depthText clock lines :
  ∀ z index,
    depthText <$> allNodes
      (forestOf (zipLines clock z index lines).1
                (zipLines clock z index lines).2)
    = (depthText <$> allNodes (forestOf z.1 z.2))
      ++ ((fun line => (getIndentDepth line, trim (stripLeadingTabs line)))
            <$> lines).
Proof.
  induction lines as [|line lines IH]; intros z index.
  - simpl. by rewrite app_nil_r.
  - simpl. rewrite IH. destruct z as [done frames].
    rewrite zipLine_depthText. by rewrite <- (assoc_L (++)).
Qed.

(** Every node of the parsed tree is a retained line, in order: its depth
    is the number of leading tabs, its text the trimmed rest. *)
Lemma parse_depthText clock text :
  depthText <$> allNodes (parseTextToTree clock text)
  = (fun line => (getIndentDepth line, trim (stripLeadingTabs line)))
      <$> retainedLines text.
Proof. by rewrite parse_forest, zipLines_depthText. Qed.

Lemma serializeTraverse_eq lines n :
  serializeTraverse lines n
  = foldl serializeTraverse (lines ++ [tabs (depth n) ++ text n]) (children n).
Proof. by destruct n. Qed.

Lemma serializeTraverse_depthText l :
  ∀ lines,
    foldl serializeTraverse lines l
    = lines ++ ((fun dt => tabs dt.1 ++ dt.2) <$> (depthText <$> allNodes l)).
Proof.
  induction l as [|n l IHc IHl] using forest_ind; intros lines.
  - simpl. by rewrite app_nil_r.
  - simpl foldl. rewrite serializeTraverse_eq, IHc, IHl.
    rewrite allNodes_cons, !fmap_cons, !fmap_app.
    by rewrite <- !(assoc_L (++)).
Qed.

Lemma serialize_parse clock text :
  serializeTreeToText (parseTextToTree clock text)
  = join_lines (normalLine <$> retainedLines text).
Proof.
  unfold serializeTreeToText.
  rewrite serializeTraverse_depthText, parse_depthText, <- list_fmap_compose.
  done.
Qed.

Lemma pop_levelled d done above frames :
  Forall (Levelled 0) done → framesOk frames →
  Forall (Levelled (length frames)) above → d ≤ length frames →
  Forall (Levelled 0) (popFrames d done above frames).1
  ∧ framesOk (popFrames d done above frames).2
  ∧ length (popFrames d done above frames).2 = d.
Proof.
  intros Hdone. revert above.
  induction frames as [|f below IH]; intros above Hframes Habove Hd; simpl.
  - split; [by apply Forall_app|]. split; [done|]. simpl in Hd. lia.
  - destruct Hframes as (Hf & Hkids & Hbelow). simpl in Hd, Habove.
    assert (Levelled (length below)
              (withChildren f (children f ++ above))) as Hf'.
    { constructor; [done|]. simpl. by apply Forall_app. }
    destruct (decide (d ≤ depth f)) as [Hle|Hgt].
    + apply IH; [done|by constructor|lia].
    + simpl. split; [done|]. split; [|lia].
      split; [done|]. split; [by apply Forall_app|done].
Qed.

Lemma plug_levelled frames above :
  framesOk frames → Forall (Levelled (length frames)) above →
  Forall (Levelled 0) (plug frames above).
Proof.
  revert above. induction frames as [|f below IH]; intros above Hframes Habove;
    [done|].
  destruct Hframes as (Hf & Hkids & Hbelow). simpl. apply IH; [done|].
  constructor; [|done]. constructor; [done|]. simpl. by apply Forall_app.
Qed.

Lemma zipLines_levelled clock lines :
  ∀ z index,
    Forall (Levelled 0) z.1 → framesOk z.2 →
    indentedWithin (length z.2) lines →
    Forall (Levelled 0)
      (forestOf (zipLines clock z index lines).1
                (zipLines clock z index lines).2).
Proof.
  induction lines as [|line lines IH]; intros [done frames] index Hdone Hframes Hind.
  - simpl in *. unfold forestOf. apply Forall_app. split; [done|].
    by apply plug_levelled.
  - destruct Hind as [Hd Hrest]. simpl in *.
    destruct (pop_levelled (getIndentDepth line) done [] frames)
      as (Hdone1 & Hframes1 & Hlen); [done..|].
    apply IH; unfold zipLine; simpl.
    + done.
    + rewrite Hlen. split; [done|]. split; [done|done].
    + by rewrite Hlen.
Qed.

Lemma Levelled_inside d l p :
  Forall (Levelled d) l → p ∈ allNodes l → ∃ d', Levelled d' p.
Proof.
  revert d. induction l as [|n l IHc IHl] using forest_ind; intros d Hall;
    [by intros ?%elem_of_nil|].
  apply Forall_cons in Hall as [Hn Hl].
  rewrite allNodes_cons, elem_of_cons, elem_of_app.
  intros [->|[Hin|Hin]]; [by exists d| |by eapply IHl].
  inversion Hn; subst. by eapply IHc.
Qed.

Lemma Levelled_consistent l : Forall (Levelled 0) l → depthConsistent l.
Proof.
  intros Hall. split.
  - intros r Hr. rewrite Forall_forall in Hall.
    specialize (Hall r Hr). by inversion Hall.
  - intros p c Hp Hc.
    destruct (Levelled_inside 0 l p Hall Hp) as [d Hd].
    inversion Hd as [? ? Hdp Hkids]; subst.
    rewrite Forall_forall in Hkids. specialize (Hkids c Hc).
    inversion Hkids. lia.
Qed.

End Parser.

(** C2.  For a text all of whose lines are clean (not blank, tabs only in
    front, no white space at the edges of the text after the tabs),
    serializing the parsed tree gives the text back, character for
    character, also when the input has one more line feed at its end; the
    nodes are the lines, in order, each with its number of leading tabs as
    depth and the rest of the line as text. *)
Theorem parse_serialize_roundtrip (clock : nat → N) (T : jstring) :
  Forall cleanLine (split_lines T) →
  serializeTreeToText (parseTextToTree clock T) = T
  ∧ serializeTreeToText (parseTextToTree clock (T ++ [LF])) = T
  ∧ depthText <$> allNodes (parseTextToTree clock T)
    = (fun line => (getIndentDepth line, stripLeadingTabs line))
        <$> split_lines T.
Proof.
  intros Hclean.
  assert (normalLine <$> split_lines T = split_lines T) as Hnorm.
  { rewrite <- (list_fmap_id (split_lines T)) at 2. apply Forall_fmap_ext_1.
    eapply Forall_impl; [done|]. intros l. apply normalLine_clean. }
  assert (retainedLines T = split_lines T) as Hkept.
  { rewrite <- (join_split T) at 1. by apply retainedLines_join. }
  split; [|split].
  - by rewrite serialize_parse, Hkept, Hnorm, join_split.
  - by rewrite serialize_parse, retainedLines_snoc, Hkept, Hnorm, join_split.
  - rewrite parse_depthText, Hkept.
    apply Forall_fmap_ext_1. eapply Forall_impl; [done|].
    intros l (_ & _ & ->). done.
Qed.

Lemma parse_serialize_roundtrip_witness :
  Forall cleanLine (split_lines sample)
  ∧ serializeTreeToText (parseTextToTree (fun _ => 0%N) sample) = sample
  ∧ serializeTreeToText (parseTextToTree (fun _ => 0%N) (sample ++ [LF]))
    = sample.
Proof.
  assert (Forall cleanLine (split_lines sample)) as Hclean.
  { apply (bool_decide_unpack _). vm_compute. exact I. }
  destruct (parse_serialize_roundtrip (fun _ => 0%N) sample Hclean)
    as (H1 & H2 & _).
  exact (conj Hclean (conj H1 H2)).
Defined.

(** C3, as stated, fails: the depth of a node is the number of leading tabs
    of its line, whatever the line before.  A text whose first line is
    indented gives a root of depth 1; a line with two tabs after a line with
    none gives a child of depth 2 under a parent of depth 0. *)
Lemma parser_keeps_literal_depth :
  depth <$> parseTextToTree (fun _ => 0%N) indentedFirstLine = [1]
  ∧ depthText <$> allNodes (parseTextToTree (fun _ => 0%N) jumpingText)
    = [(0, str "A"); (2, str "B")]
  ∧ (length <$> (children <$> parseTextToTree (fun _ => 0%N) jumpingText)) = [1]
  ∧ ¬ depthConsistent (parseTextToTree (fun _ => 0%N) indentedFirstLine)
  ∧ ¬ depthConsistent (parseTextToTree (fun _ => 0%N) jumpingText).
Proof.
  split; [by vm_compute|]. split; [by vm_compute|]. split; [by vm_compute|].
  split.
  - intros [Hroots _].
    specialize (Hroots (mkNode (parsedId 0 0) [65%N] 1 [] true None)).
    assert (depth (mkNode (parsedId 0 0) [65%N] 1 [] true None) = 0) as Habs.
    { apply Hroots. vm_compute. by left. }
    discriminate Habs.
  - intros [_ Hpairs].
    set (b := mkNode (parsedId 0 1) (str "B") 2 [] true
                (Some (mkParentRef (parsedId 0 0) 0 None))).
    set (a := mkNode (parsedId 0 0) (str "A") 0 [b] true None).
    assert (depth b = depth a + 1) as Habs.
    { apply Hpairs; vm_compute; by left. }
    discriminate Habs.
Qed.

(** C3, amended.  The depth of every node is the number of leading tabs of
    its line; when the first retained line is not indented and no retained
    line has more than one tab more than the one before it, every root has
    depth 0 and every child is one deeper than its parent. *)
Theorem parser_depths (clock : nat → N) (text : jstring) :
  (depth <$> allNodes (parseTextToTree clock text)
   = getIndentDepth <$> retainedLines text)
  ∧ (wellIndented (retainedLines text) →
     depthConsistent (parseTextToTree clock text)).
Proof.
  split.
  - pose proof (parse_depthText clock text) as H.
    apply (f_equal (fmap fst)) in H.
    by rewrite <- !list_fmap_compose in H.
  - intros Hwell. rewrite parse_forest.
    by apply Levelled_consistent, zipLines_levelled.
Qed.

Lemma parser_depths_witness :
  wellIndented (retainedLines sample)
  ∧ depthConsistent (parseTextToTree (fun _ => 0%N) sample).
Proof.
  assert (wellIndented (retainedLines sample)) as Hwell.
  { vm_compute. repeat split; lia. }
  exact (conj Hwell (proj2 (parser_depths (fun _ => 0%N) sample) Hwell)).
Defined.

(** ** Searching and walking the flat list *)

Section Navigation.

Implicit Types (n c : TreeNode) (l flat : list TreeNode) (i cur : jstring).

Lemma findNodeIn_eq i n :
  findNodeIn i n = if hasId i n then Some n else findNodeById (children n) i.
Proof.
  destruct n as [a t d cs e p]. simpl. destruct (hasId _ _); [done|].
  induction cs as [|c cs IH]; [done|]. simpl. by rewrite IH.
Qed.

Lemma head_app {A} (l1 l2 : list A) :
  head (l1 ++ l2) = match head l1 with Some x => Some x | None => head l2 end.
Proof. by destruct l1. Qed.

(** [findNodeById] returns the first node with the id, in pre-order. *)
Lemma findNodeById_head l i :
  findNodeById l i = head (filter (fun n => id n = i) (allNodes l)).
Proof.
  induction l as [|n l IHc IHl] using forest_ind; [done|].
  simpl findNodeById. rewrite findNodeIn_eq, allNodes_cons, filter_cons.
  unfold hasId. destruct (decide (id n = i)) as [Heq|Hne].
  - by rewrite bool_decide_eq_true_2.
  - rewrite bool_decide_eq_false_2 by done.
    rewrite filter_app, head_app, IHc, IHl. by destruct (head _).
Qed.

Lemma findIndexFrom_app {A} (p : A → bool) (l1 l2 : list A) (k : Z) :
  Forall (fun x => p x = false) l1 →
  findIndexFrom p k (l1 ++ l2) = findIndexFrom p (k + Z.of_nat (length l1)) l2.
Proof.
  revert k. induction l1 as [|x l1 IH]; intros k Hall.
  - simpl. f_equal. lia.
  - apply Forall_cons in Hall as [Hx Hall]. simpl. rewrite Hx, IH by done.
    f_equal. lia.
Qed.

Lemma findIndexFrom_none {A} (p : A → bool) (l : list A) (k : Z) :
  Forall (fun x => p x = false) l → findIndexFrom p k l = (-1)%Z.
Proof.
  revert k. induction l as [|x l IH]; intros k Hall; [done|].
  apply Forall_cons in Hall as [Hx Hall]. simpl. by rewrite Hx, IH.
Qed.

Lemma hasId_all_false cur l :
  cur ∉ id <$> l → Forall (fun x => hasId cur x = false) l.
Proof.
  intros Hnot. apply Forall_forall. intros x Hx. apply hasId_false.
  intros Heq. apply Hnot. rewrite <- Heq. by apply list_elem_of_fmap_2.
Qed.

(** The index [findIndex] gives for the first node with the id. *)
Lemma findIndex_first cur l1 c l2 :
  cur ∉ id <$> l1 → id c = cur →
  findIndex (hasId cur) (l1 ++ c :: l2) = Z.of_nat (length l1).
Proof.
  intros Hnot Hid. unfold findIndex.
  rewrite findIndexFrom_app by by apply hasId_all_false.
  simpl. by rewrite (proj2 (hasId_true cur c)).
Qed.

Lemma findIndex_absent cur l :
  cur ∉ id <$> l → findIndex (hasId cur) l = (-1)%Z.
Proof. intros Hnot. by apply findIndexFrom_none, hasId_all_false. Qed.

(** A list splits at the first node with a given id. *)
Lemma split_first_id cur l :
  cur ∈ id <$> l →
  ∃ l1 c l2, l = l1 ++ c :: l2 ∧ id c = cur ∧ cur ∉ id <$> l1.
Proof.
  induction l as [|x l IH]; intros Hin; [by apply elem_of_nil in Hin|].
  destruct (decide (id x = cur)) as [Heq|Hne].
  - exists [], x, l. split; [done|]. split; [done|]. apply not_elem_of_nil.
  - rewrite fmap_cons in Hin. apply elem_of_cons in Hin as [Heq|Hin]; [done|].
    destruct (IH Hin) as (l1 & c & l2 & -> & Hc & Hnot).
    exists (x :: l1), c, l2. split; [done|]. split; [done|].
    rewrite fmap_cons. by apply not_elem_of_cons.
Qed.

Lemma scanDown_spec {A} (p : A → bool) (rest : list A) (k : nat) :
  match scanDown p k rest with
  | Some j => ∃ x, k ≤ j ∧ rest !! (j - k) = Some x ∧ p x = true
              ∧ Forall (fun y => p y = false) (take (j - k) rest)
  | None => Forall (fun y => p y = false) rest
  end.
Proof.
  revert k. induction rest as [|x rest IH]; intros k; [by simpl|].
  simpl. destruct (p x) eqn:Hp.
  - exists x. rewrite Nat.sub_diag. simpl. by repeat split.
  - specialize (IH (S k)). destruct (scanDown p (S k) rest) as [j|].
    + destruct IH as (y & Hle & Hy & Hpy & Hall). exists y.
      replace (j - k) with (S (j - S k)) by lia. simpl.
      split; [lia|]. split; [done|]. split; [done|]. by constructor.
    + by constructor.
Qed.

Lemma scanUp_spec {A} (p : A → bool) (arr : list A) (below : nat) :
  below ≤ length arr →
  match scanUp p arr below with
  | Some j => ∃ x, j < below ∧ arr !! j = Some x ∧ p x = true
              ∧ ∀ k y, j < k < below → arr !! k = Some y → p y = false
  | None => ∀ k y, k < below → arr !! k = Some y → p y = false
  end.
Proof.
  induction below as [|b IH]; intros Hle; [simpl; intros; lia|].
  simpl. destruct (lookup_lt_is_Some_2 arr b) as [x Hx]; [lia|].
  rewrite Hx. destruct (p x) eqn:Hp.
  - exists x. split; [lia|]. split; [done|]. split; [done|]. intros; lia.
  - specialize (IH ltac:(lia)). destruct (scanUp p arr b) as [j|].
    + destruct IH as (y & Hlt & Hy & Hpy & Hall). exists y.
      split; [lia|]. split; [done|]. split; [done|].
      intros k z Hk Hz. destruct (decide (k = b)) as [->|Hne].
      * congruence.
      * apply (Hall k z); [lia|done].
    + intros k z Hk Hz. destruct (decide (k = b)) as [->|Hne].
      * congruence.
      * apply (IH k z); [lia|done].
Qed.


Lemma getNextNode_at nodes cur l1 c l2 :
  flattenTree nodes = l1 ++ c :: l2 → id c = cur → cur ∉ id <$> l1 →
  getNextNode nodes cur = head l2.
Proof.
  intros Hflat Hid Hnot.
  unfold getNextNode, getNextNodeOptimized, getNextNodeByIndex.
  rewrite Hflat, findIndex_first by done.
  rewrite length_app. simpl length.
  destruct l2 as [|x l2].
  - rewrite decide_True by (simpl; lia). done.
  - rewrite decide_False by (simpl; lia).
    replace (Z.to_nat (Z.of_nat (length l1) + 1)) with (length l1 + 1) by lia.
    rewrite lookup_app_r by lia.
    by replace (length l1 + 1 - length l1) with 1 by lia.
Qed.

Lemma getPrevNode_at nodes cur l1 c l2 :
  flattenTree nodes = l1 ++ c :: l2 → id c = cur → cur ∉ id <$> l1 →
  getPrevNode nodes cur = last l1.
Proof.
  intros Hflat Hid Hnot.
  unfold getPrevNode, getPrevNodeOptimized, getPrevNodeByIndex.
  rewrite Hflat, findIndex_first by done.
  rewrite length_app. simpl length.
  destruct l1 as [|x l1 _] using rev_ind.
  - rewrite decide_True by (simpl; lia). done.
  - rewrite length_app. simpl length.
    rewrite decide_False by lia. rewrite last_snoc.
    replace (Z.to_nat (Z.of_nat (length l1 + 1) - 1)) with (length l1) by lia.
    rewrite <- !(assoc_L (++)). simpl. by rewrite list_lookup_middle.
Qed.

Lemma getNextNode_hidden nodes cur :
  cur ∉ id <$> flattenTree nodes → getNextNode nodes cur = None.
Proof.
  intros Hnot. unfold getNextNode, getNextNodeOptimized, getNextNodeByIndex.
  rewrite findIndex_absent by done. by rewrite decide_True by lia.
Qed.

Lemma getPrevNode_hidden nodes cur :
  cur ∉ id <$> flattenTree nodes → getPrevNode nodes cur = None.
Proof.
  intros Hnot. unfold getPrevNode, getPrevNodeOptimized, getPrevNodeByIndex.
  rewrite findIndex_absent by done. by rewrite decide_True by lia.
Qed.


Lemma atDepth_true d n : atDepth d n = true ↔ depth n = d.
Proof. unfold atDepth. by rewrite bool_decide_eq_true. Qed.

Lemma atDepth_false d n : atDepth d n = false ↔ depth n ≠ d.
Proof. unfold atDepth. by rewrite bool_decide_eq_false. Qed.

(** The scan from the top returns the first element that qualifies. *)
Lemma scanDown_head {A} (p : A → bool) (l rest : list A) (k : nat) :
  k = length l →
  scanDown p k rest ≫= (fun j => (l ++ rest) !! j)
  = head (filter (fun x => p x = true) rest).
Proof.
  revert l k. induction rest as [|x rest IH]; intros l k ->; [done|].
  simpl. rewrite filter_cons. destruct (p x) eqn:Hp.
  - rewrite decide_True by done. simpl. by rewrite list_lookup_middle.
  - rewrite decide_False by (by intros ?).
    rewrite <- (IH (l ++ [x]) (S (length l)));
      [|rewrite length_app; simpl; lia].
    by rewrite <- (assoc_L (++)).
Qed.

Lemma findNodeById_nodeMap nodes cur :
  NoDup (allIds nodes) → findNodeById nodes cur = nodeMapOf nodes !! cur.
Proof.
  intros Hnd. rewrite findNodeById_head, nodeMapOf_lookup.
  destruct (decide (cur ∈ allIds nodes)) as [Hin|Hnot].
  - apply list_elem_of_fmap_1 in Hin as (n & -> & Hn).
    by rewrite filter_id_NoDup.
  - rewrite (filter_none (fun n => id n = cur)); [done|].
    apply Forall_forall. intros n Hn Heq. apply Hnot. rewrite <- Heq.
    by apply list_elem_of_fmap_2.
Qed.

Lemma findIndex_visible cur flat :
  cur ∈ id <$> flat →
  (0 ≤ findIndex (hasId cur) flat < Z.of_nat (length flat))%Z.
Proof.
  intros Hin.
  destruct (split_first_id _ _ Hin) as (l1 & c & l2 & -> & Hc & Hnot).
  rewrite findIndex_first, length_app by done. simpl. lia.
Qed.

End Navigation.

(** X1.  [findNodeById] returns the first node, in pre-order, that has the
    id, and [null] exactly when no node of the forest has it; when the ids
    are distinct it is the node [nodeMap.get] returns. *)
Theorem findNodeById_first (nodes : list TreeNode) (i : jstring) :
  findNodeById nodes i = head (filter (fun n => id n = i) (allNodes nodes))
  ∧ (findNodeById nodes i = None ↔ i ∉ allIds nodes)
  ∧ (∀ n, findNodeById nodes i = Some n → n ∈ allNodes nodes ∧ id n = i)
  ∧ (NoDup (allIds nodes) → findNodeById nodes i = nodeMapOf nodes !! i).
Proof.
  split; [apply findNodeById_head|]. split; [|split].
  - rewrite findNodeById_head. split.
    + intros Hnone (n & -> & Hn)%list_elem_of_fmap_1.
      assert (n ∈ filter (fun x => id x = id n) (allNodes nodes)) as Hin
        by by apply list_elem_of_filter.
      destruct (filter _ (allNodes nodes)); [by apply elem_of_nil in Hin|done].
    + intros Hnot. rewrite (filter_none (fun n => id n = i)); [done|].
      apply Forall_forall. intros n Hn Heq. apply Hnot. rewrite <- Heq.
      by apply list_elem_of_fmap_2.
  - intros n. rewrite findNodeById_head. intros Hhd.
    assert (n ∈ filter (fun x => id x = i) (allNodes nodes)) as Hin.
    { destruct (filter _ (allNodes nodes)); simplify_eq/=. apply elem_of_cons.
      by left. }
    apply list_elem_of_filter in Hin. tauto.
  - intros Hnd. rewrite findNodeById_head, nodeMapOf_lookup.
    destruct (decide (i ∈ allIds nodes)) as [Hin|Hnot].
    + apply list_elem_of_fmap_1 in Hin as (n & -> & Hn).
      by rewrite filter_id_NoDup.
    + rewrite (filter_none (fun n => id n = i)); [done|].
      apply Forall_forall. intros n Hn Heq. apply Hnot. rewrite <- Heq.
      by apply list_elem_of_fmap_2.
Qed.

(** X2.  [getNextNode] and [getPrevNode] return the neighbours, in display
    order, of the first visible node with the id: its successor and its
    predecessor in the flat list of [flattenTree], [null] at the ends of the
    list and for an id that no visible node has. *)
Theorem neighbours_in_display_order (nodes : list TreeNode) (cur : jstring) :
  (∀ l1 c l2,
     flattenTree nodes = l1 ++ c :: l2 → id c = cur → cur ∉ id <$> l1 →
     getNextNode nodes cur = head l2 ∧ getPrevNode nodes cur = last l1)
  ∧ (cur ∉ id <$> flattenTree nodes →
     getNextNode nodes cur = None ∧ getPrevNode nodes cur = None).
Proof.
  split.
  - intros l1 c l2 Hflat Hid Hnot.
    by rewrite (getNextNode_at _ _ l1 c l2), (getPrevNode_at _ _ l1 c l2).
  - intros Hnot. by rewrite getNextNode_hidden, getPrevNode_hidden.
Qed.

(** X3.  When the visible nodes have distinct ids, stepping to the next
    node and back, or to the previous node and forth, returns to the node
    one started from. *)
Theorem next_prev_inverse (nodes : list TreeNode) (cur : jstring)
    (n : TreeNode) :
  NoDup (id <$> flattenTree nodes) →
  (getNextNode nodes cur = Some n →
   ∃ c, getPrevNode nodes (id n) = Some c ∧ id c = cur
        ∧ c ∈ flattenTree nodes)
  ∧ (getPrevNode nodes cur = Some n →
     ∃ c, getNextNode nodes (id n) = Some c ∧ id c = cur
          ∧ c ∈ flattenTree nodes).
Proof.
  intros Hnd. split; intros Hstep.
  - destruct (decide (cur ∈ id <$> flattenTree nodes)) as [Hin|Hnot];
      [|by rewrite getNextNode_hidden in Hstep].
    destruct (split_first_id _ _ Hin) as (l1 & c & l2 & Hflat & Hc & Hnot).
    rewrite (getNextNode_at _ _ l1 c l2) in Hstep by done.
    destruct l2 as [|x l2]; simplify_eq/=.
    exists c. split; [|split; [done|]].
    + rewrite (getPrevNode_at _ _ (l1 ++ [c]) n l2); [by rewrite last_snoc| |done|].
      * by rewrite <- (assoc_L (++)).
      * rewrite Hflat in Hnd.
        replace (l1 ++ c :: n :: l2) with ((l1 ++ [c]) ++ n :: l2) in Hnd
          by by rewrite <- (assoc_L (++)).
        rewrite fmap_app, fmap_cons in Hnd.
        apply NoDup_app in Hnd as (_ & Hdisj & _).
        intros Hn. apply (Hdisj _ Hn). apply elem_of_cons. by left.
    + rewrite Hflat. apply elem_of_app. right. apply elem_of_cons. by left.
  - destruct (decide (cur ∈ id <$> flattenTree nodes)) as [Hin|Hnot];
      [|by rewrite getPrevNode_hidden in Hstep].
    destruct (split_first_id _ _ Hin) as (l1 & c & l2 & Hflat & Hc & Hnot).
    rewrite (getPrevNode_at _ _ l1 c l2) in Hstep by done.
    destruct l1 as [|x l1 _] using rev_ind; [done|].
    rewrite last_snoc in Hstep. simplify_eq.
    exists c. split; [|split; [done|]].
    + rewrite (getNextNode_at _ _ l1 n (c :: l2)); [done| |done|].
      * by rewrite Hflat, <- (assoc_L (++)).
      * rewrite Hflat, fmap_app, fmap_app in Hnd.
        apply NoDup_app in Hnd as (Hnd & _ & _).
        apply NoDup_app in Hnd as (_ & Hdisj & _).
        intros Hn. apply (Hdisj _ Hn). apply elem_of_cons. by left.
    + rewrite Hflat. apply elem_of_app. right. apply elem_of_cons. by left.
Qed.

(** X4.  [getNextSiblingByIndex] returns the first node after the index
    whose depth is the target depth, [getPrevSiblingByIndex] the last one
    before it, whatever their parents are; both return [null] when no such
    node exists and for an index outside the array. *)
Theorem sibling_by_index (flat : list TreeNode) (currentIndex : Z) (d : nat) :
  ((currentIndex < 0 ∨ currentIndex >= Z.of_nat (length flat))%Z →
   getNextSiblingByIndex flat currentIndex d = None
   ∧ getPrevSiblingByIndex flat currentIndex d = None)
  ∧ ((0 ≤ currentIndex < Z.of_nat (length flat))%Z →
     match getNextSiblingByIndex flat currentIndex d with
     | Some n =>
         ∃ j, (currentIndex < Z.of_nat j)%Z ∧ flat !! j = Some n ∧ depth n = d
              ∧ ∀ k m, (currentIndex < Z.of_nat k)%Z → k < j →
                       flat !! k = Some m → depth m ≠ d
     | None => ∀ k m, (currentIndex < Z.of_nat k)%Z →
                      flat !! k = Some m → depth m ≠ d
     end
     ∧ match getPrevSiblingByIndex flat currentIndex d with
       | Some n =>
           ∃ j, (Z.of_nat j < currentIndex)%Z ∧ flat !! j = Some n ∧ depth n = d
                ∧ ∀ k m, j < k → (Z.of_nat k < currentIndex)%Z →
                         flat !! k = Some m → depth m ≠ d
       | None => ∀ k m, (Z.of_nat k < currentIndex)%Z →
                        flat !! k = Some m → depth m ≠ d
       end).
Proof.
  unfold getNextSiblingByIndex, getPrevSiblingByIndex. split.
  - intros Hout. by rewrite !decide_True by done.
  - intros Hin. rewrite !decide_False by lia.
    replace (Z.to_nat (currentIndex + 1)) with (S (Z.to_nat currentIndex))
      by lia.
    assert (∃ i, currentIndex = Z.of_nat i ∧ i < length flat)
      as (i & -> & Hi) by (exists (Z.to_nat currentIndex); lia).
    rewrite Nat2Z.id. clear Hin. split.
    + pose proof (scanDown_spec (atDepth d) (drop (S i) flat) (S i)) as Hscan.
      destruct (scanDown _ _ _) as [j|]; simpl.
      * destruct Hscan as (x & Hle & Hx & Hpx & Hall).
        rewrite lookup_drop in Hx.
        replace (S i + (j - S i)) with j in Hx by lia. rewrite Hx.
        exists j. split; [lia|]. split; [done|].
        split; [by apply atDepth_true|].
        intros k m Hk Hkj Hm. apply atDepth_false.
        rewrite Forall_forall in Hall. apply Hall.
        apply list_elem_of_lookup. exists (k - S i).
        rewrite lookup_take_lt by lia. rewrite lookup_drop.
        by replace (S i + (k - S i)) with k by lia.
      * intros k m Hk Hm. apply atDepth_false.
        rewrite Forall_forall in Hscan. apply Hscan.
        apply list_elem_of_lookup. exists (k - S i). rewrite lookup_drop.
        by replace (S i + (k - S i)) with k by lia.
    + pose proof (scanUp_spec (atDepth d) flat i ltac:(lia)) as Hscan.
      destruct (scanUp _ _ _) as [j|]; simpl.
      * destruct Hscan as (x & Hlt & Hx & Hpx & Hall). rewrite Hx.
        exists j. split; [lia|]. split; [done|].
        split; [by apply atDepth_true|].
        intros k m Hk Hki Hm. apply atDepth_false.
        apply (Hall k m); [lia|done].
      * intros k m Hk Hm. apply atDepth_false. apply (Hscan k m); [lia|done].
Qed.

(** The sibling searches, case by case. *)
Lemma sibling_search_cases (nodes : list TreeNode) (cur : jstring) :
  NoDup (allIds nodes) →
  getPrevSibling nodes cur
  = getPrevSiblingOptimized (flattenTree nodes) (nodeMapOf nodes) cur
  ∧ (cur ∈ id <$> flattenTree nodes →
     getNextSibling nodes cur
     = getNextSiblingOptimized (flattenTree nodes) (nodeMapOf nodes) cur)
  ∧ (cur ∉ id <$> flattenTree nodes →
     getNextSiblingOptimized (flattenTree nodes) (nodeMapOf nodes) cur = None
     ∧ ∀ c, c ∈ allNodes nodes → id c = cur →
            getNextSibling nodes cur
            = head (filter (fun n => depth n = depth c) (flattenTree nodes))).
Proof.
  intros Hnd.
  unfold getPrevSibling, getPrevSiblingOptimized, getPrevSiblingByIndex,
    getNextSibling, getNextSiblingOptimized, getNextSiblingByIndex.
  rewrite findNodeById_nodeMap by done.
  split; [|split].
  - destruct (nodeMapOf nodes !! cur) as [c|]; [simpl|done].
    destruct (decide (cur ∈ id <$> flattenTree nodes)) as [Hin|Hnot].
    + pose proof (findIndex_visible _ _ Hin). by rewrite decide_False by lia.
    + rewrite findIndex_absent by done. done.
  - intros Hin. destruct (nodeMapOf nodes !! cur) as [c|]; [simpl|done].
    pose proof (findIndex_visible _ _ Hin). by rewrite decide_False by lia.
  - intros Hnot. rewrite findIndex_absent by done. split.
    + by destruct (nodeMapOf nodes !! cur) as [c|].
    + intros c Hc <-. rewrite nodeMapOf_present by done. simpl.
      change (Z.to_nat (-1 + 1)) with 0. rewrite drop_0.
      etrans;
        [exact (scanDown_head (atDepth (depth c)) [] (flattenTree nodes) 0
                  eq_refl)|].
      f_equal. apply list_filter_iff. intros x. apply atDepth_true.
Qed.

(** X5.  With distinct ids, the sibling searches on the tree and their
    "optimized" versions on the flat list and the node map agree for every
    visible node, and [getPrevSibling] agrees with its optimized version for
    every id.  For a node hidden in a collapsed subtree
    [getNextSiblingOptimized] returns [null], while [getNextSibling] scans
    the flat list from its top and returns the first visible node at the
    depth of the hidden node: the two differ exactly when some visible node
    is at that depth. *)
Theorem sibling_search_optimized (nodes : list TreeNode) (cur : jstring) :
  NoDup (allIds nodes) →
  getPrevSibling nodes cur
  = getPrevSiblingOptimized (flattenTree nodes) (nodeMapOf nodes) cur
  ∧ (cur ∈ id <$> flattenTree nodes →
     getNextSibling nodes cur
     = getNextSiblingOptimized (flattenTree nodes) (nodeMapOf nodes) cur)
  ∧ (cur ∉ id <$> flattenTree nodes →
     getNextSiblingOptimized (flattenTree nodes) (nodeMapOf nodes) cur = None
     ∧ ∀ c, c ∈ allNodes nodes → id c = cur →
            getNextSibling nodes cur
            = head (filter (fun n => depth n = depth c) (flattenTree nodes))
            ∧ (getNextSibling nodes cur
               ≠ getNextSiblingOptimized (flattenTree nodes) (nodeMapOf nodes)
                   cur
               ↔ ∃ n, n ∈ flattenTree nodes ∧ depth n = depth c)).
Proof.
  intros Hnd.
  destruct (sibling_search_cases nodes cur Hnd) as (Hprev & Hshown & Hhidden).
  split; [exact Hprev|]. split; [exact Hshown|].
  intros Hnot. destruct (Hhidden Hnot) as [Hopt Hscan].
  split; [exact Hopt|]. intros c Hc Hid.
  split; [by apply Hscan|].
  rewrite Hopt, (Hscan c Hc Hid).
  destruct (filter _ (flattenTree nodes)) as [|n rest] eqn:Hfilter; simpl.
  - split; [done|]. intros (n & Hn & Hdepth).
    assert (n ∈ filter (fun n => depth n = depth c) (flattenTree nodes)) as Hin
      by by apply list_elem_of_filter.
    rewrite Hfilter in Hin. by apply elem_of_nil in Hin.
  - split; [|done]. intros _. exists n.
    assert (n ∈ filter (fun n => depth n = depth c) (flattenTree nodes)) as Hin
      by (rewrite Hfilter; apply list_elem_of_here).
    apply list_elem_of_filter in Hin as [Hdepth Hn]. done.
Qed.

(** ** More on the parser: ids, parent references, visibility *)

Section ParserIds.

Lemma pretty_N_char_digit x : digit (pretty_N_char x).
Proof.
  unfold digit, pretty_N_char. repeat case_match; split; by compute.
Qed.

Lemma pretty_N_go_digits x s :
  Forall digit (String.list_ascii_of_string s) →
  Forall digit (String.list_ascii_of_string (pretty_N_go x s)).
Proof.
  revert s. induction (N.lt_wf_0 x) as [x _ IH]; intros s Hs.
  assert (x = 0 ∨ 0 < x)%N as [->|Hpos] by lia.
  - by rewrite pretty_N_go_0.
  - rewrite pretty_N_go_step by done. apply IH.
    + by apply N.div_lt.
    + simpl. constructor; [apply pretty_N_char_digit|done].
Qed.

Lemma pretty_N_digits (x : N) :
  Forall digit (String.list_ascii_of_string (pretty x)).
Proof.
  unfold pretty, pretty_N. case_decide.
  - repeat constructor; by compute.
  - apply pretty_N_go_digits. constructor.
Qed.

Lemma str_digits (x : N) : Forall (fun c => (48 ≤ c ≤ 57)%N) (str (pretty x)).
Proof.
  unfold str. apply Forall_fmap. eapply Forall_impl; [apply pretty_N_digits|].
  done.
Qed.

Lemma str_inj s1 s2 : str s1 = str s2 → s1 = s2.
Proof.
  unfold str. intros Heq.
  assert (String.list_ascii_of_string s1 = String.list_ascii_of_string s2) as Hl.
  { revert Heq. generalize (String.list_ascii_of_string s1).
    generalize (String.list_ascii_of_string s2).
    intros l2 l1. revert l2. induction l1 as [|a l1 IH]; intros [|b l2] Heq;
      simplify_eq/=; [done|].
    f_equal; [|by apply IH].
    rewrite <- (Ascii.ascii_N_embedding a), <- (Ascii.ascii_N_embedding b).
    by f_equal. }
  rewrite <- (String.string_of_list_ascii_of_string s1).
  rewrite <- (String.string_of_list_ascii_of_string s2). by f_equal.
Qed.

(** Two lists that agree up to a separator absent from their first parts
    agree part by part. *)
Lemma app_sep_inj {A} (sep : A) (a1 a2 b1 b2 : list A) :
  sep ∉ a1 → sep ∉ a2 → a1 ++ sep :: b1 = a2 ++ sep :: b2 →
  a1 = a2 ∧ b1 = b2.
Proof.
  revert a2. induction a1 as [|x a1 IH]; intros [|y a2] H1 H2 Heq;
    simplify_eq/=.
  - done.
  - exfalso. apply H2. apply elem_of_cons. by left.
  - exfalso. apply H1. apply elem_of_cons. by left.
  - apply not_elem_of_cons in H1 as [_ H1].
    apply not_elem_of_cons in H2 as [_ H2].
    destruct (IH a2 H1 H2) as [-> ->]; [done|done].
Qed.

Lemma dash_not_digit (x : N) : 45%N ∉ str (pretty x).
Proof.
  intros Hin. pose proof (str_digits x) as Hd. rewrite Forall_forall in Hd.
  specialize (Hd _ Hin). lia.
Qed.

(** The ids of the parser tell the line numbers apart. *)
Lemma parsedId_inj now1 now2 index1 index2 :
  parsedId now1 index1 = parsedId now2 index2 → index1 = index2.
Proof.
  unfold parsedId. intros Heq. apply app_inv_head in Heq.
  change (str "-") with [45%N] in Heq. simpl in Heq.
  apply app_sep_inj in Heq as [_ Heq]; [|apply dash_not_digit..].
  apply str_inj in Heq. by apply (inj pretty) in Heq.
Qed.

(** What a line adds to the nodes of the zipper, for an observation that
    reads neither the children nor the parent of a node. *)
Lemma zipLine_face {B} (g : jstring → jstring → nat → bool → B)
    now done frames index line :
  let obs n := g (id n) (text n) (depth n) (isExpanded n) in
  obs <$> allNodes
    (forestOf (zipLine now (done, frames) index line).1
              (zipLine now (done, frames) index line).2)
  = (obs <$> allNodes (forestOf done frames))
    ++ [g (parsedId now index) (trim (stripLeadingTabs line))
          (getIndentDepth line) true].
Proof.
  intros obs. unfold zipLine. cbn [fst snd].
  pose proof (pop_forest (getIndentDepth line) done [] frames) as Hpop.
  destruct (popFrames (getIndentDepth line) done [] frames) as [done1 frames1].
  cbn [fst snd] in *. unfold forestOf in *.
  rewrite <- Hpop. cbn [plug children withChildren app].
  rewrite !allNodes_app, !fmap_app, <- (assoc_L (++)). f_equal.
  apply plug_obs; [done|].
  by rewrite allNodes_cons.
Qed.

Lemma zipLines_face {B} (g : jstring → jstring → nat → bool → B) clock lines :
  let obs n := g (id n) (text n) (depth n) (isExpanded n) in
  ∀ z index,
    obs <$> allNodes
      (forestOf (zipLines clock z index lines).1
                (zipLines clock z index lines).2)
    = (obs <$> allNodes (forestOf z.1 z.2))
      ++ imap (fun j line =>
                 g (parsedId (clock (index + j)) (index + j))
                   (trim (stripLeadingTabs line)) (getIndentDepth line) true)
              lines.
Proof.
  intros obs. induction lines as [|line lines IH]; intros z index.
  - simpl. by rewrite app_nil_r.
  - simpl zipLines. rewrite IH. destruct z as [done frames].
    unfold obs. rewrite (zipLine_face g). rewrite <- (assoc_L (++)).
    f_equal. simpl. rewrite Nat.add_0_r. f_equal.
    apply imap_ext. intros j x _. simpl.
    by replace (S (index + j)) with (index + S j) by lia.
Qed.

(** The ids and the flags of the parsed nodes, in pre-order. *)
Lemma parse_idFlag clock text :
  idFlag <$> allNodes (parseTextToTree clock text)
  = imap (fun j _ => (parsedId (clock j) j, true)) (retainedLines text).
Proof.
  rewrite parse_forest.
  exact (zipLines_face (fun i _ _ e => (i, e)) clock (retainedLines text)
           ([], []) 0).
Qed.

Lemma parse_ids clock text :
  allIds (parseTextToTree clock text)
  = imap (fun j _ => parsedId (clock j) j) (retainedLines text).
Proof.
  unfold allIds.
  change id with (fst ∘ idFlag). rewrite list_fmap_compose, parse_idFlag.
  rewrite fmap_imap. done.
Qed.

Lemma parse_expanded clock text n :
  n ∈ allNodes (parseTextToTree clock text) → isExpanded n = true.
Proof.
  intros Hn.
  assert (idFlag n ∈ idFlag <$> allNodes (parseTextToTree clock text)) as Hin
    by by apply list_elem_of_fmap_2.
  rewrite parse_idFlag in Hin.
  apply list_elem_of_lookup in Hin as [j Hj].
  rewrite list_lookup_imap in Hj.
  destruct (retainedLines text !! j); [|done]. simpl in Hj.
  unfold idFlag in Hj. by simplify_eq.
Qed.

Lemma NoDup_imap_inj {A B} (f : nat → A → B) (l : list A) :
  (∀ j1 j2 x1 x2, f j1 x1 = f j2 x2 → j1 = j2) → NoDup (imap f l).
Proof.
  intros Hinj. apply NoDup_alt. intros j1 j2 y.
  rewrite !list_lookup_imap. intros H1 H2.
  destruct (l !! j1) as [x1|]; [|done]. destruct (l !! j2) as [x2|]; [|done].
  simplify_eq/=. by eapply Hinj.
Qed.

Lemma parse_NoDup clock text : NoDup (allIds (parseTextToTree clock text)).
Proof.
  rewrite parse_ids. apply NoDup_imap_inj.
  intros j1 j2 _ _. apply parsedId_inj.
Qed.

End ParserIds.

Section ParserParents.

Lemma refTo_withChildren n cs : refTo (withChildren n cs) = refTo n.
Proof. done. Qed.

Lemma pop_parented d done above frames :
  Forall (Parented None) done → framesParented frames →
  Forall (Parented (topRef frames)) above →
  Forall (Parented None) (popFrames d done above frames).1
  ∧ framesParented (popFrames d done above frames).2.
Proof.
  intros Hdone. revert above.
  induction frames as [|f below IH]; intros above Hframes Habove; simpl.
  - split; [by apply Forall_app|done].
  - destruct Hframes as (Hf & Hkids & Hbelow). simpl in Habove.
    assert (Parented (topRef below)
              (withChildren f (children f ++ above))) as Hf'.
    { constructor; [done|]. simpl. by apply Forall_app. }
    destruct (decide (d ≤ depth f)) as [Hle|Hgt].
    + apply IH; [done|by constructor].
    + simpl. split; [done|]. split; [done|].
      split; [by apply Forall_app|done].
Qed.

Lemma plug_parented frames above :
  framesParented frames → Forall (Parented (topRef frames)) above →
  Forall (Parented None) (plug frames above).
Proof.
  revert above. induction frames as [|f below IH]; intros above Hframes Habove;
    [done|].
  destruct Hframes as (Hf & Hkids & Hbelow). simpl. apply IH; [done|].
  constructor; [|done]. constructor; [done|]. simpl. by apply Forall_app.
Qed.

Lemma zipLines_parented clock lines :
  ∀ z index,
    Forall (Parented None) z.1 → framesParented z.2 →
    Forall (Parented None)
      (forestOf (zipLines clock z index lines).1
                (zipLines clock z index lines).2).
Proof.
  induction lines as [|line lines IH]; intros [done frames] index Hdone Hframes.
  - simpl in *. unfold forestOf. apply Forall_app. split; [done|].
    by apply plug_parented.
  - simpl in *.
    destruct (pop_parented (getIndentDepth line) done [] frames)
      as (Hdone1 & Hframes1); [done..|].
    apply IH; unfold zipLine; simpl; [done|].
    split; [|done]. by destruct (popFrames _ _ _ _).2.
Qed.

Lemma Parented_inside q l p :
  Forall (Parented q) l → p ∈ allNodes l → ∃ q', Parented q' p.
Proof.
  revert q. induction l as [|n l IHc IHl] using forest_ind; intros q Hall;
    [by intros ?%elem_of_nil|].
  apply Forall_cons in Hall as [Hn Hl].
  rewrite allNodes_cons, elem_of_cons, elem_of_app.
  intros [->|[Hin|Hin]]; [by exists q| |by eapply IHl].
  inversion Hn; subst. by eapply IHc.
Qed.

Lemma Parented_parentsOk l : Forall (Parented None) l → parentsOk l.
Proof.
  intros Hall. split.
  - intros r Hr. rewrite Forall_forall in Hall.
    specialize (Hall r Hr). by inversion Hall.
  - intros p c Hp Hc.
    destruct (Parented_inside None l p Hall Hp) as [q Hq].
    inversion Hq as [? ? Hqp Hkids]; subst.
    rewrite Forall_forall in Hkids. specialize (Hkids c Hc).
    by inversion Hkids.
Qed.

Lemma parse_parented clock text :
  Forall (Parented None) (parseTextToTree clock text).
Proof. rewrite parse_forest. by apply zipLines_parented. Qed.

(** A forest all of whose nodes are expanded is shown whole. *)
Lemma flattenTree_all l :
  (∀ n, n ∈ allNodes l → isExpanded n = true) → flattenTree l = allNodes l.
Proof.
  induction l as [|n l IHc IHl] using forest_ind; intros Hall; [done|].
  rewrite flattenTree_cons, allNodes_cons.
  rewrite (Hall n) by (rewrite allNodes_cons; apply list_elem_of_here).
  rewrite IHc, IHl; [done| |].
  - intros x Hx. apply Hall. rewrite allNodes_cons.
    apply list_elem_of_further, elem_of_app. by right.
  - intros x Hx. apply Hall. rewrite allNodes_cons.
    apply list_elem_of_further, elem_of_app. by left.
Qed.

Lemma visibleAll_all E l :
  (∀ n, n ∈ allNodes l → id n ∈ E) → visibleAll E l = allNodes l.
Proof.
  induction l as [|n l IHc IHl] using forest_ind; intros Hall; [done|].
  rewrite visibleAll_cons, allNodes_cons.
  rewrite bool_decide_eq_true_2
    by (apply Hall; rewrite allNodes_cons; apply list_elem_of_here).
  rewrite IHc, IHl; [done| |].
  - intros x Hx. apply Hall. rewrite allNodes_cons.
    apply list_elem_of_further, elem_of_app. by right.
  - intros x Hx. apply Hall. rewrite allNodes_cons.
    apply list_elem_of_further, elem_of_app. by left.
Qed.

End ParserParents.

(** ** White space at the edges of a text *)

Section Trim.

Implicit Types (s t l ws : jstring) (c : N).

Lemma trimStart_split s : ∃ ws, s = ws ++ trimStart s ∧ blank ws.
Proof.
  induction s as [|c s (ws & IH & Hws)]; [exists []; by split; [|constructor]|].
  simpl. destruct (isWhiteSpace c) eqn:Hc.
  - exists (c :: ws). split; [by rewrite IH at 1|by constructor].
  - exists []. by split; [|constructor].
Qed.

Lemma trimStart_head s c t : trimStart s = c :: t → isWhiteSpace c = false.
Proof.
  induction s as [|x s IH]; [done|]. simpl.
  destruct (isWhiteSpace x) eqn:Hx; [done|]. by intros [= -> ->].
Qed.

Lemma trimStart_id s :
  (∀ c, head s = Some c → isWhiteSpace c = false) → trimStart s = s.
Proof.
  destruct s as [|c s]; [done|]. intros Hc. simpl. by rewrite (Hc c).
Qed.

Lemma trimStart_blank ws s : blank ws → trimStart (ws ++ s) = trimStart s.
Proof.
  unfold blank. induction 1 as [|c ws Hc Hws IH]; [done|]. simpl.
  by rewrite Hc.
Qed.

Lemma trimEnd_split s : ∃ ws, s = trimEnd s ++ ws ∧ blank ws.
Proof.
  unfold trimEnd. destruct (trimStart_split (reverse s)) as (ws & Hs & Hws).
  exists (reverse ws). split.
  - rewrite <- reverse_app, <- Hs. by rewrite reverse_involutive.
  - unfold blank. by rewrite Forall_reverse.
Qed.

Lemma trimEnd_last s c : last (trimEnd s) = Some c → isWhiteSpace c = false.
Proof.
  unfold trimEnd. rewrite last_reverse.
  destruct (trimStart (reverse s)) as [|x t] eqn:Ht; [done|].
  intros [= ->]. by apply trimStart_head in Ht.
Qed.

Lemma trimEnd_id s :
  (∀ c, last s = Some c → isWhiteSpace c = false) → trimEnd s = s.
Proof.
  intros Hc. unfold trimEnd. rewrite trimStart_id; [apply reverse_involutive|].
  intros c. rewrite head_reverse. apply Hc.
Qed.

Lemma trim_split s :
  ∃ ws1 ws2, s = ws1 ++ trim s ++ ws2 ∧ blank ws1 ∧ blank ws2.
Proof.
  destruct (trimStart_split s) as (ws1 & Hs & Hws1).
  destruct (trimEnd_split (trimStart s)) as (ws2 & Ht & Hws2).
  exists ws1, ws2. unfold trim. by rewrite <- Ht.
Qed.

Lemma trim_elem s c : c ∈ trim s → c ∈ s.
Proof.
  destruct (trim_split s) as (ws1 & ws2 & Hs & _). intros Hc.
  rewrite Hs, !elem_of_app. tauto.
Qed.

Lemma trim_head s c : head (trim s) = Some c → isWhiteSpace c = false.
Proof.
  unfold trim. destruct (trimEnd_split (trimStart s)) as (ws & Ht & _).
  destruct (trimEnd (trimStart s)) as [|x t] eqn:Hx; [done|].
  intros [= ->]. by apply (trimStart_head s c (t ++ ws)).
Qed.

Lemma trim_last s c : last (trim s) = Some c → isWhiteSpace c = false.
Proof. apply trimEnd_last. Qed.

Lemma trim_idemp s : trim (trim s) = trim s.
Proof.
  unfold trim at 1. rewrite (trimStart_id (trim s)) by apply trim_head.
  apply trimEnd_id, trim_last.
Qed.

Lemma trim_id s :
  (∀ c, head s = Some c → isWhiteSpace c = false) →
  (∀ c, last s = Some c → isWhiteSpace c = false) → trim s = s.
Proof.
  intros Hh Hl. unfold trim. rewrite trimStart_id by done. by apply trimEnd_id.
Qed.

Lemma blank_tabs d : blank (tabs d).
Proof. unfold tabs. apply Forall_replicate. reflexivity. Qed.

Lemma trim_tabs d t : trim (tabs d ++ t) = trim t.
Proof. unfold trim. by rewrite trimStart_blank by apply blank_tabs. Qed.

Lemma strip_tabs d t :
  (∀ c, head t = Some c → isWhiteSpace c = false) →
  stripLeadingTabs (tabs d ++ t) = t ∧ getIndentDepth (tabs d ++ t) = d.
Proof.
  intros Ht. unfold tabs. induction d as [|d [IH1 IH2]].
  - destruct t as [|c t]; [done|]. simpl.
    destruct (decide (c = TAB)) as [->|Hc]; [|done].
    by specialize (Ht TAB eq_refl).
  - cbn [replicate app stripLeadingTabs getIndentDepth].
    rewrite !decide_True by done. by rewrite IH1, IH2.
Qed.

Lemma cleanText_head t c :
  cleanText t → head t = Some c → isWhiteSpace c = false.
Proof.
  intros (_ & _ & Htrim) Hc. rewrite <- Htrim in Hc. by apply trim_head in Hc.
Qed.

(** The line written for a node with a clean text is a clean line, and
    carries the depth and the text. *)
Lemma cleanText_line d t :
  cleanText t →
  cleanLine (tabs d ++ t)
  ∧ getIndentDepth (tabs d ++ t) = d
  ∧ trim (stripLeadingTabs (tabs d ++ t)) = t.
Proof.
  intros Ht. pose proof Ht as (HLF & Hne & Htrim).
  destruct (strip_tabs d t) as [Hstrip Hdepth];
    [intros c; by apply cleanText_head|].
  split; [|by rewrite Hstrip].
  split; [|split].
  - rewrite elem_of_app. intros [Hin|Hin]; [|done].
    unfold tabs in Hin. by apply elem_of_replicate in Hin as [? _].
  - by rewrite trim_tabs, Htrim.
  - by rewrite Hstrip.
Qed.

Lemma split_lines_LF s : Forall (fun l => LF ∉ l) (split_lines s).
Proof.
  induction s as [|c s IH]; [repeat constructor; apply not_elem_of_nil|].
  cbn [split_lines]. destruct (decide (c = LF)) as [->|Hc].
  - constructor; [apply not_elem_of_nil|done].
  - destruct (split_lines s) as [|l ls]; [repeat constructor; set_solver|].
    apply Forall_cons in IH as [Hl Hls]. constructor; [|done].
    by apply not_elem_of_cons.
Qed.

(** The text of a retained line is clean. *)
Lemma retained_cleanText text line :
  line ∈ retainedLines text → cleanText (trim (stripLeadingTabs line)).
Proof.
  unfold retainedLines. intros [Hne Hin]%list_elem_of_filter.
  pose proof (split_lines_LF text) as HLF. rewrite Forall_forall in HLF.
  specialize (HLF _ Hin). rewrite trim_strip.
  split; [|split; [done|apply trim_idemp]].
  intros Hc. by apply trim_elem in Hc.
Qed.

Lemma normalLine_cleanLine text line :
  line ∈ retainedLines text → cleanLine (normalLine line).
Proof.
  intros Hin. unfold normalLine.
  by apply cleanText_line, (retained_cleanText text).
Qed.

End Trim.

(** ** From the tree to the text and back *)

Section Outline.

Implicit Types (n m : TreeNode) (l F G : list TreeNode) (d : nat).

Lemma outline_eq n :
  outline n = mkNode [] (text n) (depth n) (outline <$> children n) true None.
Proof. by destruct n. Qed.

Lemma serialize_lines l :
  serializeTreeToText l
  = join_lines ((fun n => tabs (depth n) ++ text n) <$> allNodes l).
Proof.
  unfold serializeTreeToText.
  by rewrite serializeTraverse_depthText, <- list_fmap_compose.
Qed.

Lemma lines_clean l :
  Forall (fun n => cleanText (text n)) (allNodes l) →
  Forall cleanLine ((fun n => tabs (depth n) ++ text n) <$> allNodes l).
Proof.
  intros Hall. apply Forall_fmap. eapply Forall_impl; [done|].
  intros n Hn. simpl. by apply cleanText_line.
Qed.

Lemma retained_serialize l :
  Forall (fun n => cleanText (text n)) (allNodes l) →
  retainedLines (serializeTreeToText l)
  = (fun n => tabs (depth n) ++ text n) <$> allNodes l.
Proof.
  intros Hall. rewrite serialize_lines. by apply retainedLines_join, lines_clean.
Qed.

Lemma indentedWithin_mono limit limit' (lines : list jstring) :
  limit ≤ limit' → indentedWithin limit lines → indentedWithin limit' lines.
Proof.
  destruct lines as [|line lines]; [done|]. simpl. intros ? [? ?].
  split; [lia|done].
Qed.

(** The lines of a levelled forest are indented step by step. *)
Lemma levelled_indented (line : TreeNode → jstring) l :
  ∀ d limit rest,
    (∀ n, n ∈ allNodes l → getIndentDepth (line n) = depth n) →
    Forall (Levelled d) l → d ≤ limit → indentedWithin d rest →
    indentedWithin limit ((line <$> allNodes l) ++ rest).
Proof.
  induction l as [|n l IHc IHl] using forest_ind;
    intros d limit rest Hline Hlev Hd Hrest.
  - simpl. by apply (indentedWithin_mono d).
  - apply Forall_cons in Hlev as [Hn Hl]. inversion Hn as [? ? Hdn Hkids]; subst.
    rewrite allNodes_cons, fmap_cons, fmap_app, <- app_comm_cons.
    rewrite <- (assoc_L (++)).
    assert (getIndentDepth (line n) = depth n) as Hd0.
    { apply Hline. rewrite allNodes_cons. apply list_elem_of_here. }
    cbn [indentedWithin]. rewrite Hd0. split; [done|].
    apply (IHc (S (depth n))); [|done|done|].
    + intros x Hx. apply Hline. rewrite allNodes_cons.
      apply list_elem_of_further, elem_of_app. by left.
    + apply (IHl (depth n)); [|done|lia|done].
      intros x Hx. apply Hline. rewrite allNodes_cons.
      apply list_elem_of_further, elem_of_app. by right.
Qed.

Lemma Levelled_deeper d l n :
  Forall (Levelled d) l → n ∈ allNodes l → d ≤ depth n.
Proof.
  revert d. induction l as [|x l IHc IHl] using forest_ind; intros d Hall;
    [by intros ?%elem_of_nil|].
  apply Forall_cons in Hall as [Hx Hl]. inversion Hx as [? ? Hdx Hkids]; subst.
  rewrite allNodes_cons, elem_of_cons, elem_of_app.
  intros [->|[Hin|Hin]]; [done| |by apply IHl].
  specialize (IHc _ Hkids Hin). lia.
Qed.

(** Two lists that consist of a part within [Q] followed by a part that does
    not start within [Q] agree part by part. *)
Lemma app_inj_pred {A} (Q : A → Prop) (a1 a2 b1 b2 : list A) :
  Forall Q a1 → Forall Q a2 →
  (∀ x, head b1 = Some x → ¬ Q x) → (∀ x, head b2 = Some x → ¬ Q x) →
  a1 ++ b1 = a2 ++ b2 → a1 = a2 ∧ b1 = b2.
Proof.
  revert a2. induction a1 as [|x a1 IH]; intros a2 H1 H2 Hb1 Hb2 Heq.
  - destruct a2 as [|y a2]; [done|]. simpl in Heq. subst b1.
    apply Forall_cons in H2 as [Hy _]. by destruct (Hb1 y).
  - apply Forall_cons in H1 as [Hx H1]. destruct a2 as [|y a2].
    + simpl in Heq. subst b2. by destruct (Hb2 x).
    + apply Forall_cons in H2 as [Hy H2]. simplify_eq/=.
      destruct (IH a2) as [-> ->]; done.
Qed.

(** A levelled forest is determined, up to what [outline] forgets, by the
    depths and texts of its nodes in pre-order. *)
Lemma outline_unique F :
  ∀ G d,
    Forall (Levelled d) F → Forall (Levelled d) G →
    depthText <$> allNodes F = depthText <$> allNodes G →
    outline <$> F = outline <$> G.
Proof.
  induction F as [|n l IHc IHl] using forest_ind; intros G d HF HG Heq.
  - destruct G as [|m G]; [done|]. by rewrite allNodes_cons in Heq.
  - destruct G as [|m G]; [by rewrite allNodes_cons in Heq|].
    apply Forall_cons in HF as [Hn Hl]. apply Forall_cons in HG as [Hm HG].
    inversion Hn as [? ? Hdn Hkn]; subst.
    inversion Hm as [? ? Hdm Hkm]; subst.
    rewrite !allNodes_cons, !fmap_cons, !fmap_app in Heq.
    injection Heq as Hdepth Htext Htail.
    apply (app_inj_pred (fun dt => depth n < dt.1)) in Htail as [Hkids Hrest].
    + rewrite !fmap_cons, !outline_eq. f_equal; [|by apply (IHl G (depth n))].
      f_equal; [done..|].
      by apply (IHc _ (S (depth n))).
    + apply Forall_fmap, Forall_forall. intros x Hx. simpl.
      pose proof (Levelled_deeper _ _ _ Hkn Hx). lia.
    + apply Forall_fmap, Forall_forall. intros x Hx. simpl.
      pose proof (Levelled_deeper _ _ _ Hkm Hx). lia.
    + intros x Hx. destruct l as [|y l]; [done|].
      rewrite allNodes_cons in Hx. simplify_eq/=.
      apply Forall_cons in Hl as [Hy _]. inversion Hy. lia.
    + intros x Hx. destruct G as [|y G]; [done|].
      rewrite allNodes_cons in Hx. simplify_eq/=.
      apply Forall_cons in HG as [Hy _]. inversion Hy. lia.
Qed.

Lemma parse_levelled clock text :
  wellIndented (retainedLines text) →
  Forall (Levelled 0) (parseTextToTree clock text).
Proof.
  intros Hwell. rewrite parse_forest. by apply zipLines_levelled.
Qed.

End Outline.

(** X6.  The ids the parser gives are pairwise distinct, whatever the clock
    returns: the id of the node of the j-th retained line ends with [j]. *)
Theorem parse_ids_distinct (clock : nat → N) (text : jstring) :
  NoDup (allIds (parseTextToTree clock text))
  ∧ allIds (parseTextToTree clock text)
    = imap (fun j _ => parsedId (clock j) j) (retainedLines text).
Proof. split; [apply parse_NoDup|apply parse_ids]. Qed.

(** X7.  In a parsed tree the roots have no parent and the [parent] field
    of every other node designates the node it is a child of. *)
Theorem parse_parent_references (clock : nat → N) (text : jstring) :
  parentsOk (parseTextToTree clock text).
Proof. apply Parented_parentsOk, parse_parented. Qed.

(** X8.  Every parsed node is expanded, so a parsed tree is shown whole:
    [flattenTree] lists all its nodes, and the rows of [BrowserView] mounted
    on it are the retained lines of the text, in order, each with its
    number of leading tabs as depth and its trimmed rest as text. *)
Theorem parse_all_visible (clock : nat → N) (text : jstring) :
  flattenTree (parseTextToTree clock text)
  = allNodes (parseTextToTree clock text)
  ∧ (fun r => (f_depth r, f_text r))
      <$> flatNodes (mount (parseTextToTree clock text))
    = (fun line => (getIndentDepth line, trim (stripLeadingTabs line)))
        <$> retainedLines text
  ∧ f_index <$> flatNodes (mount (parseTextToTree clock text))
    = seq 0 (length (retainedLines text)).
Proof.
  set (parsed := parseTextToTree clock text).
  assert (visibleAll (expandedIds (mount parsed)) parsed = allNodes parsed)
    as Hvis.
  { apply visibleAll_all. intros n Hn. simpl.
    apply elem_of_list_to_set, list_elem_of_fmap_2, list_elem_of_filter.
    split; [|done]. by apply (parse_expanded clock text). }
  split; [apply flattenTree_all, parse_expanded|].
  unfold flatNodes. rewrite flatNodesOf_visible.
  change (nodes (mount parsed)) with parsed.
  rewrite Hvis. split.
  - rewrite fmap_imap.
    rewrite <- (parse_depthText clock text). fold parsed.
    generalize (allNodes parsed). intros l.
    apply list_eq. intros j. rewrite list_lookup_imap, list_lookup_fmap.
    by destruct (l !! j).
  - rewrite fmap_imap.
    assert (length (retainedLines text) = length (allNodes parsed)) as ->.
    { rewrite <- (length_fmap depthText (allNodes parsed)).
      unfold parsed. by rewrite parse_depthText, length_fmap. }
    generalize (allNodes parsed). intros l.
    apply list_eq. intros j. rewrite list_lookup_imap.
    destruct (l !! j) as [x|] eqn:Hj; simpl.
    + symmetry. apply lookup_seq. split; [done|]. by eapply lookup_lt_Some.
    + symmetry. apply lookup_seq_ge. by apply lookup_ge_None.
Qed.

(** X9.  Writing the parsed tree back normalizes a text, and a normalized
    text is a fixed point: parsing it and writing it back gives the very
    same text, with the same depths and texts of the nodes. *)
Theorem normalization_idempotent (clock1 clock2 : nat → N) (text : jstring) :
  let normal := serializeTreeToText (parseTextToTree clock1 text) in
  serializeTreeToText (parseTextToTree clock2 normal) = normal
  ∧ depthText <$> allNodes (parseTextToTree clock2 normal)
    = depthText <$> allNodes (parseTextToTree clock1 text).
Proof.
  intros normal.
  assert (Forall cleanLine (normalLine <$> retainedLines text)) as Hclean.
  { apply Forall_fmap, Forall_forall. intros line Hline.
    by apply (normalLine_cleanLine text). }
  assert (retainedLines normal = normalLine <$> retainedLines text) as Hlines.
  { unfold normal. rewrite serialize_parse. by apply retainedLines_join. }
  split.
  - rewrite serialize_parse, Hlines. unfold normal. rewrite serialize_parse.
    f_equal. rewrite <- list_fmap_compose. apply list_fmap_ext.
    intros j line Hj. simpl. apply normalLine_clean.
    apply (normalLine_cleanLine text). by eapply list_elem_of_lookup_2.
  - rewrite !parse_depthText, Hlines, <- list_fmap_compose.
    apply list_fmap_ext. intros j line Hj. simpl.
    assert (cleanText (trim (stripLeadingTabs line))) as Ht.
    { apply (retained_cleanText text). by eapply list_elem_of_lookup_2. }
    unfold normalLine.
    by destruct (cleanText_line (getIndentDepth line) _ Ht) as (_ & -> & ->).
Qed.

(** X10.  From the tree to the text and back: when the text of every node
    is clean (not blank, no line feed, no white space at its edges), the
    tree parsed from the serialized text has the same nodes in the same
    order, with the same depths and texts; if moreover the depths are
    consistent (roots at 0, each child one deeper than its parent), it is
    the same tree up to the ids, the expansion flags and the parent
    references. *)
Theorem serialize_parse_roundtrip (clock : nat → N) (nodes : list TreeNode) :
  Forall (fun n => cleanText (text n)) (allNodes nodes) →
  depthText <$> allNodes (parseTextToTree clock (serializeTreeToText nodes))
  = depthText <$> allNodes nodes
  ∧ (Forall (Levelled 0) nodes →
     outline <$> parseTextToTree clock (serializeTreeToText nodes)
     = outline <$> nodes).
Proof.
  intros Hclean.
  assert (depthText
            <$> allNodes (parseTextToTree clock (serializeTreeToText nodes))
          = depthText <$> allNodes nodes) as Hflat.
  { rewrite parse_depthText, retained_serialize, <- list_fmap_compose by done.
    apply list_fmap_ext. intros j n Hj. simpl.
    rewrite Forall_forall in Hclean.
    destruct (cleanText_line (depth n) (text n)) as (_ & -> & ->); [|done].
    apply Hclean. by eapply list_elem_of_lookup_2. }
  split; [done|]. intros Hlev.
  apply (outline_unique _ _ 0); [|done|done].
  apply parse_levelled. rewrite retained_serialize by done.
  unfold wellIndented.
  rewrite <- (app_nil_r (_ <$> allNodes nodes)).
  apply (levelled_indented _ nodes 0); [|done|done|done].
  intros n Hn. rewrite Forall_forall in Hclean.
  by destruct (cleanText_line (depth n) (text n) (Hclean n Hn)) as (_ & -> & _).
Qed.

(** ** Expanding and collapsing at once *)

Section ExpandAll.

Implicit Types (n : TreeNode) (l : list TreeNode) (E acc : gset jstring)
  (st : BrowserView).

Lemma collectParents_eq acc n :
  collectParents acc n =
    if bool_decide (0 < length (children n))
    then foldl collectParents (acc ∪ {[id n]}) (children n)
    else acc.
Proof. by destruct n. Qed.

Lemma collectParents_elem l :
  ∀ acc i,
    i ∈ foldl collectParents acc l
    ↔ i ∈ acc ∨ ∃ n, n ∈ allNodes l ∧ id n = i ∧ 0 < length (children n).
Proof.
  induction l as [|n l IHc IHl] using forest_ind; intros acc i.
  - simpl. split; [by left|]. intros [?|(n & Hn & _)]; [done|].
    by apply elem_of_nil in Hn.
  - simpl foldl. rewrite IHl, collectParents_eq.
    setoid_rewrite allNodes_cons. setoid_rewrite elem_of_cons.
    setoid_rewrite elem_of_app.
    destruct (bool_decide_reflect (0 < length (children n))) as [Hkids|Hnone].
    + rewrite IHc, elem_of_union, elem_of_singleton. split.
      * intros [[[?| ->]|(x & ? & ? & ?)]|(x & ? & ? & ?)]; eauto 10.
      * intros [?|(x & [ ->|[?|?]] & ? & ?)]; eauto 10.
    + split.
      * intros [?|(x & ? & ? & ?)]; eauto 10.
      * intros [?|(x & [ ->|[Hx|?]] & ? & ?)]; eauto 10; [lia|].
        destruct (children n); [by apply elem_of_nil in Hx|simpl in Hnone; lia].
Qed.

(** Nodes without children need not be expanded to be shown whole. *)
Lemma visibleAll_parents E l :
  (∀ n, n ∈ allNodes l → 0 < length (children n) → id n ∈ E) →
  visibleAll E l = allNodes l.
Proof.
  induction l as [|n l IHc IHl] using forest_ind; intros Hall; [done|].
  rewrite visibleAll_cons, allNodes_cons.
  rewrite IHl by (intros x Hx; apply Hall; rewrite allNodes_cons;
                  apply list_elem_of_further, elem_of_app; by right).
  destruct (children n) as [|c cs] eqn:Hcs.
  - by destruct (bool_decide _).
  - rewrite bool_decide_eq_true_2.
    + rewrite IHc; [done|]. intros x Hx. apply Hall. rewrite allNodes_cons, Hcs.
      apply list_elem_of_further, elem_of_app. by left.
    + apply Hall; [rewrite allNodes_cons; apply list_elem_of_here|].
      rewrite Hcs. simpl. lia.
Qed.

Lemma visibleAll_none l : visibleAll ∅ l = l.
Proof.
  induction l as [|n l IH]; [done|].
  rewrite visibleAll_cons, IH.
  by rewrite bool_decide_eq_false_2 by apply not_elem_of_empty.
Qed.

Lemma flatNodes_rows st :
  flatNodes st = imap (rowOf (expandedIds st))
                      (visibleAll (expandedIds st) (nodes st)).
Proof. apply flatNodesOf_visible. Qed.

Lemma flatNodes_ids st :
  f_id <$> flatNodes st = id <$> visibleAll (expandedIds st) (nodes st).
Proof. apply flatNodesOf_ids. Qed.

(** The flag of a row is the membership of its id in the expanded set. *)
Lemma flatNodes_flag st r :
  r ∈ flatNodes st → f_isExpanded r = bool_decide (f_id r ∈ expandedIds st).
Proof.
  rewrite flatNodes_rows. intros [j Hj]%list_elem_of_lookup.
  rewrite list_lookup_imap in Hj.
  destruct (visibleAll _ _ !! j); by simplify_eq/=.
Qed.

End ExpandAll.

(** X11.  After "expand all" every node of the tree is a row, in pre-order;
    after "collapse all" the rows are the roots, none of them expanded. *)
Theorem expand_collapse_all (st : BrowserView) :
  flatNodes (handleExpandAll st)
  = imap (rowOf (expandedIds (handleExpandAll st))) (allNodes (nodes st))
  ∧ f_id <$> flatNodes (handleExpandAll st) = allIds (nodes st)
  ∧ f_id <$> flatNodes (handleCollapseAll st) = id <$> nodes st
  ∧ Forall (fun r => f_isExpanded r = false) (flatNodes (handleCollapseAll st)).
Proof.
  assert (visibleAll (expandedIds (handleExpandAll st)) (nodes st)
          = allNodes (nodes st)) as Hall.
  { apply visibleAll_parents. intros n Hn Hkids. simpl.
    apply collectParents_elem. right. by exists n. }
  split; [|split; [|split]].
  - rewrite flatNodes_rows. simpl nodes. by rewrite Hall.
  - rewrite flatNodes_ids. simpl nodes. by rewrite Hall.
  - rewrite flatNodes_ids. simpl. by rewrite visibleAll_none.
  - apply Forall_forall. intros r Hr. rewrite (flatNodes_flag _ r Hr). simpl.
    by apply bool_decide_eq_false_2, not_elem_of_empty.
Qed.

(** ** Toggling a whole depth, and the depth buttons *)

Section Depths.

Implicit Types (r : FlatNode) (rows : list FlatNode) (E : gset jstring)
  (st : BrowserView) (d : nat).

Lemma foldl_add_ids rows E i :
  i ∈ foldl (fun newSet r => newSet ∪ {[f_id r]}) E rows
  ↔ i ∈ E ∨ i ∈ f_id <$> rows.
Proof.
  revert E. induction rows as [|r rows IH]; intros E; simpl.
  - rewrite elem_of_nil. tauto.
  - rewrite IH, elem_of_union, elem_of_singleton, elem_of_cons. tauto.
Qed.

Lemma foldl_del_ids rows E i :
  i ∈ foldl (fun newSet r => newSet ∖ {[f_id r]}) E rows
  ↔ i ∈ E ∧ i ∉ f_id <$> rows.
Proof.
  revert E. induction rows as [|r rows IH]; intros E; simpl.
  - rewrite elem_of_nil. tauto.
  - rewrite IH, elem_of_difference, elem_of_singleton, not_elem_of_cons. tauto.
Qed.

Lemma nodesAtDepth_flags d st :
  forallb (fun r => bool_decide (f_id r ∈ expandedIds st)) (nodesAtDepth d st)
  = true
  ↔ Forall (fun r => f_isExpanded r = true) (nodesAtDepth d st).
Proof.
  rewrite forallb_forall, Forall_forall. split; intros Hall r Hr.
  - rewrite (flatNodes_flag st r).
    + apply Hall. by apply list_elem_of_In.
    + unfold nodesAtDepth in Hr. by apply list_elem_of_filter in Hr as [_ ?].
  - apply list_elem_of_In in Hr. rewrite <- (flatNodes_flag st r).
    + by apply Hall.
    + unfold nodesAtDepth in Hr. by apply list_elem_of_filter in Hr as [_ ?].
Qed.

(** What [depthCounts] holds after any number of rows. *)
Lemma depthCounts_fold rows (m : gmap nat nat) d :
  foldl (fun counts r =>
           <[f_depth r := default 0 (counts !! f_depth r) + 1]> counts) m rows
    !! d
  = if decide (d ∈ f_depth <$> rows)
    then Some (default 0 (m !! d)
               + length (filter (fun r => f_depth r = d) rows))
    else m !! d.
Proof.
  revert m. induction rows as [|r rows IH]; intros m; [done|].
  simpl foldl. rewrite IH, filter_cons, fmap_cons.
  destruct (decide (f_depth r = d)) as [Heq|Hne].
  - subst d. rewrite lookup_insert_eq. simpl.
    rewrite (decide_True (P := f_depth r ∈ f_depth r :: _))
      by apply list_elem_of_here.
    destruct (decide (f_depth r ∈ f_depth <$> rows)) as [Hin|Hnot].
    + f_equal. lia.
    + f_equal. rewrite (filter_none (fun x => f_depth x = f_depth r)); [simpl; lia|].
      apply Forall_forall. intros x Hx Heq. apply Hnot. rewrite <- Heq.
      by apply list_elem_of_fmap_2.
  - rewrite lookup_insert_ne by done.
    destruct (decide (d ∈ f_depth <$> rows)) as [Hin|Hnot].
    + by rewrite decide_True by by apply list_elem_of_further.
    + rewrite decide_False; [done|]. intros [?|?]%elem_of_cons; [congruence|done].
Qed.

Lemma depthCounts_lookup st d :
  depthCounts st !! d
  = if decide (d ∈ f_depth <$> flatNodes st)
    then Some (length (filter (fun r => f_depth r = d) (flatNodes st)))
    else None.
Proof. unfold depthCounts. rewrite depthCounts_fold, lookup_empty. done. Qed.

Lemma filter_depth_pos d rows :
  d ∈ f_depth <$> rows → 0 < length (filter (fun r => f_depth r = d) rows).
Proof.
  intros (r & -> & Hr)%list_elem_of_fmap_1.
  assert (r ∈ filter (fun x => f_depth x = f_depth r) rows) as Hin
    by by apply list_elem_of_filter.
  destruct (filter _ rows); [by apply elem_of_nil in Hin|simpl; lia].
Qed.

Lemma depth_le_maxDepth st d : d ∈ f_depth <$> flatNodes st → d ≤ maxDepth st.
Proof.
  intros Hd. unfold maxDepth. apply max_list_elem_of_le.
  apply list_elem_of_further.
  assert (is_Some (depthCounts st !! d)) as [k Hk].
  { rewrite depthCounts_lookup.
    destruct (decide (d ∈ f_depth <$> flatNodes st)); [by eexists|done]. }
  apply elem_of_map_to_list in Hk.
  by apply (list_elem_of_fmap_2 fst) in Hk.
Qed.

Lemma omap_filter_depth {B} (f : nat → option B) (g : B → nat) (P : nat → Prop)
    `{∀ x, Decision (P x)} (l : list nat) :
  (∀ x, P x → ∃ b, f x = Some b ∧ g b = x) → (∀ x, ¬ P x → f x = None) →
  g <$> omap f l = filter P l.
Proof.
  intros Hyes Hno. induction l as [|x l IH]; [done|].
  rewrite filter_cons, <- IH. cbn [omap list_omap].
  destruct (decide (P x)) as [Hx|Hx].
  - by destruct (Hyes x Hx) as (b & -> & <-).
  - by rewrite (Hno x Hx).
Qed.

End Depths.

(** X12.  Clicking the button of a depth acts on the visible rows at that
    depth that have children, and on them uniformly: if all of them are
    expanded they are all collapsed, otherwise they are all expanded; no
    other id changes its state and the tree is untouched.  Without such a
    row the click does nothing. *)
Theorem toggle_depth_uniform (d : nat) (st : BrowserView) :
  let rows := nodesAtDepth d st in
  let st' := handleToggleDepth d st in
  nodes st' = nodes st
  ∧ (rows = [] → st' = st)
  ∧ (∀ i, i ∉ f_id <$> rows → (i ∈ expandedIds st' ↔ i ∈ expandedIds st))
  ∧ (Forall (fun r => f_isExpanded r = true) rows →
     ∀ r, r ∈ rows → f_id r ∉ expandedIds st')
  ∧ (¬ Forall (fun r => f_isExpanded r = true) rows →
     ∀ r, r ∈ rows → f_id r ∈ expandedIds st').
Proof.
  intros rows st'. unfold st', handleToggleDepth. fold rows.
  destruct (decide (length rows = 0)) as [Hnone|Hsome].
  - apply nil_length_inv in Hnone. rewrite Hnone.
    split; [done|]. split; [done|]. split; [done|].
    split; [by intros _ r ?%elem_of_nil|]. intros Hnot. destruct Hnot. constructor.
  - split; [done|]. split; [by intros ->|].
    pose proof (nodesAtDepth_flags d st) as Hflags. fold rows in Hflags.
    destruct (forallb _ rows) eqn:Hall; simpl.
    + split; [|split].
      * intros i Hi. rewrite foldl_del_ids. tauto.
      * intros _ r Hr. rewrite foldl_del_ids. intros [_ Hnot].
        apply Hnot. by apply list_elem_of_fmap_2.
      * intros Hnot. destruct Hnot. by apply Hflags.
    + split; [|split].
      * intros i Hi. rewrite foldl_add_ids. tauto.
      * intros Hexp. apply Hflags in Hexp. congruence.
      * intros _ r Hr. rewrite foldl_add_ids. right.
        by apply list_elem_of_fmap_2.
Qed.

(** X13.  [depthCounts] counts the rows of each depth, no row is deeper
    than [maxDepth], and the toolbar shows, in increasing order, one button
    for each depth that some row has and no other; the chevron of a button
    points down exactly when the depth has rows with children and all of
    them are expanded. *)
Theorem depth_buttons (st : BrowserView) :
  (∀ d, default 0 (depthCounts st !! d)
        = length (filter (fun r => f_depth r = d) (flatNodes st)))
  ∧ (∀ r, r ∈ flatNodes st → f_depth r ≤ maxDepth st)
  ∧ b_depth <$> depthButtons st
    = filter (fun d => d ∈ f_depth <$> flatNodes st) (seq 0 (maxDepth st + 1))
  ∧ (∀ d, d ∈ b_depth <$> depthButtons st ↔ d ∈ f_depth <$> flatNodes st)
  ∧ (∀ b, b ∈ depthButtons st →
          b_total b = length (nodesAtDepth (b_depth b) st)
          ∧ (b_allExpanded b = true
             ↔ nodesAtDepth (b_depth b) st ≠ []
               ∧ Forall (fun r => f_isExpanded r = true)
                        (nodesAtDepth (b_depth b) st))).
Proof.
  assert (b_depth <$> depthButtons st
          = filter (fun d => d ∈ f_depth <$> flatNodes st)
                   (seq 0 (maxDepth st + 1))) as Hbuttons.
  { unfold depthButtons. apply omap_filter_depth.
    - intros d Hd. rewrite depthCounts_lookup.
      destruct (decide (d ∈ f_depth <$> flatNodes st)) as [_|?]; [|done].
      simpl. pose proof (filter_depth_pos d _ Hd).
      rewrite decide_False by lia. by eexists.
    - intros d Hd. rewrite depthCounts_lookup.
      by destruct (decide (d ∈ f_depth <$> flatNodes st)). }
  split; [|split; [|split; [done|split]]].
  - intros d. rewrite depthCounts_lookup.
    destruct (decide (d ∈ f_depth <$> flatNodes st)) as [Hin|Hnot]; [done|].
    simpl. rewrite (filter_none (fun r => f_depth r = d)); [done|].
    apply Forall_forall. intros x Hx Heq. apply Hnot. rewrite <- Heq.
    by apply list_elem_of_fmap_2.
  - intros r Hr. apply depth_le_maxDepth. by apply list_elem_of_fmap_2.
  - intros d. rewrite Hbuttons, list_elem_of_filter, elem_of_seq. split.
    + tauto.
    + intros Hd. split; [done|]. pose proof (depth_le_maxDepth st d Hd). lia.
  - intros b Hb. unfold depthButtons in Hb.
    apply list_elem_of_omap in Hb as (d & _ & Hb).
    destruct (decide (default 0 (depthCounts st !! d) = 0)); [done|].
    injection Hb as <-. simpl. split; [done|].
    rewrite andb_true_iff, !bool_decide_eq_true.
    generalize (nodesAtDepth d st). intros rows. split.
    + intros [Hpos Hcount]. split; [destruct rows; [simpl in Hpos; lia|done]|].
      clear Hpos.
      induction rows as [|r rows IH]; [constructor|].
      rewrite filter_cons in Hcount.
      pose proof (length_filter (fun n => f_isExpanded n = true) rows).
      destruct (decide (f_isExpanded r = true)) as [Hr|Hr]; simpl in Hcount;
        [|lia].
      constructor; [done|]. apply IH. lia.
    + intros [Hne Hall]. split; [destruct rows; [done|simpl; lia]|].
      by rewrite (filter_all (fun n => f_isExpanded n = true)).
Qed.

Section Mount.

Lemma visibleAll_flags (E : gset jstring) l :
  (∀ n, n ∈ allNodes l → id n ∈ E ↔ isExpanded n = true) →
  visibleAll E l = flattenTree l.
Proof.
  induction l as [|n l IHc IHl] using forest_ind; intros Hall; [done|].
  rewrite visibleAll_cons, flattenTree_cons.
  rewrite IHl by (intros x Hx; apply Hall; rewrite allNodes_cons;
                  apply list_elem_of_further, elem_of_app; by right).
  rewrite IHc by (intros x Hx; apply Hall; rewrite allNodes_cons;
                  apply list_elem_of_further, elem_of_app; by left).
  assert (id n ∈ E ↔ isExpanded n = true) as Hn
    by (apply Hall; rewrite allNodes_cons; apply list_elem_of_here).
  destruct (isExpanded n).
  - by rewrite bool_decide_eq_true_2 by by apply Hn.
  - rewrite bool_decide_eq_false_2; [done|]. intros Hin. by apply Hn in Hin.
Qed.

Lemma mount_expanded l n :
  NoDup (allIds l) → n ∈ allNodes l →
  id n ∈ expandedIds (mount l) ↔ isExpanded n = true.
Proof.
  intros Hnd Hn. simpl. rewrite elem_of_list_to_set. split.
  - intros (m & Heq & Hm)%list_elem_of_fmap_1.
    apply list_elem_of_filter in Hm as [Hexp Hm].
    by rewrite (same_id_same_node l n m).
  - intros Hexp. apply list_elem_of_fmap_2. by apply list_elem_of_filter.
Qed.

End Mount.

(** X14.  Mounted on a tree with distinct ids, [BrowserView] takes the
    expansion over from the flags of the nodes: its rows are the nodes that
    [flattenTree] lists, in the same order, with their ids, texts, depths
    and flags. *)
Theorem mount_rows (tree : list TreeNode) :
  NoDup (allIds tree) →
  (fun r => (f_id r, f_text r, f_depth r, f_isExpanded r))
    <$> flatNodes (mount tree)
  = (fun n => (id n, text n, depth n, isExpanded n)) <$> flattenTree tree.
Proof.
  intros Hnd. rewrite flatNodes_rows.
  change (nodes (mount tree)) with tree.
  rewrite (visibleAll_flags _ tree) by (intros n Hn; by apply mount_expanded).
  apply list_eq. intros j. rewrite list_lookup_fmap, list_lookup_imap.
  rewrite list_lookup_fmap.
  destruct (flattenTree tree !! j) as [n|] eqn:Hj; [simpl|done].
  do 2 f_equal.
  assert (n ∈ allNodes tree) as Hn
    by (apply flattenTree_sub; by eapply list_elem_of_lookup_2).
  pose proof (mount_expanded tree n Hnd Hn) as Hflag.
  destruct (isExpanded n).
  - by apply bool_decide_eq_true_2, Hflag.
  - apply bool_decide_eq_false_2. intros Hin. by apply Hflag in Hin.
Qed.

(** ** The invariants of the tree under the edits *)

Section Invariants.

Implicit Types (n p c tgt : TreeNode) (l : list TreeNode) (d : nat)
  (q : option ParentRef) (i : jstring).

Lemma elem_allNodes_cons x n l :
  x ∈ allNodes (n :: l) ↔ x = n ∨ x ∈ allNodes (children n) ∨ x ∈ allNodes l.
Proof. by rewrite allNodes_cons, elem_of_cons, elem_of_app. Qed.

Lemma roots_in_allNodes l n : n ∈ l → n ∈ allNodes l.
Proof.
  induction l as [|m l IH]; [by intros ?%elem_of_nil|].
  rewrite elem_of_cons, elem_allNodes_cons. intros [->|Hin]; [by left|].
  right. right. by apply IH.
Qed.

Lemma consistent_levelled l :
  ∀ d,
    (∀ r, r ∈ l → depth r = d) →
    (∀ p c, p ∈ allNodes l → c ∈ children p → depth c = depth p + 1) →
    Forall (Levelled d) l.
Proof.
  induction l as [|n l IHc IHl] using forest_ind; intros d Hroots Hkids;
    [constructor|].
  constructor.
  - constructor; [apply Hroots, list_elem_of_here|].
    apply IHc.
    + intros r Hr. rewrite (Hkids n r); [|apply elem_allNodes_cons; by left|done].
      rewrite (Hroots n) by apply list_elem_of_here. lia.
    + intros p c Hp Hc. apply Hkids; [|done].
      apply elem_allNodes_cons. right. by left.
  - apply IHl.
    + intros r Hr. by apply Hroots, list_elem_of_further.
    + intros p c Hp Hc. apply Hkids; [|done].
      apply elem_allNodes_cons. right. by right.
Qed.

Lemma depthConsistent_levelled l : depthConsistent l ↔ Forall (Levelled 0) l.
Proof.
  split; [|apply Levelled_consistent].
  intros [Hroots Hkids]. by apply consistent_levelled.
Qed.

Lemma parentsOk_parented_at l :
  ∀ q,
    (∀ r, r ∈ l → parent r = q) →
    (∀ p c, p ∈ allNodes l → c ∈ children p → parent c = Some (refTo p)) →
    Forall (Parented q) l.
Proof.
  induction l as [|n l IHc IHl] using forest_ind; intros q Hroots Hkids;
    [constructor|].
  constructor.
  - constructor; [apply Hroots, list_elem_of_here|].
    apply IHc.
    + intros r Hr. apply Hkids; [|done]. apply elem_allNodes_cons. by left.
    + intros p c Hp Hc. apply Hkids; [|done].
      apply elem_allNodes_cons. right. by left.
  - apply IHl.
    + intros r Hr. by apply Hroots, list_elem_of_further.
    + intros p c Hp Hc. apply Hkids; [|done].
      apply elem_allNodes_cons. right. by right.
Qed.

Lemma parentsOk_parented l : parentsOk l ↔ Forall (Parented None) l.
Proof.
  split; [|apply Parented_parentsOk].
  intros [Hroots Hkids]. by apply parentsOk_parented_at.
Qed.

(** A node of a forest is a root or a child of a node of the forest. *)
Lemma root_or_child l n :
  n ∈ allNodes l → n ∈ l ∨ ∃ p, p ∈ allNodes l ∧ n ∈ children p.
Proof.
  induction l as [|m l IHc IHl] using forest_ind; [by intros ?%elem_of_nil|].
  rewrite elem_allNodes_cons. intros [->|[Hin|Hin]].
  - left. apply list_elem_of_here.
  - right. destruct (IHc Hin) as [Hroot|(p & Hp & Hc)].
    + exists m. split; [apply elem_allNodes_cons; by left|done].
    + exists p. split; [apply elem_allNodes_cons; right; by left|done].
  - destruct (IHl Hin) as [Hroot|(p & Hp & Hc)].
    + left. by apply list_elem_of_further.
    + right. exists p. split; [apply elem_allNodes_cons; right; by right|done].
Qed.

(** *** Removing a subtree *)

Lemma removeNode_levelled i l d :
  Forall (Levelled d) l → Forall (Levelled d) (removeNode l i).
Proof.
  revert d. induction l as [|n l IHc IHl] using forest_ind; intros d Hall;
    [constructor|].
  apply Forall_cons in Hall as [Hn Hl]. rewrite removeNode_cons.
  destruct (decide (id n = i)); [by apply IHl|].
  constructor; [|by apply IHl].
  inversion Hn as [? ? Hd Hkids]; subst. constructor; [done|]. by apply IHc.
Qed.

Lemma removeNode_parented i l q :
  Forall (Parented q) l → Forall (Parented q) (removeNode l i).
Proof.
  revert q. induction l as [|n l IHc IHl] using forest_ind; intros q Hall;
    [constructor|].
  apply Forall_cons in Hall as [Hn Hl]. rewrite removeNode_cons.
  destruct (decide (id n = i)); [by apply IHl|].
  constructor; [|by apply IHl].
  inversion Hn as [? ? Hq Hkids]; subst. constructor; [done|]. by apply IHc.
Qed.

Lemma removeNode_sub i l x :
  x ∈ allIds (removeNode l i) → x ∈ allIds l.
Proof.
  induction l as [|n l IHc IHl] using forest_ind; [done|].
  rewrite removeNode_cons, (allIds_cons n l).
  destruct (decide (id n = i)).
  - intros Hx. apply elem_of_cons. right. apply elem_of_app. right. by apply IHl.
  - rewrite allIds_cons. cbn [id children withChildren].
    rewrite !elem_of_cons, !elem_of_app. intros [?|[?|?]]; auto.
Qed.

Lemma removeNode_NoDup i l : NoDup (allIds l) → NoDup (allIds (removeNode l i)).
Proof.
  induction l as [|n l IHc IHl] using forest_ind; [done|]. intros Hnd.
  destruct (NoDup_allIds_cons _ _ Hnd) as (Hnc & Hnl & Hndc & Hndl & Hdisj).
  rewrite removeNode_cons. destruct (decide (id n = i)); [by apply IHl|].
  rewrite allIds_cons. cbn [id children withChildren].
  apply NoDup_cons. split.
  - rewrite elem_of_app. intros [Hx|Hx]; apply removeNode_sub in Hx; done.
  - apply NoDup_app. split; [by apply IHc|]. split; [|by apply IHl].
    intros x Hx Hx'. apply removeNode_sub in Hx, Hx'. by eapply Hdisj.
Qed.

(** *** Updating one node *)

Lemma updateAt_eq i f n :
  updateAt i f n =
    if hasId i n then f n else withChildren n (updateAt i f <$> children n).
Proof. by destruct n. Qed.

Lemma updateAt_absent i f l : i ∉ allIds l → updateAt i f <$> l = l.
Proof.
  induction l as [|n l IHc IHl] using forest_ind; [done|].
  rewrite allIds_cons, fmap_cons. intros Hnot.
  rewrite not_elem_of_cons, not_elem_of_app in Hnot.
  destruct Hnot as (Hne & Hc & Hl).
  rewrite updateAt_eq. rewrite (proj2 (hasId_false i n)) by done.
  by rewrite IHc, IHl, withChildren_same.
Qed.

Lemma updateText_updateAt i newText n :
  updateText i newText n
  = updateAt i (fun node => mkNode (id node) newText (depth node)
                              (children node) (isExpanded node) (parent node)) n.
Proof.
  induction n as [a t d cs e p IH] using TreeNode_forall_ind.
  rewrite updateText_eq, updateAt_eq. destruct (hasId i _); [done|].
  f_equal. cbn [children]. apply list_fmap_ext. intros j c Hc.
  rewrite Forall_forall in IH. apply IH. by eapply list_elem_of_lookup_2.
Qed.

Lemma addChild_updateAt now i n :
  addChild now i n
  = updateAt i (fun node =>
                  mkNode (id node) (text node) (depth node)
                    (children node
                     ++ [mkNode (freshId now) [] (depth node + 1) [] true
                                (Some (refTo node))])
                    true (parent node)) n.
Proof.
  induction n as [a t d cs e p IH] using TreeNode_forall_ind.
  rewrite addChild_eq, updateAt_eq. destruct (hasId i _); [done|].
  f_equal. cbn [children]. apply list_fmap_ext. intros j c Hc.
  rewrite Forall_forall in IH. apply IH. by eapply list_elem_of_lookup_2.
Qed.

Lemma addAfter_eq parentId anchorId newNode n :
  addAfter parentId anchorId newNode n =
    if hasId parentId n then
      withChildren n
        (spliceIn (findIndex (hasId anchorId) (children n) + 1) newNode
                  (children n))
    else withChildren n (addAfter parentId anchorId newNode <$> children n).
Proof. by destruct n. Qed.

Lemma addAfter_updateAt parentId anchorId newNode n :
  addAfter parentId anchorId newNode n
  = updateAt parentId
      (fun node =>
         withChildren node
           (spliceIn (findIndex (hasId anchorId) (children node) + 1) newNode
                     (children node))) n.
Proof.
  induction n as [a t d cs e p IH] using TreeNode_forall_ind.
  rewrite addAfter_eq, updateAt_eq. destruct (hasId parentId _); [done|].
  f_equal. cbn [children]. apply list_fmap_ext. intros j c Hc.
  rewrite Forall_forall in IH. apply IH. by eapply list_elem_of_lookup_2.
Qed.

Lemma updateAt_levelled i f l :
  ∀ d,
    (∀ n d', n ∈ allNodes l → id n = i → Levelled d' n → Levelled d' (f n)) →
    Forall (Levelled d) l → Forall (Levelled d) (updateAt i f <$> l).
Proof.
  induction l as [|n l IHc IHl] using forest_ind; intros d Hf Hall;
    [constructor|].
  apply Forall_cons in Hall as [Hn Hl]. rewrite fmap_cons. constructor.
  - rewrite updateAt_eq. destruct (hasId i n) eqn:Hi.
    + apply Hf; [apply elem_allNodes_cons; by left|by apply hasId_true|done].
    + inversion Hn as [? ? Hd Hkids]; subst. constructor; [done|].
      apply IHc; [|done]. intros x d' Hx. apply Hf.
      apply elem_allNodes_cons. right. by left.
  - apply IHl; [|done]. intros x d' Hx. apply Hf.
    apply elem_allNodes_cons. right. by right.
Qed.

Lemma updateAt_parented i f l :
  ∀ q,
    (∀ n q', n ∈ allNodes l → id n = i → Parented q' n →
             Parented q' (f n) ∧ refTo (f n) = refTo n) →
    Forall (Parented q) l → Forall (Parented q) (updateAt i f <$> l).
Proof.
  induction l as [|n l IHc IHl] using forest_ind; intros q Hf Hall;
    [constructor|].
  apply Forall_cons in Hall as [Hn Hl]. rewrite fmap_cons. constructor.
  - rewrite updateAt_eq. destruct (hasId i n) eqn:Hi.
    + apply Hf; [apply elem_allNodes_cons; by left|by apply hasId_true|done].
    + inversion Hn as [? ? Hd Hkids]; subst. constructor; [done|].
      apply IHc; [|done]. intros x d' Hx. apply Hf.
      apply elem_allNodes_cons. right. by left.
  - apply IHl; [|done]. intros x d' Hx. apply Hf.
    apply elem_allNodes_cons. right. by right.
Qed.

(** Where the update takes place: the nodes in front of the subtree are
    the same up to their children (the ancestors get the updated child),
    the nodes behind it are untouched. *)
Lemma updateAt_split {B} (obs : TreeNode → B) i f l tgt :
  (∀ n cs, obs (withChildren n cs) = obs n) →
  NoDup (allIds l) → tgt ∈ allNodes l → id tgt = i →
  ∃ l1 l1' l2,
    allNodes l = l1 ++ nodesOf tgt ++ l2
    ∧ allNodes (updateAt i f <$> l) = l1' ++ nodesOf (f tgt) ++ l2
    ∧ obs <$> l1' = obs <$> l1.
Proof.
  intros Hobs. induction l as [|n l IHc IHl] using forest_ind;
    [by intros _ ?%elem_of_nil|].
  intros Hnd Hin Hid.
  destruct (NoDup_allIds_cons _ _ Hnd) as (Hnc & Hnl & Hndc & Hndl & Hdisj).
  rewrite fmap_cons, updateAt_eq.
  apply elem_allNodes_cons in Hin as [->|[Hin|Hin]].
  - rewrite (proj2 (hasId_true i n)) by done.
    rewrite updateAt_absent by by rewrite <- Hid.
    by exists [], [], (allNodes l).
  - assert (id n ≠ i) as Hne.
    { intros Heq. apply Hnc. rewrite Heq, <- Hid. by apply elem_allIds. }
    rewrite (proj2 (hasId_false i n)) by done.
    rewrite (updateAt_absent i f l).
    + destruct (IHc Hndc Hin Hid) as (l1 & l1' & l2 & Ha & Hb & Hc).
      exists (n :: l1), (withChildren n (updateAt i f <$> children n) :: l1'),
        (l2 ++ allNodes l).
      rewrite !allNodes_cons. cbn [children withChildren]. rewrite Ha, Hb.
      split; [by rewrite <- !(assoc_L (++))|].
      split; [by rewrite <- !(assoc_L (++))|].
      by rewrite !fmap_cons, Hobs, Hc.
    + intros Hl. eapply Hdisj; [|done]. rewrite <- Hid. by apply elem_allIds.
  - assert (id n ≠ i) as Hne.
    { intros Heq. apply Hnl. rewrite Heq, <- Hid. by apply elem_allIds. }
    rewrite (proj2 (hasId_false i n)) by done.
    rewrite (updateAt_absent i f (children n)), withChildren_same.
    + destruct (IHl Hndl Hin Hid) as (l1 & l1' & l2 & Ha & Hb & Hc).
      exists (nodesOf n ++ l1), (nodesOf n ++ l1'), l2.
      rewrite !allNodes_cons, Ha, Hb, (nodesOf_allNodes n).
      split; [by rewrite <- !(assoc_L (++))|].
      split; [by rewrite <- !(assoc_L (++))|].
      by rewrite !fmap_app, Hc.
    + intros Hl. eapply Hdisj; [done|]. rewrite <- Hid. by apply elem_allIds.
Qed.

End Invariants.

Section Mutators.

Implicit Types (n p c tgt : TreeNode) (l : list TreeNode) (d : nat)
  (q : option ParentRef) (i : jstring) (st : BrowserView).

Lemma updateText_ids i newText l : allIds (updateText i newText <$> l) = allIds l.
Proof.
  induction l as [|n l IHc IHl] using forest_ind; [done|].
  rewrite fmap_cons, !allIds_cons, IHl, updateText_eq.
  destruct (hasId i n); cbn [id children withChildren]; [done|].
  by rewrite IHc.
Qed.

Lemma updateText_levelled i newText l d :
  Forall (Levelled d) l → Forall (Levelled d) (updateText i newText <$> l).
Proof.
  intros Hall.
  rewrite (list_fmap_ext _ _ l (fun _ n _ => updateText_updateAt i newText n)).
  apply updateAt_levelled; [|done].
  intros n d' _ _ Hn. inversion Hn; subst. by constructor.
Qed.

Lemma updateText_parented i newText l q :
  Forall (Parented q) l → Forall (Parented q) (updateText i newText <$> l).
Proof.
  intros Hall.
  rewrite (list_fmap_ext _ _ l (fun _ n _ => updateText_updateAt i newText n)).
  apply updateAt_parented; [|done].
  intros n q' _ _ Hn. inversion Hn; subst. split; [|done]. by constructor.
Qed.

Lemma wellFormed_alt l :
  wellFormed l
  ↔ NoDup (allIds l) ∧ Forall (Levelled 0) l ∧ Forall (Parented None) l.
Proof.
  unfold wellFormed. by rewrite depthConsistent_levelled, parentsOk_parented.
Qed.

Lemma removeNode_wellFormed i l : wellFormed l → wellFormed (removeNode l i).
Proof.
  rewrite !wellFormed_alt. intros (Hnd & Hlev & Hpar).
  split; [by apply removeNode_NoDup|].
  split; [by apply removeNode_levelled|by apply removeNode_parented].
Qed.

Lemma updateText_wellFormed i newText l :
  wellFormed l → wellFormed (updateText i newText <$> l).
Proof.
  rewrite !wellFormed_alt. intros (Hnd & Hlev & Hpar).
  split; [by rewrite updateText_ids|].
  split; [by apply updateText_levelled|by apply updateText_parented].
Qed.

Lemma nodes_push newNodes st : nodes (push newNodes st) = newNodes.
Proof. done. Qed.

Lemma spliceIn_after {A} (x y : A) (cs1 cs2 : list A) :
  spliceIn (Z.of_nat (length cs1) + 1) y (cs1 ++ x :: cs2) = cs1 ++ x :: y :: cs2.
Proof.
  unfold spliceIn. rewrite length_app. simpl length.
  rewrite decide_False by lia.
  replace (Z.to_nat (Z.min _ _)) with (length (cs1 ++ [x]))
    by (rewrite length_app; simpl; lia).
  replace (cs1 ++ x :: cs2) with ((cs1 ++ [x]) ++ cs2)
    by by rewrite <- (assoc_L (++)).
  rewrite take_app_length, drop_app_length. by rewrite <- (assoc_L (++)).
Qed.

Lemma Forall_spliceIn {A} (P : A → Prop) (k : Z) (x : A) (l : list A) :
  P x → Forall P l → Forall P (spliceIn k x l).
Proof.
  intros Hx Hl. unfold spliceIn. apply Forall_app. split.
  - by apply Forall_take.
  - constructor; [done|]. by apply Forall_drop.
Qed.

(** An array of siblings splits at a node of it. *)
Lemma split_at_node (cs : list TreeNode) tgt :
  NoDup (id <$> cs) → tgt ∈ cs →
  ∃ cs1 cs2, cs = cs1 ++ tgt :: cs2
           ∧ findIndex (hasId (id tgt)) cs = Z.of_nat (length cs1).
Proof.
  intros Hnd Hin.
  apply list_elem_of_split in Hin as (cs1 & cs2 & ->).
  exists cs1, cs2. split; [done|]. apply findIndex_first; [|done].
  rewrite fmap_app, fmap_cons in Hnd.
  apply NoDup_app in Hnd as (_ & Hdisj & _).
  intros Hin. apply (Hdisj _ Hin). apply list_elem_of_here.
Qed.

Lemma NoDup_roots l : NoDup (allIds l) → NoDup (id <$> l).
Proof.
  induction l as [|n l IH]; [constructor|]. intros Hnd.
  destruct (NoDup_allIds_cons _ _ Hnd) as (Hnc & Hnl & Hndc & Hndl & Hdisj).
  rewrite fmap_cons. apply NoDup_cons. split; [|by apply IH].
  intros (m & Heq & Hm)%list_elem_of_fmap_1. apply Hnl. rewrite Heq.
  by apply elem_allIds, roots_in_allNodes.
Qed.

Lemma NoDup_children l p :
  NoDup (allIds l) → p ∈ allNodes l → NoDup (id <$> children p).
Proof.
  intros Hnd Hp. pose proof (NoDup_idsOf l p Hnd Hp) as Hp'.
  rewrite idsOf_allIds in Hp'. apply NoDup_cons in Hp' as [_ Hp'].
  by apply NoDup_roots.
Qed.

(** The ids after an update that adds one node to the subtree. *)
Lemma NoDup_added (l1 l1' sub l2 : list TreeNode) (new : jstring) l :
  allIds l = (id <$> l1) ++ (id <$> sub) ++ (id <$> l2) →
  id <$> l1' = id <$> l1 →
  NoDup (allIds l) → new ∉ allIds l →
  NoDup ((id <$> l1') ++ ((id <$> sub) ++ [new]) ++ (id <$> l2)).
Proof.
  intros Hl -> Hnd Hnew.
  assert (((id <$> l1) ++ ((id <$> sub) ++ [new]) ++ (id <$> l2))
          ≡ₚ new :: allIds l) as ->.
  { rewrite Hl. rewrite <- !(assoc_L (++)). simpl.
    rewrite (Permutation_middle _ _ new). f_equiv.
    by rewrite (Permutation_middle _ _ new). }
  by apply NoDup_cons.
Qed.


Lemma child_in_allNodes l p x : p ∈ allNodes l → x ∈ children p → x ∈ allNodes l.
Proof.
  intros Hp Hx. apply (allNodes_subtree l p); [done|].
  rewrite nodesOf_allNodes. apply list_elem_of_further.
  by apply roots_in_allNodes.
Qed.

Lemma entry_ids (l1 l2 : list TreeNode) :
  entry <$> l1 = entry <$> l2 → id <$> l1 = id <$> l2.
Proof.
  intros Heq.
  apply (f_equal (fmap (fun e : jstring * jstring * nat => e.1.1))) in Heq.
  by rewrite <- !list_fmap_compose in Heq.
Qed.

Lemma allIds_split l (l1 sub l2 : list TreeNode) :
  allNodes l = l1 ++ sub ++ l2 →
  allIds l = (id <$> l1) ++ (id <$> sub) ++ (id <$> l2).
Proof. intros Hl. unfold allIds. by rewrite Hl, !fmap_app. Qed.

Lemma allNodes_singleton n : allNodes [n] = nodesOf n.
Proof. unfold allNodes. simpl. by rewrite app_nil_r. Qed.

Lemma addChild_nodes now l :
  ∀ i, addChild now i <$> l
       = updateAt i (fun node =>
                       mkNode (id node) (text node) (depth node)
                         (children node
                          ++ [mkNode (freshId now) [] (depth node + 1) [] true
                                     (Some (refTo node))])
                         true (parent node)) <$> l.
Proof. intros i. apply list_fmap_ext. intros j n _. apply addChild_updateAt. Qed.

Lemma addAfter_nodes parentId anchorId newNode l :
  addAfter parentId anchorId newNode <$> l
  = updateAt parentId
      (fun node =>
         withChildren node
           (spliceIn (findIndex (hasId anchorId) (children node) + 1) newNode
                     (children node))) <$> l.
Proof. apply list_fmap_ext. intros j n _. apply addAfter_updateAt. Qed.

Lemma allNodes_middle (s1 s2 : list TreeNode) tgt :
  allNodes (s1 ++ tgt :: s2) = allNodes s1 ++ nodesOf tgt ++ allNodes s2.
Proof.
  by rewrite allNodes_app, (allNodes_cons tgt), nodesOf_allNodes.
Qed.

Lemma allNodes_insert (s1 s2 : list TreeNode) tgt new :
  children new = [] →
  allNodes (s1 ++ tgt :: new :: s2)
  = allNodes s1 ++ nodesOf tgt ++ new :: allNodes s2.
Proof.
  intros Hnew. rewrite allNodes_middle. do 2 f_equal.
  by rewrite allNodes_cons, Hnew.
Qed.

End Mutators.

(** X15.  Deleting a subtree and setting a text, whatever the id and the
    text, keep the invariants of the tree: distinct ids, consistent depths,
    parent references that designate the parents. *)
Theorem delete_and_setText_keep_invariants (i newText : jstring)
    (st : BrowserView) :
  wellFormed (nodes st) →
  wellFormed (nodes (handleDelete i st))
  ∧ wellFormed (nodes (handleUpdateText i newText st)).
Proof.
  intros Hwf. split.
  - by apply removeNode_wellFormed.
  - unfold handleUpdateText. destruct (decide (trim newText = [])).
    + by apply removeNode_wellFormed.
    + by apply updateText_wellFormed.
Qed.

(** X16.  Adding a child to a node of a tree with distinct ids, under an id
    that is new: the node gets a new last child, empty, one level deeper,
    referring to it as parent, and is expanded; in pre-order the new node
    comes right after the subtree of the node, and no other node changes its
    id, text or depth.  The ids stay distinct and the invariants of the
    tree are kept. *)
Theorem add_child_result (now : N) (st : BrowserView) (tgt : TreeNode) :
  NoDup (allIds (nodes st)) → tgt ∈ allNodes (nodes st) →
  freshId now ∉ allIds (nodes st) →
  let st' := handleAddChild now (id tgt) st in
  let newNode :=
    mkNode (freshId now) [] (depth tgt + 1) [] true (Some (refTo tgt)) in
  (∃ l1 l2,
     allNodes (nodes st) = l1 ++ nodesOf tgt ++ l2
     ∧ entry <$> allNodes (nodes st')
       = (entry <$> l1) ++ (entry <$> nodesOf tgt)
         ++ entry newNode :: (entry <$> l2))
  ∧ mkNode (id tgt) (text tgt) (depth tgt) (children tgt ++ [newNode]) true
           (parent tgt) ∈ allNodes (nodes st')
  ∧ id tgt ∈ expandedIds st'
  ∧ NoDup (allIds (nodes st'))
  ∧ (wellFormed (nodes st) → wellFormed (nodes st')).
Proof.
  intros Hnd Hin Hfresh st' newNode.
  assert (nodes st' = addChild now (id tgt) <$> nodes st) as Hnodes by done.
  rewrite Hnodes, addChild_nodes.
  set (f := fun node : TreeNode => mkNode _ _ _ _ _ _).
  destruct (updateAt_split entry (id tgt) f (nodes st) tgt)
    as (l1 & l1' & l2 & Hold & Hnew & Hpre); [done..|].
  assert (nodesOf (f tgt)
          = f tgt :: allNodes (children tgt) ++ [newNode]) as Hsub.
  { rewrite nodesOf_allNodes. unfold f at 2. cbn [children].
    by rewrite allNodes_app, allNodes_singleton. }
  assert (NoDup (allIds (updateAt (id tgt) f <$> nodes st))) as Hnd'.
  { unfold allIds. rewrite Hnew, !fmap_app, Hsub.
    rewrite fmap_cons, fmap_app.
    replace (id (f tgt) :: (id <$> allNodes (children tgt)) ++ (id <$> [newNode]))
      with ((id <$> nodesOf tgt) ++ [freshId now])
      by by rewrite nodesOf_allNodes.
    apply (NoDup_added l1 l1' (nodesOf tgt) l2 _ (nodes st));
      [by apply allIds_split|by apply entry_ids|done..]. }
  split; [|split; [|split; [|split]]].
  - exists l1, l2. split; [done|].
    rewrite Hnew, !fmap_app, Hpre, Hsub. f_equal.
    rewrite nodesOf_allNodes, !fmap_cons, !fmap_app. simpl.
    by rewrite <- (assoc_L (++)).
  - rewrite Hnew, Hsub. apply elem_of_app. right. apply list_elem_of_here.
  - simpl. set_solver.
  - done.
  - rewrite !wellFormed_alt. intros (_ & Hlev & Hpar).
    split; [done|]. split.
    + apply updateAt_levelled; [|done]. intros n d _ _ Hn.
      inversion Hn as [? ? Hd Hkids]; subst. constructor; [done|].
      cbn [children]. apply Forall_app. split; [done|].
      repeat constructor. simpl. lia.
    + apply updateAt_parented; [|done]. intros n q _ _ Hn.
      inversion Hn as [? ? Hq Hkids]; subst. split; [|done].
      constructor; [done|]. cbn [children]. apply Forall_app. split; [done|].
      by repeat constructor.
Qed.

(** X17.  Adding a sibling to a node of a tree with distinct ids and right
    parent references, under an id that is new: the new node, empty, at the
    depth and with the parent of the node, is put right after the node in
    the array of siblings that holds it (right after its subtree in
    pre-order), and becomes the node under edition; no other node changes
    its id, text or depth, the ids stay distinct and the invariants of the
    tree are kept. *)
Theorem add_sibling_result (now : N) (st : BrowserView) (tgt : TreeNode) :
  NoDup (allIds (nodes st)) → parentsOk (nodes st) →
  tgt ∈ allNodes (nodes st) → freshId now ∉ allIds (nodes st) →
  let st' := handleAddSibling now (id tgt) st in
  let newNode := mkNode (freshId now) [] (depth tgt) [] true (parent tgt) in
  (∃ l1 l2,
     allNodes (nodes st) = l1 ++ nodesOf tgt ++ l2
     ∧ entry <$> allNodes (nodes st')
       = (entry <$> l1) ++ (entry <$> nodesOf tgt)
         ++ entry newNode :: (entry <$> l2))
  ∧ (∃ s1 s2, s1 ++ tgt :: newNode :: s2 ∈ siblingArrays (nodes st'))
  ∧ editingId st' = Some (freshId now)
  ∧ NoDup (allIds (nodes st'))
  ∧ parentsOk (nodes st')
  ∧ (depthConsistent (nodes st) → depthConsistent (nodes st')).
Proof.
  intros Hnd Hpar Hin Hfresh st' newNode.
  pose proof (nodeMapOf_present _ _ Hnd Hin) as Hmap.
  pose proof Hpar as [Hroots Hkids].
  unfold st', handleAddSibling, nodeMap. rewrite Hmap.
  fold newNode. cbn [id].
  destruct (root_or_child _ _ Hin) as [Hroot|(p & Hp & Hc)].
  - (* the node is a root *)
    rewrite (Hroots tgt Hroot).
    destruct (split_at_node (nodes st) tgt (NoDup_roots _ Hnd) Hroot)
      as (s1 & s2 & Hsplit & Hindex).
    rewrite Hindex, Hsplit, spliceIn_after.
    cbn [nodes setEditingId onUpdateNodes editingId].
    assert (allNodes (s1 ++ tgt :: newNode :: s2)
            = allNodes s1 ++ nodesOf tgt ++ newNode :: allNodes s2) as Hnew.
    { by apply allNodes_insert. }
    assert (allNodes (s1 ++ tgt :: s2)
            = allNodes s1 ++ nodesOf tgt ++ allNodes s2) as Hold.
    { apply allNodes_middle. }
    rewrite Hsplit in Hnd, Hfresh, Hpar.
    assert (NoDup (allIds (s1 ++ tgt :: newNode :: s2))) as Hnd'.
    { unfold allIds. rewrite Hnew, !fmap_app, fmap_cons.
      replace ((id <$> nodesOf tgt) ++ id newNode :: (id <$> allNodes s2))
        with (((id <$> nodesOf tgt) ++ [freshId now]) ++ (id <$> allNodes s2))
        by by rewrite <- (assoc_L (++)).
      apply (NoDup_added (allNodes s1) (allNodes s1) (nodesOf tgt)
               (allNodes s2) (freshId now) (s1 ++ tgt :: s2));
        [by apply allIds_split|done..]. }
    split; [|split; [|split; [done|split; [done|split]]]].
    + exists (allNodes s1), (allNodes s2). split; [done|].
      rewrite Hnew, !fmap_app, fmap_cons. done.
    + exists s1, s2. apply list_elem_of_here.
    + apply parentsOk_parented. apply parentsOk_parented in Hpar.
      apply Forall_app in Hpar as [H1 H2].
      apply Forall_cons in H2 as [Ht H2].
      apply Forall_app. split; [done|]. constructor; [done|].
      constructor; [|done]. inversion Ht; subst. by repeat constructor.
    + rewrite !depthConsistent_levelled. intros Hlev.
      apply Forall_app in Hlev as [H1 H2].
      apply Forall_cons in H2 as [Ht H2].
      apply Forall_app. split; [done|]. constructor; [done|].
      constructor; [|done]. inversion Ht; subst. by repeat constructor.
  - (* the node is a child of [p] *)
    rewrite (Hkids p tgt Hp Hc). cbn [p_id refTo].
    cbn [nodes setEditingId onUpdateNodes editingId].
    rewrite addAfter_nodes.
    set (g := fun node : TreeNode => withChildren node _).
    destruct (updateAt_split entry (id p) g (nodes st) p)
      as (l1 & l1' & l2 & Hold & Hnew & Hpre); [done..|].
    destruct (split_at_node (children p) tgt (NoDup_children _ _ Hnd Hp) Hc)
      as (s1 & s2 & Hsplit & Hindex).
    assert (g p = withChildren p (s1 ++ tgt :: newNode :: s2)) as Hg.
    { unfold g. by rewrite Hindex, Hsplit, spliceIn_after. }
    assert (nodesOf (g p)
            = g p :: allNodes s1 ++ nodesOf tgt ++ newNode :: allNodes s2)
      as Hsub.
    { rewrite (nodesOf_allNodes (g p)). f_equal. rewrite Hg.
      cbn [children withChildren]. by apply allNodes_insert. }
    assert (nodesOf p = p :: allNodes s1 ++ nodesOf tgt ++ allNodes s2) as Hp'.
    { rewrite (nodesOf_allNodes p). f_equal. rewrite Hsplit.
      apply allNodes_middle. }
    assert (allNodes (nodes st)
            = (l1 ++ p :: allNodes s1) ++ nodesOf tgt ++ (allNodes s2 ++ l2))
      as Hold'.
    { rewrite Hold, Hp'.
      by repeat (rewrite <- (assoc_L (++)) || rewrite <- app_comm_cons). }
    assert (NoDup (allIds (updateAt (id p) g <$> nodes st))) as Hnd'.
    { unfold allIds. rewrite Hnew, Hsub, !fmap_app, !fmap_cons, !fmap_app.
      rewrite fmap_cons.
      replace ((id <$> l1')
               ++ (id (g p) :: (id <$> allNodes s1) ++ (id <$> nodesOf tgt)
                   ++ id newNode :: (id <$> allNodes s2)) ++ (id <$> l2))
        with ((id <$> (l1' ++ g p :: allNodes s1))
              ++ ((id <$> nodesOf tgt) ++ [freshId now])
              ++ (id <$> (allNodes s2 ++ l2))).
      - apply (NoDup_added (l1 ++ p :: allNodes s1) (l1' ++ g p :: allNodes s1)
                 (nodesOf tgt) (allNodes s2 ++ l2) (freshId now) (nodes st));
          [by apply allIds_split| |done..].
        by rewrite !fmap_app, !fmap_cons, (entry_ids _ _ Hpre), Hg.
      - rewrite !fmap_app, !fmap_cons.
        by repeat (rewrite <- (assoc_L (++)) || rewrite <- app_comm_cons). }
    split; [|split; [|split; [done|split; [done|split]]]].
    + exists (l1 ++ p :: allNodes s1), (allNodes s2 ++ l2). split; [done|].
      rewrite Hnew, Hsub, !fmap_app, !fmap_cons, !fmap_app, Hpre, Hg.
      rewrite !fmap_cons.
      by repeat (rewrite <- (assoc_L (++)) || rewrite <- app_comm_cons).
    + exists s1, s2. unfold siblingArrays. apply list_elem_of_further.
      apply list_elem_of_fmap. exists (g p). split; [by rewrite Hg|].
      rewrite Hnew, Hsub. apply elem_of_app. right. apply list_elem_of_here.
    + apply parentsOk_parented. apply parentsOk_parented in Hpar.
      apply updateAt_parented; [|done]. intros n q Hn Hid Hq.
      assert (n = p) as -> by by apply (same_id_same_node (nodes st)).
      split; [|done]. inversion Hq as [? ? Hqp Hch]; subst.
      constructor; [done|]. unfold g. cbn [children withChildren].
      apply Forall_spliceIn; [|done].
      rewrite Forall_forall in Hch. specialize (Hch tgt Hc).
      inversion Hch; subst. by repeat constructor.
    + rewrite !depthConsistent_levelled. intros Hlev.
      apply updateAt_levelled; [|done]. intros n d Hn Hid Hd.
      assert (n = p) as -> by by apply (same_id_same_node (nodes st)).
      inversion Hd as [? ? Hdp Hch]; subst.
      constructor; [done|]. unfold g. cbn [children withChildren].
      apply Forall_spliceIn; [|done].
      rewrite Forall_forall in Hch. specialize (Hch tgt Hc).
      inversion Hch; subst. by repeat constructor.
Qed.

(** X18.  [handleAddParentSibling] does nothing for an id that no node has
    and for a root; for a child it does what [handleAddSibling] does for
    the parent of the child (in a tree with distinct ids and right parent
    references). *)
Theorem add_parent_sibling (now : N) (i : jstring) (st : BrowserView) :
  NoDup (allIds (nodes st)) → parentsOk (nodes st) →
  (i ∉ allIds (nodes st) → handleAddParentSibling now i st = st)
  ∧ (∀ r, r ∈ nodes st → id r = i → handleAddParentSibling now i st = st)
  ∧ (∀ p c, p ∈ allNodes (nodes st) → c ∈ children p → id c = i →
            handleAddParentSibling now i st = handleAddSibling now (id p) st).
Proof.
  intros Hnd [Hroots Hkids]. split; [|split].
  - intros Hnot. unfold handleAddParentSibling, nodeMap.
    by rewrite nodeMapOf_absent.
  - intros r Hr <-. unfold handleAddParentSibling, nodeMap.
    rewrite nodeMapOf_present by (done || by apply roots_in_allNodes).
    by rewrite (Hroots r Hr).
  - intros p c Hp Hc <-. unfold handleAddParentSibling, handleAddSibling, nodeMap.
    rewrite (nodeMapOf_present _ c) by (done || by eapply child_in_allNodes).
    rewrite (nodeMapOf_present _ p) by done.
    rewrite (Hkids p c Hp Hc). cbn [refTo p_id p_depth p_parent].
    by destruct (parent p).
Qed.

(** ** Moves keep the nodes and the invariants *)

Section Moves.

Implicit Types (n p tgt src new : TreeNode) (l : list TreeNode) (d : nat)
  (q : option ParentRef) (i s t : jstring) (pos : DropPosition).

Lemma updateNodeDepth_levelled l :
  ∀ d q, Forall (Levelled d) ((fun c => updateNodeDepth c d q) <$> l).
Proof.
  induction l as [|n l IHc IHl] using forest_ind; intros d q; [constructor|].
  rewrite fmap_cons. constructor; [|apply IHl].
  rewrite updateNodeDepth_eq. constructor; [done|]. cbn [children].
  replace (S d) with (d + 1) by lia. apply IHc.
Qed.

Lemma updateNodeDepth_parented l :
  ∀ d q, Forall (Parented q) ((fun c => updateNodeDepth c d q) <$> l).
Proof.
  induction l as [|n l IHc IHl] using forest_ind; intros d q; [constructor|].
  rewrite fmap_cons. constructor; [|apply IHl].
  rewrite updateNodeDepth_eq. constructor; [done|]. cbn [children]. apply IHc.
Qed.

Lemma updateNodeDepth_wf n d q :
  Levelled d (updateNodeDepth n d q) ∧ Parented q (updateNodeDepth n d q).
Proof.
  pose proof (updateNodeDepth_levelled [n] d q) as H1.
  pose proof (updateNodeDepth_parented [n] d q) as H2.
  apply Forall_cons in H1 as [H1 _]. apply Forall_cons in H2 as [H2 _]. done.
Qed.

Lemma updateNodeDepth_idTexts l :
  ∀ d q,
    idText <$> allNodes ((fun c => updateNodeDepth c d q) <$> l)
    = idText <$> allNodes l.
Proof.
  induction l as [|n l IHc IHl] using forest_ind; intros d q; [done|].
  rewrite fmap_cons, !allNodes_cons, updateNodeDepth_eq.
  cbn [children]. rewrite !fmap_cons, !fmap_app, IHl, IHc. done.
Qed.

Lemma updateNodeDepth_idText n d q :
  idText <$> nodesOf (updateNodeDepth n d q) = idText <$> nodesOf n.
Proof.
  pose proof (updateNodeDepth_idTexts [n] d q) as H.
  by rewrite fmap_cons, !allNodes_singleton in H.
Qed.

(** Every node of the forest after a removal is a node of the forest, up
    to its children. *)
Lemma removeNode_from i l x :
  x ∈ allNodes (removeNode l i) →
  ∃ y, y ∈ allNodes l ∧ idText y = idText x.
Proof.
  induction l as [|n l IHc IHl] using forest_ind; [by intros ?%elem_of_nil|].
  rewrite removeNode_cons. destruct (decide (id n = i)).
  - intros (y & Hy & Heq)%IHl. exists y. split; [|done].
    apply elem_allNodes_cons. right. by right.
  - rewrite elem_allNodes_cons. cbn [children withChildren].
    intros [->|[Hx|Hx]].
    + exists n. split; [apply elem_allNodes_cons; by left|done].
    + destruct (IHc Hx) as (y & Hy & Heq). exists y. split; [|done].
      apply elem_allNodes_cons. right. by left.
    + destruct (IHl Hx) as (y & Hy & Heq). exists y. split; [|done].
      apply elem_allNodes_cons. right. by right.
Qed.

Lemma spliceIn_elem (k : Z) new l x :
  x ∈ allNodes (spliceIn k new l) → x ∈ nodesOf new ∨ x ∈ allNodes l.
Proof.
  unfold spliceIn. set (j := Z.to_nat _).
  assert (x ∈ allNodes (take j l) ∨ x ∈ allNodes (drop j l) → x ∈ allNodes l)
    as Hl.
  { rewrite <- (take_drop j l) at 3. rewrite allNodes_app, elem_of_app. tauto. }
  rewrite allNodes_app, allNodes_cons, (nodesOf_allNodes new).
  rewrite elem_of_app, !elem_of_cons, elem_of_app. tauto.
Qed.

Lemma moved_from new d q x :
  x ∈ nodesOf (updateNodeDepth new d q) →
  ∃ y, y ∈ nodesOf new ∧ idText y = idText x.
Proof.
  intros Hx.
  assert (idText x ∈ idText <$> nodesOf new) as Hin.
  { rewrite <- (updateNodeDepth_idText new d q). by apply list_elem_of_fmap_2. }
  apply list_elem_of_fmap_1 in Hin as (y & Heq & Hy). by exists y.
Qed.

(** Every node of the forest after an insertion is a node of the forest or
    of the inserted subtree, up to children, depth, flag and parent. *)
Lemma insertNode_from t new pos l x :
  x ∈ allNodes (insertNode l t new pos) →
  (∃ y, y ∈ allNodes l ∧ idText y = idText x)
  ∨ (∃ y, y ∈ nodesOf new ∧ idText y = idText x).
Proof.
  induction l as [|n l IHc IHl] using forest_ind; [by intros ?%elem_of_nil|].
  unfold insertNode in *. rewrite fmap_cons, elem_allNodes_cons.
  assert (∀ z, z ∈ allNodes (children n) → z ∈ allNodes (n :: l)) as Hsubc.
  { intros z Hz. apply elem_allNodes_cons. right. by left. }
  assert (∀ z, z ∈ allNodes l → z ∈ allNodes (n :: l)) as Hsubl.
  { intros z Hz. apply elem_allNodes_cons. right. by right. }
  assert (n ∈ allNodes (n :: l)) as Hn by (apply elem_allNodes_cons; by left).
  intros [->|[Hx|Hx]].
  - left. exists n. split; [done|]. rewrite insertNodeIn_eq.
    destruct (_ && _); [done|]. destruct (bool_decide _); [|done].
    cbv zeta. destruct (_ && _); [|done]. by destruct (_ !! _).
  - rewrite insertNodeIn_eq in Hx.
    destruct (hasId t n && bool_decide (pos = child)).
    { cbn [children] in Hx. rewrite allNodes_app, allNodes_singleton in Hx.
      apply elem_of_app in Hx as [Hx|Hx].
      - left. exists x. split; [by apply Hsubc|done].
      - right. by eapply moved_from. }
    destruct (bool_decide (0 < length (children n)));
      [|left; exists x; split; [by apply Hsubc|done]].
    cbv zeta in Hx. destruct (_ && _).
    + destruct (children n !! _) as [target|];
        [|left; exists x; split; [by apply Hsubc|done]].
      cbn [children withChildren] in Hx.
      apply spliceIn_elem in Hx as [Hx|Hx].
      * right. by eapply moved_from.
      * left. exists x. split; [by apply Hsubc|done].
    + cbn [children withChildren] in Hx.
      destruct (IHc Hx) as [(y & Hy & Heq)|?]; [|by right].
      left. exists y. split; [by apply Hsubc|done].
  - destruct (IHl Hx) as [(y & Hy & Heq)|?]; [|by right].
    left. exists y. split; [by apply Hsubl|done].
Qed.

(** The ids of a forest are those of its roots and those below them. *)
Lemma allIds_roots_or_below l x :
  x ∈ allIds l ↔
  x ∈ id <$> l ∨ x ∈ flat_map (fun n => allIds (children n)) l.
Proof.
  induction l as [|n l IH]; [simpl; rewrite !elem_of_nil; tauto|].
  rewrite allIds_cons, fmap_cons. simpl.
  rewrite !elem_of_cons, !elem_of_app, IH. tauto.
Qed.

Lemma removeNode_roots i l x :
  x ∈ id <$> removeNode l i → x ∈ id <$> l.
Proof.
  induction l as [|n l IH]; [done|]. rewrite removeNode_cons.
  destruct (decide (id n = i)).
  - intros Hx. rewrite fmap_cons. apply list_elem_of_further. by apply IH.
  - rewrite !fmap_cons. cbn [id withChildren].
    rewrite !elem_of_cons. intros [->|Hx]; [by left|right; by apply IH].
Qed.

Lemma removeNode_root_kept i l x :
  x ∈ id <$> l → x ≠ i → x ∈ id <$> removeNode l i.
Proof.
  induction l as [|n l IH]; [done|]. rewrite removeNode_cons, fmap_cons.
  destruct (decide (id n = i)) as [Heq|Hne].
  - intros [->|Hx]%elem_of_cons Hxi; [done|by apply IH].
  - rewrite fmap_cons. cbn [id withChildren].
    intros [->|Hx]%elem_of_cons Hxi; [apply list_elem_of_here|].
    apply list_elem_of_further. by apply IH.
Qed.

Lemma findIndex_root t l :
  findIndex (hasId t) l ≠ (-1)%Z ↔ t ∈ id <$> l.
Proof.
  split.
  - intros Hne. destruct (findIndex_spec (hasId t) l)
      as [[? _]|(j & x & _ & Hx & Hp)]; [done|].
    apply hasId_true in Hp. rewrite <- Hp.
    by eapply list_elem_of_fmap_2, list_elem_of_lookup_2.
  - intros Hin Heq. destruct (findIndex_spec (hasId t) l)
      as [[_ Hall]|(j & x & Hj & _)]; [|lia].
    apply list_elem_of_fmap_1 in Hin as (y & -> & Hy).
    rewrite Forall_forall in Hall. specialize (Hall y Hy).
    by apply hasId_false in Hall.
Qed.

(** Without its subtree, the forest still has the ids outside of it. *)
Lemma removeNode_has l src t :
  NoDup (allIds l) → src ∈ allNodes l → t ∈ allIds l → t ∉ idsOf src →
  t ∈ allIds (removeNode l (id src)).
Proof.
  intros Hnd Hsrc Ht Hout. rewrite removeNode_ids by done.
  by apply list_elem_of_filter.
Qed.

Lemma moved_ids_perm l src :
  NoDup (allIds l) → src ∈ allNodes l →
  idsOf src ++ allIds (removeNode l (id src)) ≡ₚ allIds l.
Proof.
  intros Hnd Hsrc. apply NoDup_Permutation; [by apply NoDup_moved|done|].
  intros x. rewrite elem_of_app, removeNode_ids, list_elem_of_filter by done.
  split.
  - intros [Hx|[_ Hx]]; [by eapply allIds_subtree|done].
  - intros Hx. destruct (decide (x ∈ idsOf src)); [by left|by right].
Qed.

Lemma insertNode_levelled t new pos l :
  ∀ d, Forall (Levelled d) l → Forall (Levelled d) (insertNode l t new pos).
Proof.
  induction l as [|n l IHc IHl] using forest_ind; intros d Hall; [constructor|].
  apply Forall_cons in Hall as [Hn Hl]. unfold insertNode in *.
  rewrite fmap_cons. constructor; [|by apply IHl].
  inversion Hn as [? ? Hd Hkids]; subst. rewrite insertNodeIn_eq.
  destruct (_ && _).
  { constructor; [done|]. cbn [children]. apply Forall_app. split; [done|].
    constructor; [|constructor].
    replace (S (depth n)) with (depth n + 1) by lia.
    apply updateNodeDepth_wf. }
  destruct (bool_decide _); [|done]. cbv zeta. destruct (_ && _).
  - destruct (children n !! _) as [target|] eqn:Htarget; [|done].
    constructor; [done|]. cbn [children withChildren].
    apply Forall_spliceIn; [|done].
    rewrite Forall_forall in Hkids.
    assert (Levelled (S (depth n)) target) as Ht
      by (apply Hkids; by eapply list_elem_of_lookup_2).
    inversion Ht as [? ? Hdt _]; subst. rewrite Hdt. apply updateNodeDepth_wf.
  - constructor; [done|]. cbn [children withChildren]. by apply IHc.
Qed.

Lemma insertNode_parented t new pos l :
  ∀ q, Forall (Parented q) l → Forall (Parented q) (insertNode l t new pos).
Proof.
  induction l as [|n l IHc IHl] using forest_ind; intros q Hall; [constructor|].
  apply Forall_cons in Hall as [Hn Hl]. unfold insertNode in *.
  rewrite fmap_cons. constructor; [|by apply IHl].
  inversion Hn as [? ? Hq Hkids]; subst. rewrite insertNodeIn_eq.
  destruct (_ && _).
  { constructor; [done|]. cbn [children]. apply Forall_app. split; [done|].
    constructor; [|constructor]. apply updateNodeDepth_wf. }
  destruct (bool_decide _); [|done]. cbv zeta. destruct (_ && _).
  - destruct (children n !! _) as [target|] eqn:Htarget; [|done].
    constructor; [done|]. cbn [children withChildren].
    apply Forall_spliceIn; [|done]. apply updateNodeDepth_wf.
  - constructor; [done|]. cbn [children withChildren]. by apply IHc.
Qed.

(** The tree after a valid drop. *)
Lemma dropNodes_valid l src t pos :
  NoDup (allIds l) → src ∈ allNodes l → t ∈ allIds l → t ∉ idsOf src →
  ∃ newNodes,
    dropNodes l (id src) src (mkDropTarget t pos) = Some newNodes
    ∧ allIds newNodes ≡ₚ allIds l
    ∧ (∀ x, x ∈ allNodes newNodes →
            ∃ y, y ∈ allNodes l ∧ idText y = idText x)
    ∧ (Forall (Levelled 0) l → Forall (Levelled 0) newNodes)
    ∧ (Forall (Parented None) l → Forall (Parented None) newNodes).
Proof.
  intros Hnd Hsrc Ht Hout.
  assert (t ≠ id src) as Hne by (intros ->; apply Hout, id_in_idsOf).
  pose proof (removeNode_has l src t Hnd Hsrc Ht Hout) as Hkept.
  pose proof (moved_ids_perm l src Hnd Hsrc) as Hperm.
  assert (NoDup (allIds (removeNode l (id src)))) as Hnd1
    by by apply removeNode_NoDup.
  assert (∀ x, x ∈ nodesOf src → x ∈ allNodes l) as Hsub
    by (intros x; by apply allNodes_subtree).
  unfold dropNodes. cbn [nodeId position].
  destruct (bool_decide (findIndex (hasId t) l ≠ (-1)%Z)
            && (bool_decide (pos = before) || bool_decide (pos = after)))
    eqn:Hroot.
  - apply andb_true_iff in Hroot as [Hr%bool_decide_eq_true _].
    apply findIndex_root in Hr.
    rewrite bool_decide_eq_true_2
      by by apply findIndex_root, removeNode_root_kept.
    eexists. split; [done|].
    split; [by rewrite allIds_spliceIn, updateNodeDepth_ids|].
    split; [|split].
    + intros x [Hx|Hx]%spliceIn_elem.
      * destruct (moved_from _ _ _ _ Hx) as (y & Hy & Heq).
        exists y. split; [by apply Hsub|done].
      * by apply removeNode_from in Hx.
    + intros Hlev. apply Forall_spliceIn; [apply updateNodeDepth_wf|].
      by apply removeNode_levelled.
    + intros Hpar. apply Forall_spliceIn; [apply updateNodeDepth_wf|].
      by apply removeNode_parented.
  - eexists. split; [done|].
    assert (t ∈ sites pos (removeNode l (id src))) as Hsite.
    { unfold sites. destruct (decide (pos = child)) as [->|Hpos]; [done|].
      apply allIds_roots_or_below in Hkept as [Hr|?]; [|done].
      apply removeNode_roots, findIndex_root in Hr.
      rewrite bool_decide_eq_true_2 in Hroot by done. cbn [andb] in Hroot.
      destruct pos; [by rewrite bool_decide_eq_true_2 in Hroot| |done].
      by rewrite (bool_decide_eq_true_2 (after = after)), orb_true_r in Hroot. }
    split; [|split; [|split]].
    + rewrite insertNode_ids by done. by rewrite decide_True by done.
    + intros x [(y & Hy & Heq)|(y & Hy & Heq)]%insertNode_from.
      * apply removeNode_from in Hy as (z & Hz & Heq').
        exists z. split; [done|congruence].
      * exists y. split; [by apply Hsub|done].
    + intros Hlev. by apply insertNode_levelled, removeNode_levelled.
    + intros Hpar. by apply insertNode_parented, removeNode_parented.
Qed.

(** Two lists of nodes with distinct ids, one with the ids of the other
    and with every node taken from the other, hold the same ids and texts. *)
Lemma idText_perm (l1 l2 : list TreeNode) :
  NoDup (id <$> l2) → id <$> l1 ≡ₚ id <$> l2 →
  (∀ x, x ∈ l1 → ∃ y, y ∈ l2 ∧ idText y = idText x) →
  idText <$> l1 ≡ₚ idText <$> l2.
Proof.
  intros Hnd Hperm Hfrom.
  assert (NoDup (id <$> l1)) as Hnd1 by by rewrite Hperm.
  assert (∀ l : list TreeNode, NoDup (id <$> l) → NoDup (idText <$> l)) as Hpair.
  { intros l Hl. apply (NoDup_fmap_1 fst). by rewrite <- list_fmap_compose. }
  apply submseteq_length_Permutation.
  - apply NoDup_submseteq; [by apply Hpair|].
    intros e (x & -> & Hx)%list_elem_of_fmap_1.
    destruct (Hfrom x Hx) as (y & Hy & <-). by apply list_elem_of_fmap_2.
  - rewrite !length_fmap. rewrite <- (length_fmap id l2), <- Hperm.
    by rewrite length_fmap.
Qed.


(** *** Where a drop beside a node puts the subtree *)

Lemma removeNode_app i (l1 l2 : list TreeNode) :
  removeNode (l1 ++ l2) i = removeNode l1 i ++ removeNode l2 i.
Proof. unfold removeNode. by rewrite filter_app, fmap_app. Qed.

Lemma removeNode_middle i (s1 s2 : list TreeNode) tgt :
  id tgt ≠ i →
  removeNode (s1 ++ tgt :: s2) i
  = removeNode s1 i ++ withChildren tgt (removeNode (children tgt) i)
      :: removeNode s2 i.
Proof.
  intros Hne. rewrite removeNode_app, removeNode_cons.
  by rewrite decide_False by done.
Qed.

Lemma spliceIn_at {A} (y : A) (cs1 cs2 : list A) :
  spliceIn (Z.of_nat (length cs1)) y (cs1 ++ cs2) = cs1 ++ y :: cs2.
Proof.
  unfold spliceIn. rewrite length_app. rewrite decide_False by lia.
  replace (Z.to_nat (Z.min _ _)) with (length cs1) by lia.
  by rewrite take_app_length, drop_app_length.
Qed.

(** In a forest with distinct ids no id is both that of a root and that of
    a node below a root. *)
Lemma root_not_below l x :
  NoDup (allIds l) → x ∈ id <$> l →
  x ∉ flat_map (fun n => allIds (children n)) l.
Proof.
  induction l as [|n l IH]; [by intros _ ?%elem_of_nil|]. intros Hnd.
  destruct (NoDup_allIds_cons _ _ Hnd) as (Hnc & Hnl & Hndc & Hndl & Hdisj).
  rewrite fmap_cons. simpl. rewrite elem_of_cons, elem_of_app.
  intros [->|Hx] [Hb|Hb].
  - done.
  - apply Hnl. apply allIds_roots_or_below. by right.
  - apply (Hdisj x Hb). apply allIds_roots_or_below. by left.
  - by apply IH.
Qed.

Lemma child_below l p x :
  p ∈ allNodes l → x ∈ children p →
  id x ∈ flat_map (fun n => allIds (children n)) l.
Proof.
  induction l as [|n l IHc IHl] using forest_ind; [by intros ?%elem_of_nil|].
  cbn [flat_map]. rewrite elem_allNodes_cons, elem_of_app.
  intros [->|[Hp|Hp]] Hx.
  - left. by apply elem_allIds, roots_in_allNodes.
  - left. apply elem_allIds. by eapply child_in_allNodes.
  - right. by apply IHl.
Qed.

Lemma child_not_root l p x :
  NoDup (allIds l) → p ∈ allNodes l → x ∈ children p → id x ∉ id <$> l.
Proof.
  intros Hnd Hp Hx Hroot. by eapply root_not_below, child_below.
Qed.

(** Dropping beside a child of [p] splices the re-levelled subtree into
    the children of [p]. *)
Lemma insertNode_beside_at l new pos p (s1 s2 : list TreeNode) tgt :
  NoDup (allIds l) → p ∈ allNodes l → children p = s1 ++ tgt :: s2 →
  pos ≠ child →
  withChildren p
    (let moved := updateNodeDepth new (depth tgt) (Some (refTo p)) in
     if bool_decide (pos = before) then s1 ++ moved :: tgt :: s2
     else s1 ++ tgt :: moved :: s2)
  ∈ allNodes (insertNode l (id tgt) new pos).
Proof.
  intros Hnd Hp Hkids Hpos.
  assert (tgt ∈ children p) as Htgt.
  { rewrite Hkids. apply elem_of_app. right. apply list_elem_of_here. }
  assert (bool_decide (pos = child) = false) as Hc
    by by apply bool_decide_eq_false.
  assert (bool_decide (pos = before) || bool_decide (pos = after) = true)
    as Hba by by destruct pos.
  revert Hnd Hp.
  induction l as [|m l IHc IHl] using forest_ind;
    [by intros _ ?%elem_of_nil|].
  intros Hnd Hp.
  destruct (NoDup_allIds_cons _ _ Hnd) as (Hnc & Hnl & Hndc & Hndl & Hdisj).
  unfold insertNode in *. rewrite fmap_cons, allNodes_cons.
  apply elem_allNodes_cons in Hp as [->|[Hp|Hp]].
  - apply elem_of_cons. left. rewrite insertNodeIn_eq, Hc, andb_false_r.
    rewrite (bool_decide_eq_true_2 (0 < length (children m)))
      by (rewrite Hkids, length_app; simpl; lia).
    cbv zeta.
    destruct (split_at_node (children m) tgt) as (c1 & c2 & Hsplit & Hindex);
      [by apply (NoDup_children (m :: l)); [|apply elem_allNodes_cons; left]
      |done|].
    assert (c1 = s1 ∧ c2 = s2) as [-> ->].
    { rewrite Hkids in Hsplit.
      assert (NoDup (id <$> s1 ++ tgt :: s2)) as Hnds.
      { rewrite <- Hkids.
        apply (NoDup_children (m :: l)); [done|].
        apply elem_allNodes_cons. by left. }
      clear -Hsplit Hnds. revert c1 Hsplit.
      induction s1 as [|x s1 IH]; intros [|y c1] Heq; simplify_eq/=.
      - done.
      - exfalso. apply NoDup_cons in Hnds as [Hx _]. apply Hx.
        rewrite fmap_app, fmap_cons. apply elem_of_app. right.
        apply list_elem_of_here.
      - exfalso. apply NoDup_cons in Hnds as [Hx _]. apply Hx.
        rewrite fmap_app, fmap_cons. apply elem_of_app. right.
        apply list_elem_of_here.
      - apply NoDup_cons in Hnds as [_ Hnds].
        destruct (IH Hnds c1) as [-> ->]; done. }
    rewrite Hindex, Hba.
    rewrite (bool_decide_eq_true_2 (Z.of_nat (length s1) ≠ (-1)%Z)) by lia.
    cbn [andb].
    rewrite Nat2Z.id, Hkids, list_lookup_middle by done.
    destruct (bool_decide (pos = before)).
    + by rewrite spliceIn_at.
    + by rewrite spliceIn_after.
  - apply elem_of_cons. right. apply elem_of_app. left.
    rewrite insertNodeIn_eq, Hc, andb_false_r.
    rewrite (bool_decide_eq_true_2 (0 < length (children m)))
      by (destruct (children m); [by apply elem_of_nil in Hp|simpl; lia]).
    cbv zeta.
    rewrite (bool_decide_eq_false_2
               (findIndex (hasId (id tgt)) (children m) ≠ (-1)%Z)).
    + cbn [andb children withChildren]. by apply IHc.
    + intros Hfound. apply findIndex_root in Hfound.
      by apply (child_not_root (children m) p tgt).
  - apply elem_of_cons. right. apply elem_of_app. right. by apply IHl.
Qed.

End Moves.

(** X19.  A valid move (the target outside the subtree of the source, any
    of the three positions) neither loses nor duplicates a node and changes
    no text: the new tree holds the same ids with the same texts.  It keeps
    the depths consistent and the parent references right. *)
Theorem move_keeps_tree (st : BrowserView) (src tgt : TreeNode)
    (pos : DropPosition) :
  NoDup (allIds (nodes st)) → dropTarget st = None →
  src ∈ allNodes (nodes st) → tgt ∈ allNodes (nodes st) →
  id src ≠ [] → id tgt ∉ idsOf src →
  let st' := move (id src) (id tgt) pos st in
  idText <$> allNodes (nodes st') ≡ₚ idText <$> allNodes (nodes st)
  ∧ (depthConsistent (nodes st) → depthConsistent (nodes st'))
  ∧ (parentsOk (nodes st) → parentsOk (nodes st')).
Proof.
  intros Hnd Hidle Hsrc Htgt Hs Hout st'.
  assert (id src ≠ id tgt) as Hne.
  { intros Heq. apply Hout. rewrite <- Heq. apply id_in_idsOf. }
  assert (isDescendant src (id tgt) = false) as Hdesc.
  { apply not_true_is_false. by rewrite isDescendant_spec. }
  destruct (move_valid (id src) (id tgt) pos src tgt st) as [Hn _];
    [done|done|done|by apply nodeMapOf_present..|done|].
  unfold st'. rewrite Hn, dropMove_nodes.
  destruct (dropNodes_valid (nodes st) src (id tgt) pos)
    as (newNodes & -> & Hperm & Hfrom & Hlev & Hpar);
    [done|done|by apply elem_allIds|done|].
  simpl. split; [|split].
  - by apply idText_perm.
  - rewrite !depthConsistent_levelled. apply Hlev.
  - rewrite !parentsOk_parented. apply Hpar.
Qed.

(** X20.  A valid drop before or after a node puts the dragged subtree
    right before, or right after, that node in the array of siblings that
    holds it, the array being otherwise the one from before the drop without
    the dragged subtree.  Beside a root the subtree is re-levelled from
    depth 0 and has no parent; beside a child it is re-levelled from the
    depth of that child and refers to the child's parent.  The re-levelled
    subtree has the ids and texts of the dragged one. *)
Theorem move_beside_places (st : BrowserView) (src tgt : TreeNode)
    (pos : DropPosition) :
  NoDup (allIds (nodes st)) → dropTarget st = None →
  src ∈ allNodes (nodes st) → tgt ∈ allNodes (nodes st) →
  id src ≠ [] → id tgt ∉ idsOf src → pos ≠ child →
  let st' := move (id src) (id tgt) pos st in
  let tgt' := withChildren tgt (removeNode (children tgt) (id src)) in
  (∀ d q,
     idText <$> nodesOf (updateNodeDepth src d q) = idText <$> nodesOf src
     ∧ depth <$> nodesOf (updateNodeDepth src d q)
       = (fun k => d + k) <$> levelsOf src
     ∧ parent (updateNodeDepth src d q) = q)
  ∧ (∀ r1 r2,
       nodes st = r1 ++ tgt :: r2 →
       nodes st'
       = placeBeside pos (removeNode r1 (id src)) (updateNodeDepth src 0 None)
           tgt' (removeNode r2 (id src)))
  ∧ (∀ p c1 c2,
       p ∈ allNodes (nodes st) → children p = c1 ++ tgt :: c2 →
       withChildren p
         (placeBeside pos (removeNode c1 (id src))
            (updateNodeDepth src (depth tgt) (Some (refTo p)))
            tgt' (removeNode c2 (id src)))
       ∈ allNodes (nodes st')).
Proof.
  intros Hnd Hidle Hsrc Htgt Hs Hout Hpos st' tgt'.
  assert (id src ≠ id tgt) as Hne.
  { intros Heq. apply Hout. rewrite <- Heq. apply id_in_idsOf. }
  assert (isDescendant src (id tgt) = false) as Hdesc.
  { apply not_true_is_false. by rewrite isDescendant_spec. }
  destruct (move_valid (id src) (id tgt) pos src tgt st) as [Hn _];
    [done|done|done|by apply nodeMapOf_present..|done|].
  assert (bool_decide (pos = before) || bool_decide (pos = after) = true)
    as Hba by by destruct pos.
  split; [|split].
  - intros d q. split; [apply updateNodeDepth_idText|].
    split; [apply updateNodeDepth_nodes|]. by rewrite updateNodeDepth_eq.
  - intros r1 r2 Hroots. unfold st'. rewrite Hn, dropMove_nodes.
    unfold dropNodes. cbn [nodeId position].
    assert (id tgt ∈ id <$> nodes st) as Hroot.
    { rewrite Hroots, fmap_app, fmap_cons. apply elem_of_app. right.
      apply list_elem_of_here. }
    rewrite (bool_decide_eq_true_2 (findIndex _ (nodes st) ≠ _))
      by by apply findIndex_root.
    rewrite Hba. cbn [andb].
    rewrite Hroots, removeNode_middle by done. fold tgt'.
    assert (findIndex (hasId (id tgt))
              (removeNode r1 (id src) ++ tgt' :: removeNode r2 (id src))
            = Z.of_nat (length (removeNode r1 (id src)))) as Hindex.
    { apply findIndex_first; [|done]. intros Hin%removeNode_roots.
      pose proof (NoDup_roots _ Hnd) as Hndr.
      rewrite Hroots, fmap_app, fmap_cons in Hndr.
      apply NoDup_app in Hndr as (_ & Hdisj & _).
      apply (Hdisj _ Hin). apply list_elem_of_here. }
    rewrite Hindex.
    rewrite (bool_decide_eq_true_2 (Z.of_nat _ ≠ _)) by lia.
    unfold placeBeside. simpl. destruct (bool_decide (pos = before)).
    + by rewrite spliceIn_at.
    + by rewrite spliceIn_after.
  - intros p c1 c2 Hp Hkids. unfold st'. rewrite Hn, dropMove_nodes.
    assert (tgt ∈ children p) as Hchild.
    { rewrite Hkids. apply elem_of_app. right. apply list_elem_of_here. }
    unfold dropNodes. cbn [nodeId position].
    rewrite (bool_decide_eq_false_2 (findIndex _ (nodes st) ≠ _)).
    2:{ intros Hroot%findIndex_root.
        by apply (child_not_root (nodes st) p tgt). }
    cbn [andb default].
    assert (id p ∉ idsOf src) as Hpout.
    { intros (x & Heq & Hx)%list_elem_of_fmap_1.
      assert (x = p) as ->.
      { apply (same_id_same_node (nodes st)); [done| |done..].
        by apply (allNodes_subtree _ src). }
      apply Hout. apply list_elem_of_fmap_2.
      rewrite <- allNodes_singleton.
      apply (child_in_allNodes [src] p); [by rewrite allNodes_singleton|done]. }
    pose proof (removeNode_keeps _ _ _ Hnd Hsrc Hp Hpout) as Hp1.
    set (p1 := withChildren p (removeNode (children p) (id src))) in *.
    assert (children p1
            = removeNode c1 (id src) ++ tgt' :: removeNode c2 (id src)) as Hk1.
    { unfold p1. cbn [children withChildren].
      by rewrite Hkids, removeNode_middle. }
    pose proof (insertNode_beside_at _ src pos p1 _ _ tgt'
                  (removeNode_NoDup _ _ Hnd) Hp1 Hk1 Hpos) as Hat.
    exact Hat.
Qed.

(** ** Keyboard navigation *)

Section Keyboard.

Implicit Types (n m p c : TreeNode) (l : list TreeNode) (E : gset jstring)
  (st : BrowserView) (r : FlatNode).

Lemma visibleAll_sublist E l : visibleAll E l `sublist_of` allNodes l.
Proof.
  induction l as [|n l IHc IHl] using forest_ind; [done|].
  rewrite visibleAll_cons, allNodes_cons. apply sublist_skip, sublist_app; [|done].
  destruct (bool_decide _); [done|apply sublist_nil_l].
Qed.

Lemma visibleAll_NoDup E l : NoDup (allIds l) → NoDup (id <$> visibleAll E l).
Proof.
  intros Hnd. apply (sublist_NoDup _ (allIds l)); [exact Hnd|].
  unfold allIds. apply (fmap_sublist id), visibleAll_sublist.
Qed.

(** The visible nodes depend on the expanded ids of the forest only. *)
Lemma visibleAll_agree E E' l :
  (∀ i, i ∈ allIds l → i ∈ E' ↔ i ∈ E) → visibleAll E' l = visibleAll E l.
Proof.
  induction l as [|n l IHc IHl] using forest_ind; intros Hagree; [done|].
  rewrite !visibleAll_cons.
  rewrite IHl by (intros i Hi; apply Hagree; rewrite allIds_cons;
                  apply list_elem_of_further, elem_of_app; by right).
  rewrite IHc by (intros i Hi; apply Hagree; rewrite allIds_cons;
                  apply list_elem_of_further, elem_of_app; by left).
  rewrite (bool_decide_ext (id n ∈ E') (id n ∈ E)); [done|].
  apply Hagree. rewrite allIds_cons. apply list_elem_of_here.
Qed.

(** Folding or unfolding a visible node leaves the rows up to its own in
    place. *)
Lemma toggle_prefix E E' l n :
  NoDup (allIds l) → (∀ i, i ≠ id n → i ∈ E' ↔ i ∈ E) →
  n ∈ visibleAll E l →
  ∃ v1 v2 v2',
    visibleAll E l = v1 ++ n :: v2 ∧ visibleAll E' l = v1 ++ n :: v2'.
Proof.
  intros Hnd Hagree. revert Hnd.
  induction l as [|m l IHc IHl] using forest_ind;
    [by intros _ ?%elem_of_nil|].
  intros Hnd.
  destruct (NoDup_allIds_cons _ _ Hnd) as (Hnc & Hnl & Hndc & Hndl & Hdisj).
  rewrite !visibleAll_cons, elem_of_cons, elem_of_app.
  intros [->|[Hin|Hin]].
  - by eexists [], _, _.
  - destruct (bool_decide_reflect (id m ∈ E)) as [Hm|Hm];
      [|by apply elem_of_nil in Hin].
    assert (id n ≠ id m) as Hne.
    { intros Heq. apply Hnc. rewrite <- Heq.
      by apply elem_allIds, (visibleAll_sub E). }
    rewrite (bool_decide_eq_true_2 (id m ∈ E')) by by apply Hagree.
    destruct (IHc Hndc Hin) as (v1 & v2 & v2' & -> & ->).
    exists (m :: v1), (v2 ++ visibleAll E l), (v2' ++ visibleAll E' l).
    by rewrite <- !(assoc_L (++)).
  - assert (id n ∈ allIds l) as Hnin by by apply elem_allIds, (visibleAll_sub E).
    assert (id n ≠ id m) as Hne by (by intros Heq; apply Hnl; rewrite <- Heq).
    rewrite (visibleAll_agree E E' (children m)).
    2:{ intros i Hi. apply Hagree. intros ->. by apply (Hdisj (id n)). }
    rewrite (bool_decide_ext (id m ∈ E') (id m ∈ E)) by by apply Hagree.
    destruct (IHl Hndl Hin) as (v1 & v2 & v2' & -> & ->).
    set (pre := m :: (if bool_decide (id m ∈ E)
                      then visibleAll E (children m) else [])).
    exists (pre ++ v1), v2, v2'. unfold pre.
    by rewrite <- !(assoc_L (++)).
Qed.

(** A visible child has a visible parent. *)
Lemma visible_parent E l p c :
  NoDup (allIds l) → p ∈ allNodes l → c ∈ children p →
  c ∈ visibleAll E l → p ∈ visibleAll E l.
Proof.
  intros Hnd Hp Hc. revert Hnd Hp.
  induction l as [|m l IHc IHl] using forest_ind;
    [by intros _ ?%elem_of_nil|].
  intros Hnd Hp.
  destruct (NoDup_allIds_cons _ _ Hnd) as (Hnc & Hnl & Hndc & Hndl & Hdisj).
  rewrite !visibleAll_cons, !elem_of_cons, !elem_of_app.
  apply elem_allNodes_cons in Hp as [->|[Hp|Hp]]; [by left|..].
  - assert (id c ∈ allIds (children m)) as Hcin
      by (apply elem_allIds; by eapply child_in_allNodes).
    intros [->|[Hin|Hin]]; [done| |].
    + right. left. destruct (bool_decide (id m ∈ E));
        [by apply IHc|by apply elem_of_nil in Hin].
    + exfalso. apply (Hdisj _ Hcin). by apply elem_allIds, (visibleAll_sub E).
  - assert (id c ∈ allIds l) as Hcin
      by (apply elem_allIds; by eapply child_in_allNodes).
    intros [->|[Hin|Hin]]; [done| |].
    + exfalso. destruct (bool_decide (id m ∈ E));
        [|by apply elem_of_nil in Hin].
      eapply Hdisj; [|done]. by apply elem_allIds, (visibleAll_sub E).
    + right. right. by apply IHl.
Qed.

Lemma currentRow_lookup st r :
  currentRow st = Some r →
  (0 ≤ focusedIndex st)%Z ∧ flatNodes st !! Z.to_nat (focusedIndex st) = Some r.
Proof. unfold currentRow. by destruct (decide _). Qed.

Lemma currentRow_set (i : nat) st :
  currentRow (setFocusedIndex (Z.of_nat i) st) = flatNodes st !! i.
Proof.
  unfold currentRow. cbn [focusedIndex setFocusedIndex].
  rewrite decide_True by lia. by rewrite Nat2Z.id.
Qed.

(** The node behind a row. *)
Lemma row_node st (f : nat) r :
  flatNodes st !! f = Some r →
  ∃ n, visibleAll (expandedIds st) (nodes st) !! f = Some n
       ∧ r = rowOf (expandedIds st) f n.
Proof.
  rewrite flatNodes_rows, list_lookup_imap.
  destruct (visibleAll _ _ !! f) as [n|]; [|done].
  intros [= <-]. by exists n.
Qed.

(** Toggling the focused row keeps the focus on the row of the same node. *)
Lemma toggle_keeps_focus st r :
  NoDup (allIds (nodes st)) → currentRow st = Some r →
  ∃ n f, r = rowOf (expandedIds st) f n
         ∧ currentRow (handleToggle (f_id r) st)
           = Some (rowOf (expandedIds (handleToggle (f_id r) st)) f n).
Proof.
  intros Hnd [Hpos Hrow]%currentRow_lookup.
  set (f := Z.to_nat (focusedIndex st)) in *.
  destruct (row_node st f r Hrow) as (n & Hn & ->). cbn [f_id rowOf].
  set (st' := handleToggle (id n) st).
  destruct (toggle_prefix (expandedIds st) (expandedIds st') (nodes st) n)
    as (v1 & v2 & v2' & Hold & Hnew); [done| |by eapply list_elem_of_lookup_2|].
  { intros i Hi. unfold st', handleToggle. cbn [expandedIds setExpandedIds].
    destruct (bool_decide _); set_solver. }
  assert (f = length v1) as Hf.
  { pose proof (visibleAll_NoDup (expandedIds st) _ Hnd) as Hndv.
    apply (NoDup_lookup _ _ _ (id n) Hndv).
    - by rewrite list_lookup_fmap, Hn.
    - by rewrite Hold, list_lookup_fmap, list_lookup_middle. }
  exists n, f. split; [done|].
  unfold currentRow. replace (focusedIndex st') with (focusedIndex st) by done.
  rewrite decide_True by done. fold f.
  rewrite flatNodes_rows, list_lookup_imap.
  replace (nodes st') with (nodes st) by done.
  by rewrite Hnew, Hf, list_lookup_middle.
Qed.

Lemma toggle_flag (x : jstring) st :
  bool_decide (x ∈ expandedIds (handleToggle x st))
  = negb (bool_decide (x ∈ expandedIds st)).
Proof.
  unfold handleToggle. cbn [expandedIds setExpandedIds].
  destruct (bool_decide_reflect (x ∈ expandedIds st)) as [Hx|Hx]; simpl.
  - apply bool_decide_eq_false_2. set_solver.
  - apply bool_decide_eq_true_2. set_solver.
Qed.

(** The rows that follow a visible node start with the visible part of its
    subtree. *)
Lemma visible_after E l n :
  NoDup (allIds l) → n ∈ visibleAll E l →
  ∃ v1 v3,
    visibleAll E l
    = v1 ++ n :: (if bool_decide (id n ∈ E)
                  then visibleAll E (children n) else []) ++ v3.
Proof.
  induction l as [|m l IHc IHl] using forest_ind;
    [by intros _ ?%elem_of_nil|].
  intros Hnd.
  destruct (NoDup_allIds_cons _ _ Hnd) as (Hnc & Hnl & Hndc & Hndl & Hdisj).
  rewrite !visibleAll_cons, elem_of_cons, elem_of_app.
  intros [->|[Hin|Hin]].
  - by eexists [], _.
  - destruct (bool_decide (id m ∈ E)); [|by apply elem_of_nil in Hin].
    destruct (IHc Hndc Hin) as (v1 & v3 & ->).
    exists (m :: v1), (v3 ++ visibleAll E l).
    by repeat (rewrite <- (assoc_L (++)) || rewrite <- app_comm_cons).
  - destruct (IHl Hndl Hin) as (v1 & v3 & ->).
    set (pre := m :: (if bool_decide (id m ∈ E)
                      then visibleAll E (children m) else [])).
    exists (pre ++ v1), v3. unfold pre.
    by repeat (rewrite <- (assoc_L (++)) || rewrite <- app_comm_cons).
Qed.

Lemma findRow_spec (i : jstring) (rows : list FlatNode) :
  i ∈ f_id <$> rows →
  ∃ j r, findIndex (fun x => bool_decide (f_id x = i)) rows = Z.of_nat j
         ∧ rows !! j = Some r ∧ f_id r = i.
Proof.
  intros Hin.
  destruct (findIndex_spec (fun x => bool_decide (f_id x = i)) rows)
    as [[_ Hall]|(j & r & Hj & Hr & Hp)].
  - apply list_elem_of_fmap_1 in Hin as (r & -> & Hr).
    rewrite Forall_forall in Hall. specialize (Hall r Hr).
    by apply bool_decide_eq_false in Hall.
  - exists j, r. split; [done|]. split; [done|].
    by apply bool_decide_eq_true in Hp.
Qed.

Lemma currentRow_move st (z : Z) :
  (0 ≤ z < Z.of_nat (length (flatNodes st)))%Z →
  ∃ r', currentRow (setFocusedIndex z st) = Some r'.
Proof.
  intros Hz. unfold currentRow. cbn [focusedIndex setFocusedIndex].
  rewrite decide_True by lia.
  apply lookup_lt_is_Some_2.
  replace (flatNodes (setFocusedIndex z st)) with (flatNodes st) by done. lia.
Qed.

(** The keys that fold or unfold the focused row. *)
Lemma key_toggles now e st r :
  falsy (editingId st) = true → currentRow st = Some r →
  f_hasChildren r = true →
  e_key e = K_Space
  ∨ e_key e = (if f_isExpanded r then K_ArrowLeft else K_ArrowRight) →
  handleKeyDown now e st = Some (handleToggle (f_id r) st).
Proof.
  intros Hedit Hrow Hkids Hkey. unfold handleKeyDown. rewrite Hrow, Hedit.
  destruct e as [k c m s]. cbn [e_key e_ctrlKey e_metaKey e_shiftKey] in *.
  destruct (f_isExpanded r) eqn:Hexp, Hkey as [-> | ->];
    rewrite ?(bool_decide_eq_false_2 (_ = K_z)),
            ?(bool_decide_eq_false_2 (_ = K_y)) by done;
    cbn [andb orb negb]; rewrite ?andb_false_r; cbn [andb orb negb];
    by rewrite ?Hkids, ?Hexp.
Qed.

(** The position of a visible node among the rows. *)
Lemma visible_index E l n (f : nat) v1 v2 :
  NoDup (allIds l) → visibleAll E l !! f = Some n →
  visibleAll E l = v1 ++ n :: v2 → f = length v1.
Proof.
  intros Hnd Hn Hsplit.
  pose proof (visibleAll_NoDup E _ Hnd) as Hndv.
  apply (NoDup_lookup _ _ _ (id n) Hndv).
  - by rewrite list_lookup_fmap, Hn.
  - by rewrite Hsplit, list_lookup_fmap, list_lookup_middle.
Qed.

End Keyboard.

(** X21.  With no row being edited and the focus on a row, an arrow key or the
    space bar leaves the focus on a row, and changes neither the tree nor the
    history. *)
Theorem navigation_keeps_focus (now : N) (e : KeyboardEvent)
    (st : BrowserView) (r : FlatNode) :
  NoDup (allIds (nodes st)) → navigationKey (e_key e) = true →
  currentRow st = Some r →
  ∃ st' r',
    handleKeyDown now e st = Some st' ∧ currentRow st' = Some r'
    ∧ nodes st' = nodes st ∧ history st' = history st
    ∧ historyIndex st' = historyIndex st.
Proof.
  intros Hnd Hkey Hrow.
  destruct (currentRow_lookup _ _ Hrow) as [Hpos Hlook].
  pose proof (lookup_lt_Some _ _ _ Hlook) as Hlt.
  assert (∀ z, (0 ≤ z < Z.of_nat (length (flatNodes st)))%Z →
               ∃ st' r', Some (setFocusedIndex z st) = Some st'
                 ∧ currentRow st' = Some r' ∧ nodes st' = nodes st
                 ∧ history st' = history st
                 ∧ historyIndex st' = historyIndex st) as Hmove.
  { intros z Hz. destruct (currentRow_move st z Hz) as [r' Hr'].
    by exists (setFocusedIndex z st), r'. }
  assert (∃ st' r', Some st = Some st'
                 ∧ currentRow st' = Some r' ∧ nodes st' = nodes st
                 ∧ history st' = history st
                 ∧ historyIndex st' = historyIndex st) as Hstay
    by by exists st, r.
  assert (∃ st' r', Some (handleToggle (f_id r) st) = Some st'
                 ∧ currentRow st' = Some r' ∧ nodes st' = nodes st
                 ∧ history st' = history st
                 ∧ historyIndex st' = historyIndex st) as Htoggle.
  { destruct (toggle_keeps_focus st r Hnd Hrow) as (n & f & _ & Hr').
    by eexists _, _. }
  unfold handleKeyDown. rewrite Hrow.
  destruct e as [k c m s]. cbn [e_key e_ctrlKey e_metaKey e_shiftKey] in *.
  destruct (negb (falsy (editingId st)));
    [by destruct k; try discriminate Hkey;
        rewrite ?(bool_decide_eq_false_2 (_ = K_z)),
                ?(bool_decide_eq_false_2 (_ = K_y)) by done;
        cbn [andb orb]; rewrite ?andb_false_r; cbn [andb orb]|].
  destruct k; try discriminate Hkey;
    rewrite ?(bool_decide_eq_false_2 (_ = K_z)),
            ?(bool_decide_eq_false_2 (_ = K_y)) by done;
    cbn [andb orb]; rewrite ?andb_false_r; cbn [andb orb].
  - (* ArrowUp *)
    destruct (c || m).
    + pose proof (scanUp_spec (sameDepth r) (flatNodes st)
                    (Z.to_nat (focusedIndex st)) ltac:(lia)) as Hscan.
      destruct (scanUp _ _ _) as [j|]; [|done].
      destruct Hscan as (x & Hj & _). apply Hmove. lia.
    + apply Hmove. lia.
  - (* ArrowDown *)
    destruct (c || m).
    + pose proof (scanDown_spec (sameDepth r)
                    (drop (S (Z.to_nat (focusedIndex st))) (flatNodes st))
                    (S (Z.to_nat (focusedIndex st)))) as Hscan.
      destruct (scanDown _ _ _) as [j|]; [|done].
      destruct Hscan as (x & Hj & Hx & _).
      apply lookup_lt_Some in Hx. rewrite length_drop in Hx.
      apply Hmove. lia.
    + apply Hmove. lia.
  - (* ArrowLeft *)
    destruct (f_isExpanded r && f_hasChildren r); [done|].
    destruct (nodeMap st !! f_id r ≫= parent) as [q|]; [|done].
    destruct (findIndex_spec (fun x => bool_decide (f_id x = p_id q))
                (flatNodes st)) as [[-> _]|(j & x & -> & Hj & _)].
    + by rewrite decide_False by (intros H; by apply H).
    + rewrite decide_True by lia. apply Hmove.
      apply lookup_lt_Some in Hj. lia.
  - (* ArrowRight *)
    destruct (f_hasChildren r); [|done].
    destruct (negb (f_isExpanded r)); [done|].
    destruct (decide _); [|done]. apply Hmove. lia.
  - (* Space *)
    by destruct (f_hasChildren r).
Qed.

(** X22.  On a focused row that has children, the space bar, the left arrow
    when the row is expanded and the right arrow when it is collapsed toggle
    the row: the focus stays on the same node, its flag is negated, and the
    opposite key restores the view. *)
Theorem fold_keys_toggle (now : N) (e e' : KeyboardEvent) (st : BrowserView)
    (r : FlatNode) :
  NoDup (allIds (nodes st)) → falsy (editingId st) = true →
  currentRow st = Some r → f_hasChildren r = true →
  e_key e = K_Space
  ∨ e_key e = (if f_isExpanded r then K_ArrowLeft else K_ArrowRight) →
  e_key e' = K_Space
  ∨ e_key e' = (if f_isExpanded r then K_ArrowRight else K_ArrowLeft) →
  ∃ st' r',
    handleKeyDown now e st = Some st' ∧ currentRow st' = Some r'
    ∧ f_id r' = f_id r ∧ f_isExpanded r' = negb (f_isExpanded r)
    ∧ nodes st' = nodes st
    ∧ handleKeyDown now e' st' = Some st.
Proof.
  intros Hnd Hedit Hrow Hkids Hkey Hkey'.
  destruct (toggle_keeps_focus st r Hnd Hrow) as (n & f & Hr & Hr').
  eexists _, _. split; [by apply key_toggles|]. split; [exact Hr'|].
  subst r. cbn [f_id f_isExpanded f_hasChildren rowOf] in *.
  split; [done|]. split; [apply toggle_flag|]. split; [done|].
  etrans; [|exact (f_equal Some (handleToggle_twice (id n) st))].
  apply (key_toggles now e' (handleToggle (id n) st) _ Hedit Hr' Hkids).
  cbn [f_isExpanded rowOf]. rewrite toggle_flag.
  by destruct (bool_decide (id n ∈ expandedIds st)).
Qed.

(** X23.  With the left arrow on a row that is collapsed or has no children,
    the focus moves to the row of the parent of the node; on a root nothing
    changes. *)
Theorem arrow_left_to_parent (now : N) (e : KeyboardEvent) (st : BrowserView)
    (r : FlatNode) :
  NoDup (allIds (nodes st)) → parentsOk (nodes st) →
  falsy (editingId st) = true → e_key e = K_ArrowLeft →
  currentRow st = Some r → f_isExpanded r && f_hasChildren r = false →
  (∀ p c, p ∈ allNodes (nodes st) → c ∈ children p → id c = f_id r →
     ∃ j r', handleKeyDown now e st = Some (setFocusedIndex (Z.of_nat j) st)
             ∧ currentRow (setFocusedIndex (Z.of_nat j) st) = Some r'
             ∧ f_id r' = id p)
  ∧ (∀ c, c ∈ nodes st → id c = f_id r → handleKeyDown now e st = Some st).
Proof.
  intros Hnd [Hroots Hkids] Hedit Hkey Hrow Hfold.
  destruct (currentRow_lookup _ _ Hrow) as [Hpos Hlook].
  destruct (row_node st _ r Hlook) as (n & Hn & Hr).
  assert (n ∈ visibleAll (expandedIds st) (nodes st)) as Hvis
    by by eapply list_elem_of_lookup_2.
  pose proof (visibleAll_sub _ _ _ Hvis) as Hin.
  assert (handleKeyDown now e st
          = Some match parent n with
                 | Some q =>
                     let parentIndex :=
                       findIndex (fun x => bool_decide (f_id x = p_id q))
                                 (flatNodes st) in
                     if decide (parentIndex ≠ (-1)%Z)
                     then setFocusedIndex parentIndex st else st
                 | None => st
                 end) as ->.
  { unfold handleKeyDown. rewrite Hrow, Hedit, Hfold.
    destruct e as [k c m s]. cbn [e_key e_ctrlKey e_metaKey e_shiftKey] in *.
    subst k. rewrite !(bool_decide_eq_false_2 (_ = K_z)),
               !(bool_decide_eq_false_2 (_ = K_y)) by done.
    cbn [andb orb negb]. rewrite !andb_false_r. cbn [andb orb negb].
    replace (f_id r) with (id n) by by subst r.
    unfold nodeMap. by rewrite (nodeMapOf_present _ _ Hnd Hin). }
  assert (f_id r = id n) as Hid by by subst r.
  split.
  - intros p c Hp Hc Hcid.
    assert (c = n) as ->.
    { apply (same_id_same_node (nodes st)); [done| |done|congruence].
      by eapply child_in_allNodes. }
    rewrite (Hkids p n Hp Hc). cbn [p_id refTo].
    destruct (findRow_spec (id p) (flatNodes st)) as (j & r' & -> & Hj & Hr').
    { rewrite flatNodes_ids. apply list_elem_of_fmap_2.
      by apply (visible_parent _ _ p n). }
    cbn zeta. rewrite decide_True by lia.
    exists j, r'. by rewrite currentRow_set.
  - intros c Hc Hcid.
    assert (c = n) as ->.
    { apply (same_id_same_node (nodes st)); [done| |done|congruence].
      by apply roots_in_allNodes. }
    by rewrite (Hroots n Hc).
Qed.

(** X24.  With the right arrow on an expanded row that has children, the focus
    moves one row down, to the first child of the node. *)
Theorem arrow_right_enters (now : N) (e : KeyboardEvent) (st : BrowserView)
    (r : FlatNode) :
  NoDup (allIds (nodes st)) → falsy (editingId st) = true →
  e_key e = K_ArrowRight → currentRow st = Some r →
  f_hasChildren r = true → f_isExpanded r = true →
  ∃ n c r',
    n ∈ allNodes (nodes st) ∧ id n = f_id r ∧ head (children n) = Some c
    ∧ handleKeyDown now e st
      = Some (setFocusedIndex (focusedIndex st + 1) st)
    ∧ currentRow (setFocusedIndex (focusedIndex st + 1) st) = Some r'
    ∧ f_id r' = id c.
Proof.
  intros Hnd Hedit Hkey Hrow Hkids Hexp.
  destruct (currentRow_lookup _ _ Hrow) as [Hpos Hlook].
  destruct (row_node st _ r Hlook) as (n & Hn & Hr).
  assert (n ∈ visibleAll (expandedIds st) (nodes st)) as Hvis
    by by eapply list_elem_of_lookup_2.
  destruct (visible_after _ _ _ Hnd Hvis) as (v1 & v3 & Hsplit).
  pose proof (visible_index _ _ _ _ _ _ Hnd Hn Hsplit) as Hf.
  subst r. cbn [f_id f_isExpanded f_hasChildren rowOf] in *.
  rewrite Hexp in Hsplit. apply bool_decide_eq_true in Hkids.
  destruct (children n) as [|c cs] eqn:Hcs; [simpl in Hkids; lia|].
  rewrite visibleAll_cons in Hsplit.
  assert (visibleAll (expandedIds st) (nodes st) !! S (length v1) = Some c)
    as Hc.
  { rewrite Hsplit. rewrite lookup_app_r by lia.
    by replace (S (length v1) - length v1) with 1 by lia. }
  assert (flatNodes st !! S (length v1)
          = Some (rowOf (expandedIds st) (S (length v1)) c)) as Hrowc
    by by rewrite flatNodes_rows, list_lookup_imap, Hc.
  exists n, c, (rowOf (expandedIds st) (S (length v1)) c).
  split; [by apply (visibleAll_sub (expandedIds st))|].
  split; [done|]. split; [by rewrite Hcs|].
  replace (focusedIndex st + 1)%Z with (Z.of_nat (S (length v1))) by lia.
  split; [|by rewrite currentRow_set].
  unfold handleKeyDown. rewrite Hrow, Hedit.
  destruct e as [k ct m s]. cbn [e_key e_ctrlKey e_metaKey e_shiftKey] in *.
  subst k. rewrite !(bool_decide_eq_false_2 (_ = K_z)),
             !(bool_decide_eq_false_2 (_ = K_y)) by done.
  cbn [andb orb negb]. rewrite !andb_false_r. cbn [andb orb negb].
  cbn [f_id f_isExpanded f_hasChildren rowOf].
  rewrite Hcs, Hexp. cbn [negb].
  rewrite (bool_decide_eq_true_2 (0 < length (c :: cs))) by (simpl; lia).
  apply lookup_lt_Some in Hrowc.
  rewrite decide_True by lia. do 2 f_equal. lia.
Qed.

(** ** The file name *)

(** X25.  The name of a file is the text of the first root the parser makes of
    its text, and the default name when the parser makes no node; it is
    never empty. *)
Theorem file_name_is_first_root (clock : nat → N) (rawText : jstring) :
  extractFileName rawText
  = match parseTextToTree clock rawText with
    | root :: _ => text root
    | [] => defaultFileName
    end
  ∧ extractFileName rawText ≠ [].
Proof.
  pose proof (parse_depthText clock rawText) as Hlines.
  unfold extractFileName.
  destruct (retainedLines rawText) as [|line rest] eqn:Hret.
  - split; [|done].
    destruct (parseTextToTree clock rawText) as [|root roots]; [done|].
    by rewrite allNodes_cons, fmap_cons in Hlines.
  - assert (trim line ≠ []) as Hline.
    { assert (line ∈ retainedLines rawText) as Hin
        by (rewrite Hret; apply list_elem_of_here).
      unfold retainedLines in Hin. by apply list_elem_of_filter in Hin as [? _]. }
    cbn zeta. rewrite decide_False by by rewrite trim_strip.
    split; [|by rewrite trim_strip].
    destruct (parseTextToTree clock rawText) as [|root roots]; [done|].
    rewrite allNodes_cons, !fmap_cons in Hlines. unfold depthText in Hlines.
    by injection Hlines as _ -> _.
Qed.

(** ** Undoing an edit *)

Section UndoEdit.

Implicit Types (st : BrowserView) (t : list TreeNode).

(** Undo after a push shows the tree that was on display before it, and redo
    shows the pushed tree again. *)
Lemma undo_after_push t st st1 :
  historyOk st → history st1 = history (push t st) →
  historyIndex st1 = historyIndex (push t st) →
  ∃ st2 st3, handleUndo st1 = Some st2 ∧ nodes st2 = nodes st
             ∧ handleRedo st2 = Some st3 ∧ nodes st3 = t.
Proof.
  intros (Hi & Hn & Hcur) Hh Hx.
  destruct (push_history t st Hi Hn) as (Hhist & Hidx & _).
  set (all := take (historyIndex st + 1) (history st) ++ [t]) in *.
  assert (length all = historyIndex st + 2) as Hall.
  { unfold all. rewrite length_app, length_take. simpl. lia. }
  assert (∀ k, k < length all → all !! k
               = if decide (k = historyIndex st + 1) then Some t
                 else history st !! k) as Hlook.
  { intros k Hk. unfold all. destruct (decide _) as [->|Hne].
    - rewrite lookup_app_r by (rewrite length_take; lia).
      rewrite length_take.
      by replace (historyIndex st + 1 - _) with 0 by lia.
    - rewrite lookup_app_l by (rewrite length_take; lia).
      apply lookup_take_lt. lia. }
  remember (length all - 50) as off eqn:Hoff.
  assert (length (history st1) = length all - off) as Hlen
    by by rewrite Hh, Hhist, length_drop.
  assert (historyIndex st1 = length all - off - 1) as Hidx1
    by by rewrite Hx, Hidx, <- Hh, Hlen.
  unfold handleUndo, restoreSnapshot.
  rewrite decide_True by lia.
  assert (history st1 !! (historyIndex st1 - 1) = Some (nodes st)) as ->.
  { rewrite Hh, Hhist, lookup_drop, Hlook by lia.
    rewrite decide_False by lia. rewrite <- Hcur. f_equal. lia. }
  cbn [mbind option_bind]. eexists _, _. split; [done|]. split; [done|].
  unfold handleRedo, restoreSnapshot.
  cbn [history historyIndex setHistory onUpdateNodes].
  rewrite decide_True by lia.
  assert (history st1 !! (historyIndex st1 - 1 + 1) = Some t) as ->.
  { rewrite Hh, Hhist, lookup_drop, Hlook by lia.
    by rewrite decide_True by lia. }
  done.
Qed.

End UndoEdit.

(** X26.  From a state whose history cursor points at the tree on display,
    undo after one edit (delete, add a child, set a text, commit a text with
    Tab, add a sibling of a node of the tree) shows the tree as it was before
    the edit, and redo shows the edited tree again. *)
Theorem edit_then_undo (now : N) (i v : jstring) (e : KeyboardEvent)
    (st : BrowserView) :
  historyOk st →
  let undone st1 :=
    ∃ st2 st3, handleUndo st1 = Some st2 ∧ nodes st2 = nodes st
               ∧ handleRedo st2 = Some st3 ∧ nodes st3 = nodes st1 in
  undone (handleDelete i st)
  ∧ undone (handleAddChild now i st)
  ∧ undone (handleUpdateText i v st)
  ∧ (e_key e = K_Tab → undone (textareaKeyDown now e i v st))
  ∧ (is_Some (nodeMap st !! i) → undone (handleAddSibling now i st)).
Proof.
  intros Hok undone.
  assert (∀ t st1, history st1 = history (push t st) →
                   historyIndex st1 = historyIndex (push t st) →
                   nodes st1 = t → undone st1) as Hpush.
  { intros t st1 Hh Hx Ht. unfold undone. rewrite Ht.
    by apply undo_after_push. }
  assert (undone (handleUpdateText i v st)) as Htext.
  { unfold handleUpdateText. destruct (decide _); by eapply Hpush. }
  split; [by eapply Hpush|]. split; [by eapply Hpush|]. split; [done|].
  split.
  - intros Hkey. unfold textareaKeyDown. rewrite Hkey.
    rewrite (bool_decide_eq_false_2 (K_Tab = K_Enter)) by done.
    rewrite (bool_decide_eq_false_2 (K_Tab = K_Escape)) by done.
    rewrite (bool_decide_eq_true_2 (K_Tab = K_Tab)) by done.
    cbn [andb]. destruct (decide _); [done|by eapply Hpush].
  - intros [target Htarget]. unfold handleAddSibling. rewrite Htarget.
    destruct (parent target); by eapply Hpush.
Qed.

(** ** The font size *)

(** X27.  Whatever buttons are clicked, the font size stays between 8 and
    24. *)
Theorem font_size_bounds (cs : list FontClick) :
  (8 ≤ fontClicks cs initialFontSize ≤ 24)%Z.
Proof.
  unfold fontClicks.
  assert (8 ≤ initialFontSize ≤ 24)%Z as Hinit by (unfold initialFontSize; lia).
  revert Hinit. generalize initialFontSize.
  induction cs as [|c cs IH]; intros size Hsize; [done|].
  simpl. apply IH.
  destruct c; unfold fontClick, handleIncrease, handleDecrease;
    destruct (decide _); lia.
Qed.

(** ** Deleting a row *)

Section DeleteRow.

Implicit Types (n target : TreeNode) (l t : list TreeNode) (E : gset jstring)
  (st : BrowserView).

(** The rows left by [removeNode] are the rows outside the removed subtree. *)
Lemma visibleAll_removeNode E l target :
  NoDup (allIds l) → target ∈ allNodes l →
  id <$> visibleAll E (removeNode l (id target))
  = id <$> filter (fun n => id n ∉ idsOf target) (visibleAll E l).
Proof.
  induction l as [|n l IHc IHl] using forest_ind;
    [by intros _ ?%elem_of_nil|].
  intros Hnd Hin.
  destruct (NoDup_allIds_cons _ _ Hnd) as (Hnc & Hnl & Hndc & Hndl & Hdisj).
  rewrite removeNode_cons, (visibleAll_cons E n l), filter_cons, filter_app.
  rewrite allNodes_cons, elem_of_cons, elem_of_app in Hin.
  destruct Hin as [->|[Hin|Hin]].
  - rewrite decide_True by done.
    rewrite decide_False by (intros Hn; apply Hn, id_in_idsOf).
    rewrite removeNode_absent by done.
    rewrite (filter_none _ (if bool_decide (id n ∈ E) then _ else _)),
      (filter_all _ (visibleAll E l)); [done| |].
    + apply Forall_forall. intros x Hx Hi. rewrite idsOf_allIds in Hi.
      apply elem_of_cons in Hi as [Hi|Hi].
      * apply Hnl. rewrite <- Hi. by apply elem_allIds, (visibleAll_sub E).
      * eapply Hdisj; [done|]. by apply elem_allIds, (visibleAll_sub E).
    + apply Forall_forall. intros x Hx Hn. apply Hn.
      rewrite idsOf_allIds. apply elem_of_cons. right.
      destruct (bool_decide (id n ∈ E)); [|by apply elem_of_nil in Hx].
      by apply elem_allIds, (visibleAll_sub E).
  - assert (∀ i, i ∈ idsOf target → i ∈ allIds (children n)) as Hsub.
    { intros i. by apply allIds_subtree. }
    assert (id n ≠ id target) as Hne.
    { intros Heq. apply Hnc. rewrite Heq. apply Hsub, id_in_idsOf. }
    rewrite decide_False by done.
    rewrite decide_True by (intros Hi; by apply Hnc, Hsub).
    rewrite visibleAll_cons. cbn [children id withChildren].
    rewrite (removeNode_absent _ l)
      by (intros Hi; eapply Hdisj; [apply Hsub, id_in_idsOf|done]).
    rewrite (filter_all _ (visibleAll E l)).
    + rewrite !fmap_cons, !fmap_app. f_equal. f_equal.
      destruct (bool_decide (id n ∈ E)); [by apply IHc|done].
    + apply Forall_forall. intros x Hx Hi. eapply Hdisj; [by apply Hsub|].
      by apply elem_allIds, (visibleAll_sub E).
  - assert (∀ i, i ∈ idsOf target → i ∈ allIds l) as Hsub.
    { intros i. by apply allIds_subtree. }
    assert (id n ≠ id target) as Hne.
    { intros Heq. apply Hnl. rewrite Heq. apply Hsub, id_in_idsOf. }
    rewrite decide_False by done.
    rewrite decide_True by (intros Hi; by apply Hnl, Hsub).
    rewrite visibleAll_cons. cbn [children id withChildren].
    rewrite (removeNode_absent _ (children n))
      by (intros Hi; eapply Hdisj; [done|apply Hsub, id_in_idsOf]).
    rewrite !fmap_cons, !fmap_app. rewrite (IHl Hndl Hin). f_equal. f_equal.
    destruct (bool_decide (id n ∈ E)); [|done].
    f_equal. symmetry. apply filter_all.
    apply Forall_forall. intros x Hx Hi. eapply Hdisj; [|by apply Hsub].
    by apply elem_allIds, (visibleAll_sub E).
Qed.

(** No row lies below a collapsed node. *)
Lemma collapsed_hides E l target n :
  NoDup (allIds l) → target ∈ allNodes l → id target ∉ E →
  n ∈ visibleAll E l → id n ∉ allIds (children target).
Proof.
  intros Hnd Hin Hout Hn.
  pose proof (visibleAll_collapse E l target Hnd Hin) as Hc.
  rewrite (visibleAll_agree E (E ∖ {[id target]})) in Hc
    by (intros i _; set_solver).
  rewrite Hc in Hn. by apply list_elem_of_filter in Hn as [? _].
Qed.

Lemma filter_one_out {A} `{EqDecision A} (x : A) (L : list A)
    (P : A → Prop) `{∀ y, Decision (P y)} :
  NoDup L → x ∈ L → (∀ y, y ∈ L → P y ↔ y ≠ x) →
  S (length (filter P L)) = length L.
Proof.
  intros Hnd Hx HP.
  apply list_elem_of_split in Hx as (L1 & L2 & ->).
  apply NoDup_app in Hnd as (_ & Hnot & [Hx2 _]%NoDup_cons).
  rewrite filter_app, filter_cons.
  rewrite decide_False
    by (intros Hp; apply HP in Hp; [done|];
        apply elem_of_app; right; apply list_elem_of_here).
  rewrite !filter_all.
  - rewrite !length_app. simpl. lia.
  - apply Forall_forall. intros y Hy. apply HP.
    + apply elem_of_app. right. by apply list_elem_of_further.
    + by intros ->.
  - apply Forall_forall. intros y Hy. apply HP.
    + apply elem_of_app. by left.
    + intros ->. by apply (Hnot x), list_elem_of_here.
Qed.

(** [addToHistory] touches the history and its cursor only. *)
Lemma addToHistory_view t st :
  expandedIds (addToHistory t st) = expandedIds st
  ∧ focusedIndex (addToHistory t st) = focusedIndex st
  ∧ editingId (addToHistory t st) = editingId st
  ∧ nodes (addToHistory t st) = nodes st.
Proof. unfold addToHistory. by destruct (decide _). Qed.

End DeleteRow.

(** X28.  After a node is deleted the rows are the former rows outside its
    subtree.  When the node was on a row, collapsed or without children, and
    another row is left, the focus is on a row. *)
Theorem delete_rows_and_focus (st : BrowserView) (target : TreeNode) :
  NoDup (allIds (nodes st)) → target ∈ allNodes (nodes st) →
  let st' := handleDelete (id target) st in
  f_id <$> flatNodes st'
  = filter (fun i => i ∉ idsOf target) (f_id <$> flatNodes st)
  ∧ (id target ∈ f_id <$> flatNodes st →
     id target ∉ expandedIds st ∨ children target = [] →
     1 < length (flatNodes st) →
     is_Some (currentRow st')).
Proof.
  intros Hnd Hin st'.
  assert (f_id <$> flatNodes st'
          = filter (fun i => i ∉ idsOf target) (f_id <$> flatNodes st)) as Hrows.
  { rewrite !flatNodes_ids.
    replace (expandedIds st') with (expandedIds st)
      by (symmetry; apply addToHistory_view).
    replace (nodes st') with (removeNode (nodes st) (id target)) by done.
    rewrite visibleAll_removeNode by done. by rewrite filter_fmap_pre. }
  split; [done|]. intros Hrow Hfolded Hmany.
  assert (S (length (flatNodes st')) = length (flatNodes st)) as Hlen.
  { rewrite <- (length_fmap f_id (flatNodes st')), Hrows.
    rewrite <- (length_fmap f_id (flatNodes st)).
    apply (filter_one_out (id target)); [|done|].
    - rewrite flatNodes_ids. by apply visibleAll_NoDup.
    - intros y Hy. rewrite idsOf_allIds, not_elem_of_cons.
      split; [tauto|]. intros Hne. split; [done|].
      destruct Hfolded as [Hout| ->]; [|apply not_elem_of_nil].
      rewrite flatNodes_ids in Hy.
      apply list_elem_of_fmap_1 in Hy as (n & -> & Hn).
      by eapply collapsed_hides. }
  unfold currentRow.
  replace (focusedIndex st')
    with (Z.max 0 (Z.min (focusedIndex st)
                         (Z.of_nat (length (flatNodes st)) - 2))) by done.
  rewrite decide_True by lia. apply lookup_lt_is_Some_2. lia.
Qed.

(** ** The example tree *)

Section Example.

Lemma sampleNodes_parsed : sampleNodes = parseTextToTree (fun _ => 0%N) sample.
Proof. by vm_compute. Qed.

Lemma sampleView_parentsOk : parentsOk (nodes sampleView).
Proof.
  apply Parented_parentsOk. change (nodes sampleView) with sampleNodes.
  rewrite sampleNodes_parsed. apply parse_parented.
Qed.

Lemma sampleView_depthConsistent : depthConsistent (nodes sampleView).
Proof.
  apply Levelled_consistent. change (nodes sampleView) with sampleNodes.
  rewrite sampleNodes_parsed. apply parse_levelled.
  vm_compute. repeat split; lia.
Qed.

Lemma sampleView_wellFormed : wellFormed (nodes sampleView).
Proof.
  split; [apply sampleView_NoDup|].
  split; [apply sampleView_depthConsistent|apply sampleView_parentsOk].
Qed.

Lemma nodeB_in_sample : nodeB ∈ allNodes (nodes sampleView).
Proof. vm_compute. apply list_elem_of_further, list_elem_of_here. Qed.

Lemma nodeB_child_of_A : nodeB ∈ children nodeA.
Proof. vm_compute. apply list_elem_of_here. Qed.

Lemma fresh_in_sample : freshId 7 ∉ allIds (nodes sampleView).
Proof. apply (bool_decide_unpack _). vm_compute. exact I. Qed.

End Example.

(** ** The theorems at the example tree *)

Lemma next_prev_inverse_witness :
  ∃ c, getPrevNode sampleNodes (id nodeB) = Some c ∧ id c = id nodeA
       ∧ c ∈ flattenTree sampleNodes.
Proof.
  apply (next_prev_inverse sampleNodes (id nodeA) nodeB).
  - apply (bool_decide_unpack _). vm_compute. exact I.
  - vm_compute. reflexivity.
Defined.

Lemma sibling_search_optimized_witness :
  getNextSibling sampleNodes (id nodeA)
  = getNextSiblingOptimized (flattenTree sampleNodes) (nodeMapOf sampleNodes)
      (id nodeA)
  ∧ getNextSiblingOptimized (flattenTree foldedFamilies)
      (nodeMapOf foldedFamilies) (id hiddenB) = None
  ∧ getNextSibling foldedFamilies (id hiddenB)
    ≠ getNextSiblingOptimized (flattenTree foldedFamilies)
        (nodeMapOf foldedFamilies) (id hiddenB).
Proof.
  destruct (sibling_search_optimized sampleNodes (id nodeA) sampleView_NoDup)
    as (_ & Hnext & _).
  destruct (sibling_search_optimized foldedFamilies (id hiddenB))
    as (_ & _ & Hhidden).
  { apply (bool_decide_unpack _). vm_compute. exact I. }
  destruct Hhidden as [Hopt Hscan].
  { apply (bool_decide_unpack _). vm_compute. exact I. }
  split; [apply Hnext; vm_compute; apply list_elem_of_here|].
  split; [exact Hopt|].
  apply (Hscan hiddenB).
  - vm_compute. apply list_elem_of_further, list_elem_of_here.
  - reflexivity.
  - exists visibleD. split; [|reflexivity].
    vm_compute. do 2 apply list_elem_of_further. apply list_elem_of_here.
Defined.

Lemma serialize_parse_roundtrip_witness :
  depthText <$> allNodes (parseTextToTree (fun _ => 5%N)
                            (serializeTreeToText sampleNodes))
  = depthText <$> allNodes sampleNodes
  ∧ outline <$> parseTextToTree (fun _ => 5%N) (serializeTreeToText sampleNodes)
    = outline <$> sampleNodes.
Proof.
  destruct (serialize_parse_roundtrip (fun _ => 5%N) sampleNodes) as [Hflat Hout].
  - apply (bool_decide_unpack _). vm_compute. exact I.
  - split; [exact Hflat|]. apply Hout.
    apply depthConsistent_levelled, sampleView_depthConsistent.
Defined.

Lemma mount_rows_witness :
  (fun r => (f_id r, f_text r, f_depth r, f_isExpanded r))
    <$> flatNodes (mount sampleNodes)
  = (fun n => (id n, text n, depth n, isExpanded n)) <$> flattenTree sampleNodes.
Proof. exact (mount_rows sampleNodes sampleView_NoDup). Defined.

Lemma delete_and_setText_keep_invariants_witness :
  wellFormed (nodes (handleDelete (id nodeA) sampleView))
  ∧ wellFormed (nodes (handleUpdateText (id nodeA) (str "A1") sampleView)).
Proof.
  exact (delete_and_setText_keep_invariants (id nodeA) (str "A1") sampleView
           sampleView_wellFormed).
Defined.

Lemma add_child_result_witness :
  mkNode (id nodeA) (text nodeA) (depth nodeA)
    (children nodeA
     ++ [mkNode (freshId 7) [] (depth nodeA + 1) [] true (Some (refTo nodeA))])
    true (parent nodeA)
  ∈ allNodes (nodes (handleAddChild 7 (id nodeA) sampleView))
  ∧ id nodeA ∈ expandedIds (handleAddChild 7 (id nodeA) sampleView)
  ∧ wellFormed (nodes (handleAddChild 7 (id nodeA) sampleView)).
Proof.
  destruct (add_child_result 7 sampleView nodeA sampleView_NoDup
              nodeA_in_sample fresh_in_sample) as (_ & Hnode & Hexp & _ & Hwf).
  split; [exact Hnode|]. split; [exact Hexp|].
  exact (Hwf sampleView_wellFormed).
Defined.

Lemma add_sibling_result_witness :
  (∃ s1 s2,
     s1 ++ nodeB
        :: mkNode (freshId 7) [] (depth nodeB) [] true (parent nodeB) :: s2
     ∈ siblingArrays (nodes (handleAddSibling 7 (id nodeB) sampleView)))
  ∧ editingId (handleAddSibling 7 (id nodeB) sampleView) = Some (freshId 7)
  ∧ NoDup (allIds (nodes (handleAddSibling 7 (id nodeB) sampleView)))
  ∧ parentsOk (nodes (handleAddSibling 7 (id nodeB) sampleView))
  ∧ depthConsistent (nodes (handleAddSibling 7 (id nodeB) sampleView)).
Proof.
  destruct (add_sibling_result 7 sampleView nodeB sampleView_NoDup
              sampleView_parentsOk nodeB_in_sample fresh_in_sample)
    as (_ & Hplace & Hedit & Hnd & Hpar & Hdepth).
  split; [exact Hplace|]. split; [exact Hedit|]. split; [exact Hnd|].
  split; [exact Hpar|]. exact (Hdepth sampleView_depthConsistent).
Defined.

Lemma add_parent_sibling_witness :
  handleAddParentSibling 7 (id nodeB) sampleView
  = handleAddSibling 7 (id nodeA) sampleView
  ∧ handleAddParentSibling 7 (id nodeA) sampleView = sampleView
  ∧ handleAddParentSibling 7 ghost sampleView = sampleView.
Proof.
  destruct (add_parent_sibling 7 (id nodeB) sampleView sampleView_NoDup
              sampleView_parentsOk) as (_ & _ & Hchild).
  destruct (add_parent_sibling 7 (id nodeA) sampleView sampleView_NoDup
              sampleView_parentsOk) as (_ & Hroot & _).
  destruct (add_parent_sibling 7 ghost sampleView sampleView_NoDup
              sampleView_parentsOk) as (Habsent & _ & _).
  split; [exact (Hchild nodeA nodeB nodeA_in_sample nodeB_child_of_A eq_refl)|].
  split.
  - apply (Hroot nodeA); [vm_compute; apply list_elem_of_here|reflexivity].
  - apply Habsent. apply (bool_decide_unpack _). vm_compute. exact I.
Defined.

Lemma move_keeps_tree_witness :
  idText <$> allNodes (nodes (move (id nodeD) (id nodeB) after sampleView))
    ≡ₚ idText <$> allNodes (nodes sampleView)
  ∧ depthConsistent (nodes (move (id nodeD) (id nodeB) after sampleView))
  ∧ parentsOk (nodes (move (id nodeD) (id nodeB) after sampleView)).
Proof.
  destruct (move_keeps_tree sampleView nodeD nodeB after sampleView_NoDup
              eq_refl nodeD_in_sample nodeB_in_sample)
    as (Hperm & Hdepth & Hpar).
  - discriminate.
  - apply (bool_decide_unpack _). vm_compute. exact I.
  - split; [exact Hperm|].
    split; [exact (Hdepth sampleView_depthConsistent)
           |exact (Hpar sampleView_parentsOk)].
Defined.

Lemma move_beside_places_witness :
  nodes (move (id nodeB) (id nodeD) before sampleView)
  = placeBeside before (removeNode [nodeA] (id nodeB))
      (updateNodeDepth nodeB 0 None)
      (withChildren nodeD (removeNode (children nodeD) (id nodeB)))
      (removeNode [] (id nodeB)).
Proof.
  destruct (move_beside_places sampleView nodeB nodeD before sampleView_NoDup
              eq_refl nodeB_in_sample nodeD_in_sample)
    as (_ & Hroot & _).
  - discriminate.
  - apply (bool_decide_unpack _). vm_compute. exact I.
  - discriminate.
  - exact (Hroot [nodeA] [] eq_refl).
Defined.

Lemma navigation_keeps_focus_witness :
  ∃ st' r',
    handleKeyDown 0 (plainKey K_ArrowDown) sampleView = Some st'
    ∧ currentRow st' = Some r'
    ∧ nodes st' = nodes sampleView ∧ history st' = history sampleView
    ∧ historyIndex st' = historyIndex sampleView.
Proof.
  exact (navigation_keeps_focus 0 (plainKey K_ArrowDown) sampleView rowA
           sampleView_NoDup eq_refl eq_refl).
Defined.

Lemma fold_keys_toggle_witness :
  ∃ st' r',
    handleKeyDown 0 (plainKey K_ArrowLeft) sampleView = Some st'
    ∧ currentRow st' = Some r'
    ∧ f_id r' = f_id rowA ∧ f_isExpanded r' = negb (f_isExpanded rowA)
    ∧ nodes st' = nodes sampleView
    ∧ handleKeyDown 0 (plainKey K_Space) st' = Some sampleView.
Proof.
  apply (fold_keys_toggle 0 (plainKey K_ArrowLeft) (plainKey K_Space)
           sampleView rowA sampleView_NoDup eq_refl eq_refl eq_refl).
  - by right.
  - by left.
Defined.

Lemma arrow_left_to_parent_witness :
  ∃ j r',
    handleKeyDown 0 (plainKey K_ArrowLeft) sampleViewAtB
    = Some (setFocusedIndex (Z.of_nat j) sampleViewAtB)
    ∧ currentRow (setFocusedIndex (Z.of_nat j) sampleViewAtB) = Some r'
    ∧ f_id r' = id nodeA.
Proof.
  destruct (arrow_left_to_parent 0 (plainKey K_ArrowLeft) sampleViewAtB rowB
              sampleView_NoDup sampleView_parentsOk eq_refl eq_refl eq_refl
              eq_refl) as [Hchild _].
  exact (Hchild nodeA nodeB nodeA_in_sample nodeB_child_of_A eq_refl).
Defined.

Lemma arrow_right_enters_witness :
  ∃ n c r',
    n ∈ allNodes (nodes sampleView) ∧ id n = f_id rowA
    ∧ head (children n) = Some c
    ∧ handleKeyDown 0 (plainKey K_ArrowRight) sampleView
      = Some (setFocusedIndex (focusedIndex sampleView + 1) sampleView)
    ∧ currentRow (setFocusedIndex (focusedIndex sampleView + 1) sampleView)
      = Some r'
    ∧ f_id r' = id c.
Proof.
  exact (arrow_right_enters 0 (plainKey K_ArrowRight) sampleView rowA
           sampleView_NoDup eq_refl eq_refl eq_refl eq_refl eq_refl).
Defined.

Lemma edit_then_undo_witness :
  ∃ st2 st3,
    handleUndo (handleDelete (id nodeA) sampleView) = Some st2
    ∧ nodes st2 = nodes sampleView
    ∧ handleRedo st2 = Some st3
    ∧ nodes st3 = nodes (handleDelete (id nodeA) sampleView).
Proof.
  destruct (edit_then_undo 7 (id nodeA) (str "A1") (plainKey K_Tab) sampleView
              (mount_historyOk sampleNodes)) as (Hdelete & _).
  exact Hdelete.
Defined.

Lemma delete_rows_and_focus_witness :
  f_id <$> flatNodes (handleDelete (id nodeB) sampleView)
  = filter (fun i => i ∉ idsOf nodeB) (f_id <$> flatNodes sampleView)
  ∧ is_Some (currentRow (handleDelete (id nodeB) sampleView)).
Proof.
  destruct (delete_rows_and_focus sampleView nodeB sampleView_NoDup
              nodeB_in_sample) as [Hrows Hfocus].
  split; [exact Hrows|]. apply Hfocus.
  - vm_compute. apply list_elem_of_further, list_elem_of_here.
  - by right.
  - vm_compute. lia.
Defined.
